(** * Transport fare calculator: a shallow embedding of the fare resolution core

    The development follows [src/app.js] (release v11.2) and, where the two
    differ, the earlier single-file release kept as [src/unnamed/part_000].
    Module [Js] holds the few ECMAScript built-ins the core relies on, module
    [App] the functions of [app.js] and module [Legacy] those of the earlier
    release; module [Regex] runs the two patterns of the itinerary parser and
    module [Ui] holds what the event handlers of [app.js] compute.  Modules
    [Spec] and [Behaviour] hold the notions the theorems are stated with.
    The theorems come last. *)

From stdpp Require Import base option list gmap.
From Stdlib Require Import ZArith NArith String Ascii Lia.
From Stdlib Require DecimalPos.

Local Open Scope Z_scope.

(* ===================================================================== *)
(** ** ECMAScript built-ins *)
(* ===================================================================== *)

Module Js.

(** A JavaScript string is a sequence of UTF-16 code units. *)
Definition jsstring : Type := list N.

(** String literals of the source are written as UTF-8 text and decoded to
    code units here (a code point above U+FFFF becomes a surrogate pair). *)
Definition bytes (s : string) : list N :=
  List.map N_of_ascii (list_ascii_of_string s).

Fixpoint utf16 (bs : list N) : list N :=
  match bs with
  | [] => []
  | b :: r =>
    if (b <? 128)%N then b :: utf16 r
    else if (b <? 224)%N then
      match r with
      | c :: r' => ((b - 192) * 64 + (c - 128))%N :: utf16 r'
      | _ => []
      end
    else if (b <? 240)%N then
      match r with
      | c :: d :: r' =>
        ((b - 224) * 4096 + (c - 128) * 64 + (d - 128))%N :: utf16 r'
      | _ => []
      end
    else
      match r with
      | c :: d :: e :: r' =>
        let cp := ((b - 240) * 262144 + (c - 128) * 4096
                   + (d - 128) * 64 + (e - 128) - 65536)%N in
        (55296 + cp / 1024)%N :: (56320 + cp mod 1024)%N :: utf16 r'
      | _ => []
      end
  end.

Definition lit (s : string) : jsstring := utf16 (bytes s).

Definition streq (a b : jsstring) : bool := bool_decide (a = b).

(** [!s] for a string: the empty string is the only falsy one. *)
Definition isEmpty (s : jsstring) : bool :=
  match s with [] => true | _ => false end.

(** [inClass cls c]: the code unit [c] is matched by the character class
    whose members are the code units of [cls]. *)
Definition inClass (cls : jsstring) (c : N) : bool :=
  existsb (N.eqb c) cls.

(** WhiteSpace and LineTerminator code units: what [\s] matches and what
    [String.prototype.trim] strips. *)
Definition isWhiteSpace (c : N) : bool :=
  inClass [9; 10; 11; 12; 13; 32; 160; 5760; 8232; 8233; 8239; 8287;
           12288; 65279]%N c
  || ((8192 <=? c)%N && (c <=? 8202)%N).

Definition isDigit (c : N) : bool := (48 <=? c)%N && (c <=? 57)%N.

Fixpoint dropWhile {A} (p : A -> bool) (l : list A) : list A :=
  match l with
  | [] => []
  | x :: r => if p x then dropWhile p r else l
  end.

Fixpoint takeWhile {A} (p : A -> bool) (l : list A) : list A :=
  match l with
  | [] => []
  | x :: r => if p x then x :: takeWhile p r else []
  end.

Definition trimStart (s : jsstring) : jsstring := dropWhile isWhiteSpace s.
Definition trimEnd (s : jsstring) : jsstring :=
  rev (dropWhile isWhiteSpace (rev s)).
Definition trim (s : jsstring) : jsstring := trimEnd (trimStart s).

(** [s.replace(/[cls]/g, "")] and [s.replace(/[cls]+/g, "")]. *)
Definition removeAll (p : N -> bool) (s : jsstring) : jsstring :=
  List.filter (fun c => negb (p c)) s.

(** [s.replace(/[cls]/g, r)] for a one-unit replacement [r]. *)
Definition replaceAll (p : N -> bool) (r : N) (s : jsstring) : jsstring :=
  List.map (fun c => if p c then r else c) s.

(** [String.prototype.toLowerCase], unit by unit.  The mapping is that of
    the Unicode Character Database for Basic Latin, the Latin-1 Supplement,
    Latin Extended-A, basic Cyrillic and the full-width Latin letters; every
    other code unit is left as it is, which is right for digits,
    punctuation, kana and kanji.  On a text made of the units of
    [sheetUnit] below this is the lower-case text that the language gives.
    Outside them the lower case of a letter can depend on its neighbours
    (the final sigma), take two units (U+0130) or belong to a letter of
    another script or of a surrogate pair: those are not modelled. *)
Definition lowerUnit (c : N) : N :=
  if (65 <=? c)%N && (c <=? 90)%N then (c + 32)%N
  else if (192 <=? c)%N && (c <=? 222)%N && negb (c =? 215)%N then (c + 32)%N
  else if (((256 <=? c)%N && (c <=? 303)%N)
           || ((306 <=? c)%N && (c <=? 311)%N)
           || ((330 <=? c)%N && (c <=? 375)%N)) && N.even c
  then (c + 1)%N
  else if (((313 <=? c)%N && (c <=? 328)%N)
           || ((377 <=? c)%N && (c <=? 382)%N)) && N.odd c
  then (c + 1)%N
  else if (c =? 376)%N then 255%N
  else if (1040 <=? c)%N && (c <=? 1071)%N then (c + 32)%N
  else if (1024 <=? c)%N && (c <=? 1039)%N then (c + 80)%N
  else if (65313 <=? c)%N && (c <=? 65338)%N then (c + 32)%N
  else c.

(** The repertoire of the fare sheets: Basic Latin to Latin Extended-A
    (U+0000 to U+017F) without U+0130, basic Cyrillic (U+0400 to U+045F),
    general punctuation (U+2000 to U+206F), arrows and mathematical
    operators (U+2190 to U+22FF), the CJK symbols and the kana (U+3000 to
    U+30FF), the CJK ideographs (U+3400 to U+4DBF and U+4E00 to U+9FFF), and
    the half-width and full-width forms (U+FF00 to U+FFEF). *)
Definition sheetUnit (c : N) : bool :=
  ((c <=? 383)%N && negb (c =? 304)%N)
  || ((1024 <=? c)%N && (c <=? 1119)%N)
  || ((8192 <=? c)%N && (c <=? 8303)%N)
  || ((8592 <=? c)%N && (c <=? 8959)%N)
  || ((12288 <=? c)%N && (c <=? 12543)%N)
  || ((13312 <=? c)%N && (c <=? 19903)%N)
  || ((19968 <=? c)%N && (c <=? 40959)%N)
  || ((65280 <=? c)%N && (c <=? 65519)%N).

Definition toLowerCase (s : jsstring) : jsstring := List.map lowerUnit s.

Fixpoint startsWith (s x : jsstring) : bool :=
  match x, s with
  | [], _ => true
  | _ :: _, [] => false
  | c :: x', d :: s' => (c =? d)%N && startsWith s' x'
  end.

Definition endsWith (s x : jsstring) : bool := startsWith (rev s) (rev x).

(** [s.includes(x)]. *)
Fixpoint includes (s x : jsstring) : bool :=
  startsWith s x
  || match s with
     | [] => false
     | _ :: s' => includes s' x
     end.

(** [Number(ds)] for a string of decimal digits. *)
Definition digitValue (c : N) : Z := Z.of_N c - 48.

Definition Number (ds : jsstring) : Z :=
  fold_left (fun acc c => 10 * acc + digitValue c) ds 0.

(** [String(n)] for an integer [n]. *)
Fixpoint uintUnits (u : Decimal.uint) : jsstring :=
  match u with
  | Decimal.Nil => []
  | Decimal.D0 r => 48%N :: uintUnits r
  | Decimal.D1 r => 49%N :: uintUnits r
  | Decimal.D2 r => 50%N :: uintUnits r
  | Decimal.D3 r => 51%N :: uintUnits r
  | Decimal.D4 r => 52%N :: uintUnits r
  | Decimal.D5 r => 53%N :: uintUnits r
  | Decimal.D6 r => 54%N :: uintUnits r
  | Decimal.D7 r => 55%N :: uintUnits r
  | Decimal.D8 r => 56%N :: uintUnits r
  | Decimal.D9 r => 57%N :: uintUnits r
  end.

Definition String_ (n : Z) : jsstring :=
  match n with
  | Z0 => [48%N]
  | Zpos p => uintUnits (Pos.to_uint p)
  | Zneg p => 45%N :: uintUnits (Pos.to_uint p)
  end.

(** [s.padStart(2, "0")]. *)
Definition padStart2 (s : jsstring) : jsstring :=
  match s with
  | [] => [48; 48]%N
  | [c] => [48%N; c]
  | _ => s
  end.

(** *** Number values

    The Number values that [parseInt] can return: NaN, an infinity, or a
    double that is an integer, kept as the integer it denotes.  The zero
    with a minus sign is kept as 0: the functions of this development
    compare and subtract fares, which cannot tell the two zeros apart. *)
Inductive Num : Type :=
| NaN
| Infinity (negative : bool)
| Finite (value : Z).

(** The Number value of the integer [n]: [n] itself up to 2^53, beyond it
    the nearest double (a multiple of 2^e with a significand of 53 bits, a
    tie going to the even significand), and an infinity when that is 2^1024
    or more. *)
Definition toDouble (n : Z) : Num :=
  let a := Z.abs n in
  if a <? 2 ^ 53 then Finite n
  else
    let e := Z.log2 a - 52 in
    let q := a / 2 ^ e in
    let r := a mod 2 ^ e in
    let half := 2 ^ (e - 1) in
    let q' := if (half <? r) || ((r =? half) && Z.odd q) then q + 1 else q in
    let v := q' * 2 ^ e in
    if v <? 2 ^ 1024 then Finite (Z.sgn n * v) else Infinity (n <? 0).

(** [parseInt(s, 10)]: the sign and the leading digits of the text after
    its leading white space, as a Number; NaN when there is no digit.  All
    the digits count (the language would let an implementation round after
    the twentieth; the engines do not). *)
Definition parseInt10 (s : jsstring) : Num :=
  let t := trimStart s in
  let '(sign, r) :=
    match t with
    | 45%N :: r => (-1, r)
    | 43%N :: r => (1, r)
    | _ => (1, t)
    end in
  let ds := takeWhile isDigit r in
  if isEmpty ds then NaN else toDouble (sign * Number ds).

(** [s.split(sep)] for a one-unit separator. *)
Fixpoint splitOn (sep : N) (s : jsstring) : list jsstring :=
  match s with
  | [] => [[]]
  | c :: r =>
    if (c =? sep)%N then [] :: splitOn sep r
    else match splitOn sep r with
         | [] => [[c]]
         | w :: ws => (c :: w) :: ws
         end
  end.

(** *** Pieces of regular expressions

    Each piece consumes a prefix of the input and returns what it captured
    with the rest.  The quantified pieces are greedy; in every pattern of
    the program a digit group is followed by a non-digit (or the end) and a
    run of white space by a non-space, so the greedy choice is the only one
    that can lead to a match. *)

(** [\d{4}] *)
Definition digits4 (s : jsstring) : option (jsstring * jsstring) :=
  match s with
  | a :: b :: c :: d :: r =>
    if isDigit a && isDigit b && isDigit c && isDigit d
    then Some ([a; b; c; d], r) else None
  | _ => None
  end.

(** [\d{1,2}] *)
Definition digits12 (s : jsstring) : option (jsstring * jsstring) :=
  match s with
  | a :: r =>
    if isDigit a then
      match r with
      | b :: r' => if isDigit b then Some ([a; b], r') else Some ([a], r)
      | [] => Some ([a], [])
      end
    else None
  | [] => None
  end.

(** a character class, one unit *)
Definition oneOf (cls : jsstring) (s : jsstring) : option (N * jsstring) :=
  match s with
  | c :: r => if inClass cls c then Some (c, r) else None
  | [] => None
  end.

(** [\s*] *)
Definition spaces (s : jsstring) : jsstring := dropWhile isWhiteSpace s.

(** [$] *)
Definition atEnd (s : jsstring) : option unit :=
  match s with [] => Some tt | _ => None end.

(** *** Dates

    Every [Date] of the core is a local midnight: it is made by
    [new Date(y, m, d)], by [setFullYear] on such a date, or by
    [new Date(ms)] from the time value of such a date.  A date is therefore
    represented by its local day number (days since 1970-01-01), and its
    time value by the local one, [day * msPerDay]; the real time value
    differs from it by the zone offset, which is constant where the program
    is used (Japan standard time), so differences and comparisons agree. *)
Definition Date : Type := Z.

Definition msPerDay : Z := 86400000.

Definition getTime (d : Date) : Z := d * msPerDay.

(** [new Date(ms)] *)
Definition ofTime (t : Z) : Date := t / msPerDay.

(** Day number of a civil date of the proleptic Gregorian calendar, month in
    1..12, and back. *)
Definition daysFromCivil (y m d : Z) : Z :=
  let y' := if m <=? 2 then y - 1 else y in
  let era := y' / 400 in
  let yoe := y' - era * 400 in
  let doy := (153 * (if 2 <? m then m - 3 else m + 9) + 2) / 5 + d - 1 in
  let doe := yoe * 365 + yoe / 4 - yoe / 100 + doy in
  era * 146097 + doe - 719468.

Definition civilFromDays (z : Z) : Z * Z * Z :=
  let z' := z + 719468 in
  let era := z' / 146097 in
  let doe := z' - era * 146097 in
  let yoe := (doe - doe / 1460 + doe / 36524 - doe / 146096) / 365 in
  let doy := doe - (365 * yoe + yoe / 4 - yoe / 100) in
  let mp := (5 * doy + 2) / 153 in
  let d := doy - (153 * mp + 2) / 5 + 1 in
  let m := if mp <? 10 then mp + 3 else mp - 9 in
  (if m <=? 2 then yoe + era * 400 + 1 else yoe + era * 400, m, d).

(** MakeDay(year, month, date) of the language specification: the month
    (0-based) may lie outside 0..11 and the date outside the month. *)
Definition MakeDay (year month date : Z) : Z :=
  let ym := year + month / 12 in
  let mn := month mod 12 in
  daysFromCivil ym (mn + 1) 1 + date - 1.

(** [new Date(y, m, d)]: a year from 0 to 99 means 1900 + y. *)
Definition newDate (y m d : Z) : Date :=
  MakeDay (if (0 <=? y) && (y <=? 99) then 1900 + y else y) m d.

Definition getFullYear (d : Date) : Z := fst (fst (civilFromDays d)).
Definition getMonth (d : Date) : Z := snd (fst (civilFromDays d)) - 1.
Definition getDate (d : Date) : Z := snd (civilFromDays d).

(** [d.setFullYear(y)], returning the updated date. *)
Definition setFullYear (d : Date) (y : Z) : Date :=
  MakeDay y (getMonth d) (getDate d).

(** [Array.prototype.sort(cmp)]: the sort is stable, and for a comparator
    that is a consistent ordering its result is the stable sorted
    arrangement, computed here by insertion. *)
Fixpoint sortInsert {A} (cmp : A -> A -> Z) (x : A) (l : list A) : list A :=
  match l with
  | [] => [x]
  | y :: r => if cmp y x <=? 0 then y :: sortInsert cmp x r else x :: l
  end.

Definition sort {A} (cmp : A -> A -> Z) (l : list A) : list A :=
  fold_left (fun acc x => sortInsert cmp x acc) l [].

(** *** Plain objects with string values

    An object is kept as the list of its own properties in creation order.
    [objSet] is the assignment [o[k] = v] ([__proto__] is not an own
    property and a string assigned to it is dropped); [entries] is
    [Object.entries], which lists array-index keys first, in ascending
    order, and the other keys in creation order. *)
Definition JsObject : Type := list (jsstring * jsstring).

Fixpoint objSet (k v : jsstring) (o : JsObject) : JsObject :=
  match o with
  | [] => if streq k (lit "__proto__") then [] else [(k, v)]
  | (k', v') :: r =>
    if streq k' k then (k', v) :: r else (k', v') :: objSet k v r
  end.

Definition isArrayIndex (k : jsstring) : bool :=
  match k with
  | [] => false
  | [48%N] => true
  | c :: _ =>
    forallb isDigit k && negb (c =? 48)%N && (Number k <=? 4294967294)
  end.

Definition entries (o : JsObject) : list (jsstring * jsstring) :=
  sort (fun a b => Number (fst a) - Number (fst b))
       (List.filter (fun e => isArrayIndex (fst e)) o)
  ++ List.filter (fun e => negb (isArrayIndex (fst e))) o.

End Js.

Import Js.

(* ===================================================================== *)
(** ** app.js *)
(* ===================================================================== *)

Module App.

Definition stripBOM (s : jsstring) : jsstring :=
  match s with
  | 65279%N :: r => r
  | _ => s
  end.

Definition brackets : jsstring := lit "()（）[]【】".

Definition norm (s : jsstring) : jsstring :=
  toLowerCase
    (replaceAll (inClass (lit "‐‑–—−")) 45%N
       (removeAll (fun c => isWhiteSpace c || (c =? 12288)%N) (trim s))).

(** Place key: stronger than [norm] (drops dots and brackets too). *)
Definition normKey (s : jsstring) : jsstring :=
  removeAll (inClass brackets) (removeAll (inClass (lit "・･")) (norm s)).

Definition normHeaderKey (k : jsstring) : jsstring :=
  toLowerCase
    (replaceAll (inClass (lit "‐‑–—―ー")) 45%N
       (removeAll (inClass brackets)
          (removeAll (fun c => (c =? 12288)%N || isWhiteSpace c)
             (stripBOM k)))).

Definition has (nk : jsstring) (arr : list string) : bool :=
  existsb (fun x => includes nk (normHeaderKey (lit x))) arr.

Definition canonicalKey (k : jsstring) : jsstring :=
  let nk := normHeaderKey k in
  if has nk ["出発地"; "発地"; "出発"; "from"; "origin"; "出発場所"; "発駅";
             "乗車地"]%string
  then lit "from"
  else if has nk ["到着地"; "着地"; "到着"; "to"; "destination"; "到着場所";
                  "着駅"; "降車地"]%string
  then lit "to"
  else if has nk ["運賃"; "金額"; "料金"; "fare"; "price"; "運賃額"]%string
  then lit "fare"
  else if has nk ["価格タイプ"; "価格ﾀｲﾌﾟ"; "シーズン"; "season"; "type";
                  "区分"]%string
  then lit "priceType"
  else if has nk ["搭乗期間開始"; "搭乗開始"; "boardfrom"; "validfrom";
                  "搭乗期間from"]%string
  then lit "wholeFrom"
  else if has nk ["搭乗期間終了"; "搭乗終了"; "boardto"; "validto";
                  "搭乗期間to"]%string
  then lit "wholeTo"
  else if has nk ["価格適用期間開始"; "適用開始"; "periodfrom"; "farefrom";
                  "価格適用開始"]%string
  then lit "validFrom"
  else if has nk ["価格適用期間終了"; "適用終了"; "periodto"; "fareto";
                  "価格適用終了"]%string
  then lit "validTo"
  else if has nk ["価格適用期間"; "適用期間"; "validrange"; "period";
                  "range"]%string
  then lit "validRange"
  else if has nk ["alias"; "別名"; "入力"; "候補"; "表記ゆれ"; "表記揺れ";
                  "synonym"]%string
  then lit "alias"
  else if has nk ["canonical"; "正規"; "正規名"; "統一名"; "正式名称"]%string
  then lit "canonical"
  else if has nk ["根拠"; "備考"; "rule"; "注記"; "参照"]%string
  then lit "rule"
  else nk.

(** The properties of a normalized row, by canonical key.  [ck in out] is
    an own-property test here: the only lower-case names that [{}] inherits
    are [constructor] and [__proto__], and both contain "to", so
    [canonicalKey] never returns them. *)
Definition normalizeRowKeys (row : JsObject) : gmap jsstring jsstring :=
  fold_left
    (fun out e =>
       let ck := canonicalKey (fst e) in
       let val := trim (snd e) in
       match out !! ck with
       | None => <[ck := val]> out
       | Some old =>
         if isEmpty old && negb (isEmpty val) then <[ck := val]> out else out
       end)
    (entries row) ∅.

(** [rr.key ?? ""] *)
Definition prop (rr : gmap jsstring jsstring) (key : string) : jsstring :=
  default [] (rr !! lit key).

(** What the program takes from its host: the calendar year of the clock
    ([new Date().getFullYear()]) and the Japanese collation behind
    [a.localeCompare(b, "ja")]. *)
Record Host := {
  currentYear : Z;
  localeCompareJa : jsstring -> jsstring -> Z
}.

(** [^(\d{4})SEP(\d{1,2})SEP(\d{1,2})$] *)
Definition matchYMD (sep : string) (t : jsstring)
  : option (jsstring * jsstring * jsstring) :=
  '(y, r) ← digits4 t;
  '(_, r) ← oneOf (lit sep) r;
  '(m, r) ← digits12 r;
  '(_, r) ← oneOf (lit sep) r;
  '(d, r) ← digits12 r;
  _ ← atEnd r;
  Some (y, m, d).

(** [^(\d{1,2})[\/\-](\d{1,2})$] *)
Definition matchMD (t : jsstring) : option (jsstring * jsstring) :=
  '(m, r) ← digits12 t;
  '(_, r) ← oneOf (lit "/-") r;
  '(d, r) ← digits12 r;
  _ ← atEnd r;
  Some (m, d).

Definition parseDateLoose (h : Host) (s : jsstring) : option Date :=
  let t := trim s in
  if isEmpty t then None
  else
    (* YYYY-MM-DD *)
    match matchYMD "-" t with
    | Some (y, m, d) => Some (newDate (Number y) (Number m - 1) (Number d))
    | None =>
      (* YYYY/MM/DD *)
      match matchYMD "/" t with
      | Some (y, m, d) => Some (newDate (Number y) (Number m - 1) (Number d))
      | None =>
        (* M/D or M-D (assume current year) *)
        match matchMD t with
        | Some (m, d) =>
          let y := currentYear h in
          Some (newDate y (Number m - 1) (Number d))
        | None => None
        end
      end
    end.

Definition ymd (d : Date) : jsstring :=
  let y := getFullYear d in
  let m := padStart2 (String_ (getMonth d + 1)) in
  let day := padStart2 (String_ (getDate d)) in
  String_ y ++ lit "-" ++ m ++ lit "-" ++ day.

(** [r[header[j]] = (cols[j] ?? "").trim()] for every column of the header *)
Fixpoint rowObject (header cols : list jsstring) (r : JsObject) : JsObject :=
  match header with
  | [] => r
  | hd :: header' =>
    rowObject header' (tail cols) (objSet hd (trim (default [] (head cols))) r)
  end.

Definition parseTSV (text : jsstring) : list JsObject :=
  let lines :=
    List.filter (fun l => negb (isEmpty (trim l)))
      (splitOn 10 (removeAll (N.eqb 13) text)) in
  match lines with
  | [] => []
  | l0 :: rest =>
    let header := List.map trim (splitOn 9 l0) in
    List.map (fun l => rowObject header (splitOn 9 l) []) rest
  end.

(** The scanning loop of [parseCSV]: [rows], [cur], [cell] and [inQ] are
    the loop's variables, the argument is the text from index [i] on. *)
Fixpoint csvScan (text : jsstring) (rows : list (list jsstring))
    (cur : list jsstring) (cell : jsstring) (inQ : bool)
  : list (list jsstring) * list jsstring * jsstring :=
  match text with
  | [] => (rows, cur, cell)
  | ch :: rest =>
    if inQ then
      if (ch =? 34)%N then
        match rest with
        | 34%N :: rest' => csvScan rest' rows cur (cell ++ [34%N]) true
        | _ => csvScan rest rows cur cell false
        end
      else csvScan rest rows cur (cell ++ [ch]) true
    else if (ch =? 34)%N then csvScan rest rows cur cell true
    else if (ch =? 44)%N then csvScan rest rows (cur ++ [cell]) [] false
    else if (ch =? 10)%N then csvScan rest (rows ++ [cur ++ [cell]]) [] [] false
    else if (ch =? 13)%N then csvScan rest rows cur cell false
    else csvScan rest rows cur (cell ++ [ch]) false
  end.

Definition parseCSV (text : jsstring) : list JsObject :=
  let '(rows, cur, cell) := csvScan text [] [] [] false in
  let rows :=
    if negb (isEmpty cell) || negb (Nat.eqb (List.length cur) 0)
    then rows ++ [cur ++ [cell]] else rows in
  match rows with
  | [] => []
  | r0 :: rest =>
    let header := List.map (fun hd => trim (stripBOM hd)) r0 in
    List.map (fun r => rowObject header r [])
      (List.filter (fun r => negb (forallb (fun x => isEmpty (trim x)) r)) rest)
  end.

(** One date of a range:
    [\d{4}[\/-]\d{1,2}[\/-]\d{1,2}], returning the matched text. *)
Definition dateToken (s : jsstring) : option (jsstring * jsstring) :=
  '(y, r) ← digits4 s;
  '(c1, r) ← oneOf (lit "/-") r;
  '(m, r) ← digits12 r;
  '(c2, r) ← oneOf (lit "/-") r;
  '(d, r) ← digits12 r;
  Some (y ++ [c1] ++ m ++ [c2] ++ d, r).

(** The range pattern tried at the head of [s]:
    [(date)\s*[〜～~\-–—―]\s*(date)]. *)
Definition matchRangeAt (s : jsstring) : option (jsstring * jsstring) :=
  '(a, r) ← dateToken s;
  '(_, r) ← oneOf (lit "〜～~-–—―") (spaces r);
  '(b, _) ← dateToken (spaces r);
  Some (a, b).

(** [p.match(/.../)]: the first position at which the pattern matches. *)
Fixpoint matchRange (p : jsstring) : option (jsstring * jsstring) :=
  match matchRangeAt p with
  | Some m => Some m
  | None =>
    match p with
    | [] => None
    | _ :: p' => matchRange p'
    end
  end.

(** The [raw] text kept with a period in the source is never read; a period
    is the pair of its dates. *)
Definition parsePeriodRanges (h : Host) (periodStr : jsstring)
  : list (Date * Date) :=
  let t := trim periodStr in
  if isEmpty t then []
  else
    let parts :=
      List.filter (fun p => negb (isEmpty p)) (List.map trim (splitOn 47 t)) in
    fold_left
      (fun ranges p =>
         match matchRange p with
         | None => ranges
         | Some (m1, m2) =>
           match parseDateLoose h m1, parseDateLoose h m2 with
           | Some a, Some b => ranges ++ [(a, b)]
           | _, _ => ranges
           end
         end)
      parts [].

(** [{ ok, reason }]; [reason] is absent when [ok] holds. *)
Record Shape := { ok : bool; reason : option jsstring }.

(** [arr.join(",")] *)
Fixpoint join (arr : list jsstring) : jsstring :=
  match arr with
  | [] => []
  | [x] => x
  | x :: r => x ++ 44%N :: join r
  end.

Definition hasFareShape (rows : list JsObject) : Shape :=
  match rows with
  | [] => {| ok := false; reason := Some (lit "no rows") |}
  | r0 :: _ =>
    let n := normalizeRowKeys r0 in
    if negb (isEmpty (prop n "from")) && negb (isEmpty (prop n "to"))
       && bool_decide (is_Some (n !! lit "fare"))
    then {| ok := true; reason := None |}
    else {| ok := false;
            reason := Some (lit "headers=" ++ join (List.map fst (entries r0))) |}
  end.

(** *** Alias handling *)

(** [p.replace(/(都|道|府|県)$/, "")] *)
Definition stripPrefecture (p : jsstring) : jsstring :=
  match rev p with
  | c :: r => if inClass (lit "都道府県") c then rev r else p
  | [] => p
  end.

(** [p.replace(/空港$/, "")] *)
Definition stripAirport (p : jsstring) : jsstring :=
  if endsWith p (lit "空港") then take (List.length p - 2)%nat p else p.

Definition common : list (string * string) :=
  [("羽田", "東京"); ("成田", "東京"); ("那覇", "沖縄")]%string.

Definition buildAliasDefaultsFromPlaces (places : list jsstring)
  : gmap jsstring jsstring :=
  let m := fold_left (fun m p => <[normKey p := p]> m) places ∅ in
  let m :=
    fold_left
      (fun m p =>
         let variants :=
           List.filter (fun v => negb (isEmpty v) && negb (streq v p))
             [stripPrefecture p; stripAirport p] in
         fold_left
           (fun m v =>
              let k := normKey v in
              if bool_decide (is_Some (m !! k)) then m else <[k := p]> m)
           variants m)
      places m in
  fold_left
    (fun m '(alias, canon) =>
       if bool_decide (lit canon ∈ places)
          && negb (bool_decide (is_Some (m !! normKey (lit alias))))
       then <[normKey (lit alias) := lit canon]> m else m)
    common m.

(** *** The table *)

Record FareRecord := {
  from : jsstring;
  to : jsstring;
  priceType : jsstring;
  fare : Z;
  validFrom : Date;
  validTo : Date;
  source : jsstring
}.

(** The global [DB] object: the functions below take the table they read
    and [buildDBFromRows] returns the table it installs.  The [meta]
    counters and the load log only feed the status line and are left out. *)
Record DB := {
  faresRows : list FareRecord;
  routeMap : gmap jsstring (list FareRecord);
  places : list jsstring;
  aliasToCanon : gmap jsstring jsstring
}.

Definition resolvePlace (db : DB) (name : jsstring) : jsstring :=
  let k := normKey name in
  if isEmpty k then []
  else
    match aliasToCanon db !! k with
    | Some c => if isEmpty c then trim name else c
    | None => trim name
    end.

(** *** Core search *)

Definition inRange (d a b : Date) : bool :=
  let x := getTime d in
  (getTime a <=? x) && (x <=? getTime b).

(** The comparator of [pickBest]: narrowest valid window, then "ピーク",
    then lower fare. *)
Definition cmpBest (a b : FareRecord) : Z :=
  let lenA := getTime (validTo a) - getTime (validFrom a) in
  let lenB := getTime (validTo b) - getTime (validFrom b) in
  if negb (lenA =? lenB) then lenA - lenB
  else
    let peakA := if streq (priceType a) (lit "ピーク") then 0 else 1 in
    let peakB := if streq (priceType b) (lit "ピーク") then 0 else 1 in
    if negb (peakA =? peakB) then peakA - peakB
    else fare a - fare b.

(** The dates of a record are [Date] objects, so the guard
    [r.validFrom && r.validTo] of the filter holds for each. *)
Definition pickBest (rows : list FareRecord) (date : Date)
  : option FareRecord :=
  let cands :=
    List.filter (fun r => inRange date (validFrom r) (validTo r)) rows in
  match cands with
  | [] => None
  | _ => head (sort cmpBest cands)
  end.

Module MatchResult.
Record t := {
  hit : bool;
  row : option FareRecord;
  from : jsstring;
  to : jsstring;
  tried : list jsstring;
  hasAnyRoute : bool;
  usedReverse : option bool
}.
End MatchResult.

Definition arrow (a b : jsstring) : jsstring := a ++ lit "→" ++ b.

Definition findFare (db : DB) (date : Date) (from to : jsstring)
  : MatchResult.t :=
  let f := resolvePlace db from in
  let t := resolvePlace db to in
  let keyFT := normKey f ++ lit "||" ++ normKey t in
  let keyTF := normKey t ++ lit "||" ++ normKey f in
  let listFT := default [] (routeMap db !! keyFT) in
  let listTF := default [] (routeMap db !! keyTF) in
  let hasAnyRoute :=
    (0 <? List.length listFT)%nat || (0 <? List.length listTF)%nat in
  match pickBest listFT date with
  | Some best =>
    {| MatchResult.hit := true; MatchResult.row := Some best;
       MatchResult.from := f; MatchResult.to := t;
       MatchResult.tried := [arrow f t];
       MatchResult.hasAnyRoute := hasAnyRoute;
       MatchResult.usedReverse := Some false |}
  | None =>
    match pickBest listTF date with
    | Some best =>
      {| MatchResult.hit := true; MatchResult.row := Some best;
         MatchResult.from := f; MatchResult.to := t;
         MatchResult.tried := [arrow f t; arrow t f];
         MatchResult.hasAnyRoute := hasAnyRoute;
         MatchResult.usedReverse := Some true |}
    | None =>
      {| MatchResult.hit := false; MatchResult.row := None;
         MatchResult.from := f; MatchResult.to := t;
         MatchResult.tried := [arrow f t; arrow t f];
         MatchResult.hasAnyRoute := hasAnyRoute;
         MatchResult.usedReverse := None |}
    end
  end.


(** *** DB build *)

(** The outcome of a call that may throw. *)
Inductive Completion (A : Type) : Type :=
| Normal (value : A)
| Throw (message : jsstring).
Arguments Normal {A} value.
Arguments Throw {A} message.

Inductive Format := tsv | csv.

Definition parseFareRowsFromText (text hintedName : jsstring)
  : Completion (list JsObject * Format) :=
  (* decide CSV/TSV *)
  let name := toLowerCase hintedName in
  let isTSV :=
    endsWith name (lit ".tsv")
    || (negb (endsWith name (lit ".csv"))
        && (includes text (lit (String (ascii_of_nat 9) EmptyString))
            && negb (includes text (lit ",")))) in
  let rows := if isTSV then parseTSV text else parseCSV text in
  let shape := hasFareShape rows in
  if negb (ok shape) then
    Throw (lit "データ形式が不正です（出発地/到着地/運賃が見つかりません）。"
           ++ default [] (reason shape))
  else Normal (rows, if isTSV then tsv else csv).

Definition shiftYear (d : Date) (plus : Z) : Date :=
  setFullYear d (getFullYear d + plus).

(** Align year for cross-year boarding windows.  An absent argument stands
    for a value that is not a [Date]. *)
Definition alignToWholeRange (pFrom pTo wholeFrom wholeTo : option Date)
  : option (Date * Date) :=
  match pFrom, pTo with
  | Some from, Some to =>
    match wholeFrom, wholeTo with
    | Some wholeFrom, Some wholeTo =>
      let crosses := getFullYear wholeFrom <? getFullYear wholeTo in
      let '(from, to) :=
        if crosses then
          let startY := getFullYear wholeFrom in
          let startM := getMonth wholeFrom in
          (* Common: Jan-Mar written with startY; shift to +1 year *)
          let from :=
            if (getFullYear from =? startY) && (getMonth from <? startM)
            then shiftYear from 1 else from in
          let to :=
            if (getFullYear to =? startY) && (getMonth to <? startM)
            then shiftYear to 1 else to in
          if getTime to <? getTime wholeFrom
          then (shiftYear from 1, shiftYear to 1)
          else (from, to)
        else (from, to) in
      (* clamp *)
      let vf := ofTime (Z.max (getTime from) (getTime wholeFrom)) in
      let vt := ofTime (Z.min (getTime to) (getTime wholeTo)) in
      if getTime vt <? getTime vf then None else Some (vf, vt)
    | _, _ => Some (from, to)
    end
  | _, _ => None
  end.

Definition keyOf (from to ptype : jsstring) (fromD toD : Date) : jsstring :=
  from ++ lit "||" ++ to ++ lit "||" ++ ptype ++ lit "||"
  ++ ymd fromD ++ lit "||" ++ ymd toD.

(** The variables that the row loop of [buildDBFromRows] updates.
    [placesSet] keeps the insertion order of the [Set]. *)
Record BuildState := {
  fares : list FareRecord;
  placesSet : list jsstring;
  seen : gset jsstring
}.

(** [set.add(x)] on an insertion-ordered set *)
Definition setAdd (x : jsstring) (l : list jsstring) : list jsstring :=
  if bool_decide (x ∈ l) then l else l ++ [x].

(** The fare of a row: [parseInt] of the cell stripped to digits and minus
    signs, and 0 when that is not a finite number. *)
Definition fareOf (rr : gmap jsstring jsstring) : Z :=
  let fare :=
    parseInt10
      (removeAll (fun c => negb (isDigit c || (c =? 45)%N))
         (default (lit "0") (rr !! lit "fare"))) in
  (* Number.isFinite(fare) ? fare : 0 *)
  match fare with
  | Finite fareNum => fareNum
  | _ => 0
  end.

(** The periods of a row, before alignment. *)
Definition periodsOf (h : Host) (rr : gmap jsstring jsstring)
    (wholeFrom wholeTo : option Date) : list (Date * Date) :=
  (* 1) explicit from/to columns *)
  let periods :=
    match parseDateLoose h (prop rr "validFrom"),
          parseDateLoose h (prop rr "validTo") with
    | Some vf, Some vt => [(vf, vt)]
    | _, _ => []
    end in
  (* 2) string range column *)
  let periods :=
    match periods with
    | [] => parsePeriodRanges h (prop rr "validRange")
    | _ => periods
    end in
  (* 3) fallback: use whole boarding range if no specific periods *)
  match periods, wholeFrom, wholeTo with
  | [], Some wf, Some wt => [(wf, wt)]
  | _, _, _ => periods
  end.

(** The body of the loop over the periods of a row. *)
Definition addPeriod (fromRaw toRaw priceType : jsstring) (fareNum : Z)
    (wholeFrom wholeTo : option Date) (sourceName : jsstring)
    (st : BuildState) (p : Date * Date) : BuildState :=
  match alignToWholeRange (Some (fst p)) (Some (snd p)) wholeFrom wholeTo with
  | None => st
  | Some (alignedFrom, alignedTo) =>
    let uniq := keyOf fromRaw toRaw priceType alignedFrom alignedTo in
    if bool_decide (uniq ∈ seen st) then st
    else
      {| fares :=
           fares st
           ++ [{| from := fromRaw; to := toRaw; priceType := priceType;
                  fare := fareNum; validFrom := alignedFrom;
                  validTo := alignedTo; source := sourceName |}];
         placesSet := setAdd toRaw (setAdd fromRaw (placesSet st));
         seen := {[uniq]} ∪ seen st |}
  end.

(** The body of the loop over the fare rows. *)
Definition addRow (h : Host) (sourceName : jsstring) (st : BuildState)
    (r : JsObject) : BuildState :=
  let rr := normalizeRowKeys r in
  let fromRaw := trim (prop rr "from") in
  let toRaw := trim (prop rr "to") in
  if isEmpty fromRaw || isEmpty toRaw then st
  else
    let priceType :=
      let pt := trim (prop rr "priceType") in
      if isEmpty pt then lit "通常" else pt in
    let fareNum := fareOf rr in
    let wholeFrom := parseDateLoose h (prop rr "wholeFrom") in
    let wholeTo := parseDateLoose h (prop rr "wholeTo") in
    fold_left
      (addPeriod fromRaw toRaw priceType fareNum wholeFrom wholeTo sourceName)
      (periodsOf h rr wholeFrom wholeTo) st.

(** merge external aliases (optional) *)
Definition mergeAliases (aliasToCanon : gmap jsstring jsstring)
    (aliasRows : list JsObject) : gmap jsstring jsstring :=
  fold_left
    (fun m a =>
       let aa := normalizeRowKeys a in
       let alias := trim (prop aa "alias") in
       let canon := trim (prop aa "canonical") in
       if isEmpty alias || isEmpty canon then m
       else <[normKey alias := canon]> m)
    aliasRows aliasToCanon.

(** The comparator of the route index:
    [a.validFrom - b.validFrom || a.validTo - b.validTo || a.fare - b.fare]. *)
Definition cmpRoute (a b : FareRecord) : Z :=
  let d1 := getTime (validFrom a) - getTime (validFrom b) in
  if negb (d1 =? 0) then d1
  else
    let d2 := getTime (validTo a) - getTime (validTo b) in
    if negb (d2 =? 0) then d2 else fare a - fare b.

Definition routeKey (row : FareRecord) : jsstring :=
  normKey (from row) ++ lit "||" ++ normKey (to row).

(** route index *)
Definition routeIndex (fares : list FareRecord)
  : gmap jsstring (list FareRecord) :=
  let map :=
    fold_left
      (fun map row =>
         let k := routeKey row in
         <[k := default [] (map !! k) ++ [row]]> map)
      fares ∅ in
  sort cmpRoute <$> map.

Definition buildDBFromRows (h : Host) (fareRows : list JsObject)
    (sourceName sourceUrl : jsstring) (aliasRows : list JsObject) : DB :=
  let st :=
    fold_left (addRow h sourceName) fareRows
      {| fares := []; placesSet := []; seen := ∅ |} in
  let places := sort (localeCompareJa h) (placesSet st) in
  let aliasToCanon :=
    mergeAliases (buildAliasDefaultsFromPlaces places) aliasRows in
  {| faresRows := fares st;
     routeMap := routeIndex (fares st);
     places := places;
     aliasToCanon := aliasToCanon |}.

(** [loadDBFromLocalFile]: the text and the name of the file and the alias
    rows fetched beside it are arguments; a throw of
    [parseFareRowsFromText] leaves the function before the build. *)
Definition loadDBFromLocalFile (h : Host) (text fileName : jsstring)
    (aliasRows : list JsObject) : Completion DB :=
  match parseFareRowsFromText text fileName with
  | Throw e => Throw e
  | Normal (rows, _) =>
    Normal (buildDBFromRows h rows (lit "local:" ++ fileName) [] aliasRows)
  end.

End App.

(* ===================================================================== *)
(** ** The earlier release (part_000) *)
(* ===================================================================== *)

Module Legacy.

Definition normHeaderKey (k : jsstring) : jsstring := App.normHeaderKey k.

Definition has (nk : jsstring) (arr : list string) : bool :=
  existsb (fun x => includes nk (normHeaderKey (lit x))) arr.

Definition canonicalKey (k : jsstring) : jsstring :=
  let nk := normHeaderKey k in
  (* JP / EN variants -> canonical tokens *)
  if has nk ["出発地"; "発地"; "出発"; "from"; "origin"; "出発場所"; "発駅";
             "乗車地"]%string
  then lit "from"
  else if has nk ["到着地"; "着地"; "到着"; "to"; "destination"; "到着場所";
                  "着駅"; "降車地"]%string
  then lit "to"
  else if has nk ["運賃"; "金額"; "料金"; "fare"; "price"; "運賃額"]%string
  then lit "fare"
  else if has nk ["価格タイプ"; "価格ﾀｲﾌﾟ"; "シーズン"; "season"; "type";
                  "区分"]%string
  then lit "priceType"
  else if has nk ["搭乗期間開始"; "搭乗開始"; "boardfrom"; "validfrom";
                  "搭乗期間from"]%string
  then lit "wholeFrom"
  else if has nk ["搭乗期間終了"; "搭乗終了"; "boardto"; "validto";
                  "搭乗期間to"]%string
  then lit "wholeTo"
  else if has nk ["価格適用期間開始"; "適用開始"; "periodfrom"; "farefrom";
                  "価格適用開始"]%string
  then lit "validFrom"
  else if has nk ["価格適用期間終了"; "適用終了"; "periodto"; "fareto";
                  "価格適用終了"]%string
  then lit "validTo"
  else if has nk ["根拠"; "備考"; "rule"; "注記"; "参照"]%string
  then lit "rule"
  else if has nk ["価格適用期間"; "適用期間"]%string
  then lit "validRange"
  else if has nk ["alias"; "別名"; "入力"; "候補"; "表記ゆれ"; "表記揺れ";
                  "synonym"]%string
  then lit "alias"
  else if has nk ["canonical"; "正規"; "正規名"; "統一名"; "正式名称"]%string
  then lit "canonical"
  else nk.

(** [^(\d{4})\/(\d{1,2})$] *)
Definition matchYM (t : jsstring) : option (jsstring * jsstring) :=
  '(y, r) ← digits4 t;
  '(_, r) ← oneOf (lit "/") r;
  '(m, r) ← digits12 r;
  _ ← atEnd r;
  Some (y, m).

Definition parseDateLoose (h : App.Host) (s : jsstring) : option Date :=
  let t := trim s in
  if isEmpty t then None
  else
    (* YYYY-MM-DD *)
    match App.matchYMD "-" t with
    | Some (y, m, d) => Some (newDate (Number y) (Number m - 1) (Number d))
    | None =>
      (* YYYY/MM/DD *)
      match App.matchYMD "/" t with
      | Some (y, m, d) => Some (newDate (Number y) (Number m - 1) (Number d))
      | None =>
        (* YYYY/MM *)
        match matchYM t with
        | Some (y, m) => Some (newDate (Number y) (Number m - 1) 1)
        | None =>
          (* M/D or M-D (assume current year) *)
          match App.matchMD t with
          | Some (m, d) =>
            let y := App.currentYear h in
            Some (newDate y (Number m - 1) (Number d))
          | None => None
          end
        end
      end
    end.

End Legacy.

(* ===================================================================== *)
(** ** The properties of the specification *)
(* ===================================================================== *)

(** The definitions of this module are read from the words of the
    specification; the theorems below compare the code with them. *)
Module Spec.
Import App.

(** *** Fare resolver *)

(** The length of the validity window, in milliseconds. *)
Definition windowLength (r : FareRecord) : Z :=
  getTime (validTo r) - getTime (validFrom r).

(** The price tier is the one literally tagged "ピーク". *)
Definition isPeak (r : FareRecord) : Prop := priceType r = lit "ピーク".

(** The validity window contains the date, both ends included. *)
Definition covers (r : FareRecord) (d : Date) : Prop :=
  validFrom r <= d <= validTo r.

(** The three-level order: smallest window first, then the peak tier, then
    the lowest fare. *)
Definition atLeastAsGood (a b : FareRecord) : Prop :=
  windowLength a < windowLength b
  \/ (windowLength a = windowLength b
      /\ ((isPeak a /\ ~ isPeak b)
          \/ ((isPeak a <-> isPeak b) /\ fare a <= fare b))).

(** [ascending cmp l]: every element is at most every later one. *)
Fixpoint ascending {A} (cmp : A -> A -> Z) (l : list A) : Prop :=
  match l with
  | [] => True
  | x :: r => (forall y, y ∈ r -> cmp x y <= 0) /\ ascending cmp r
  end.

(** *** Calendar *)

(** Days from 1 March of the year 0 to 1 March of the year [y]. *)
Definition marchStart (y : Z) : Z :=
  146097 * (y / 400)
  + (365 * (y mod 400) + (y mod 400) / 4 - (y mod 400) / 100).

(** The civil date that is [doy] days after 1 March of the year [y]. *)
Definition fromMarch (y doy : Z) : Z * Z * Z :=
  let mp := (5 * doy + 2) / 153 in
  let d := doy - (153 * mp + 2) / 5 + 1 in
  let m := if mp <? 10 then mp + 3 else mp - 9 in
  (if m <=? 2 then y + 1 else y, m, d).

Definition isLeapYear (y : Z) : bool :=
  ((y mod 4 =? 0) && negb (y mod 100 =? 0)) || (y mod 400 =? 0).

(** The length of the month [m] (1..12) of the year [y]. *)
Definition daysInMonth (y m : Z) : Z :=
  if m =? 2 then (if isLeapYear y then 29 else 28)
  else if (m =? 4) || (m =? 6) || (m =? 9) || (m =? 11) then 30
  else 31.

(** *** Period resolver *)

(** An endpoint written with the start year of the boarding window and a
    month before the window's start month. *)
Definition beforeStart (wholeFrom d : Date) : bool :=
  (getFullYear d =? getFullYear wholeFrom)
  && (getMonth d <? getMonth wholeFrom).

(** The alignment for a window that crosses a year boundary: shift each
    early endpoint by a year, shift both when the end is still before the
    window, clamp to the window, discard an empty range. *)
Definition aligned (pFrom pTo wholeFrom wholeTo : Date)
  : option (Date * Date) :=
  let from1 := if beforeStart wholeFrom pFrom then shiftYear pFrom 1 else pFrom in
  let to1 := if beforeStart wholeFrom pTo then shiftYear pTo 1 else pTo in
  let from2 := if to1 <? wholeFrom then shiftYear from1 1 else from1 in
  let to2 := if to1 <? wholeFrom then shiftYear to1 1 else to1 in
  let start := Z.max from2 wholeFrom in
  let end_ := Z.min to2 wholeTo in
  if end_ <? start then None else Some (start, end_).

(** The clamp alone, for a window within one calendar year. *)
Definition clamped (pFrom pTo wholeFrom wholeTo : Date)
  : option (Date * Date) :=
  let start := Z.max pFrom wholeFrom in
  let end_ := Z.min pTo wholeTo in
  if end_ <? start then None else Some (start, end_).

(** *** Date forms *)

(** A run of [lo] to [hi] decimal digits. *)
Definition digitRun (lo hi : nat) (s : jsstring) : Prop :=
  Forall (fun c => isDigit c = true) s
  /\ (lo <= List.length s <= hi)%nat.

(** YYYY-MM-DD (separator 45) and YYYY/MM/DD (separator 47), with the date
    the text denotes. *)
Inductive ymdForm (sep : N) (t : jsstring) : Date -> Prop :=
| ymd_form y m d :
    digitRun 4 4 y -> digitRun 1 2 m -> digitRun 1 2 d ->
    t = y ++ sep :: m ++ sep :: d ->
    ymdForm sep t (newDate (Number y) (Number m - 1) (Number d)).

(** YYYY/MM: the first day of the month. *)
Inductive ymForm (t : jsstring) : Date -> Prop :=
| ym_form y m :
    digitRun 4 4 y -> digitRun 1 2 m -> t = y ++ 47%N :: m ->
    ymForm t (newDate (Number y) (Number m - 1) 1).

(** M/D and M-D, in the given year. *)
Inductive mdForm (year : Z) (t : jsstring) : Date -> Prop :=
| md_form m d sep :
    digitRun 1 2 m -> digitRun 1 2 d -> sep = 47%N \/ sep = 45%N ->
    t = m ++ sep :: d ->
    mdForm year t (newDate year (Number m - 1) (Number d)).

(** The four forms of the specification, and the three without YYYY/MM. *)
Definition fourForms (h : Host) (t : jsstring) (dt : Date) : Prop :=
  ymdForm 45 t dt \/ ymdForm 47 t dt \/ ymForm t dt
  \/ mdForm (currentYear h) t dt.

Definition threeForms (h : Host) (t : jsstring) (dt : Date) : Prop :=
  ymdForm 45 t dt \/ ymdForm 47 t dt \/ mdForm (currentYear h) t dt.

(** *** Fare table builder *)

(** [producedBy h src r x]: the record [x] is one that the row [r] yields:
    its places, tier and fare are those of the row and its dates are an
    aligned period of the row. *)
Definition producedBy (h : Host) (sourceName : jsstring) (r : JsObject)
    (x : FareRecord) : Prop :=
  let rr := normalizeRowKeys r in
  let wholeFrom := parseDateLoose h (prop rr "wholeFrom") in
  let wholeTo := parseDateLoose h (prop rr "wholeTo") in
  from x = trim (prop rr "from") /\ from x <> []
  /\ to x = trim (prop rr "to") /\ to x <> []
  /\ fare x = fareOf rr
  /\ source x = sourceName
  /\ exists p, p ∈ periodsOf h rr wholeFrom wholeTo
       /\ alignToWholeRange (Some (fst p)) (Some (snd p)) wholeFrom wholeTo
          = Some (validFrom x, validTo x).

(** The text that [parseInt] receives: the digits and minus signs of the
    fare cell, ["0"] standing for a missing cell. *)
Definition keptText (rr : gmap jsstring jsstring) : jsstring :=
  removeAll (fun c => negb (isDigit c || (c =? 45)%N))
    (default (lit "0") (rr !! lit "fare")).

(** The text after an optional minus sign. *)
Definition afterSign (t : jsstring) : jsstring :=
  match t with
  | 45%N :: r => r
  | _ => t
  end.

(** [r] is listed under its own route key. *)
Definition indexed (map : gmap jsstring (list FareRecord)) (r : FareRecord)
  : Prop :=
  exists l, map !! routeKey r = Some l /\ r ∈ l.

(** The first row shows an origin, a destination and a fare column. *)
Definition firstRowShaped (rows : list JsObject) : Prop :=
  exists r0 rest, rows = r0 :: rest
    /\ prop (normalizeRowKeys r0) "from" <> []
    /\ prop (normalizeRowKeys r0) "to" <> []
    /\ is_Some (normalizeRowKeys r0 !! lit "fare").

(** The first row shows an origin and a destination in its cells and has a
    fare column: a column whose label reads as an origin has a non-empty
    cell, so has one whose label reads as a destination, and some label
    reads as a fare. *)
Definition firstRowCells (rows : list JsObject) : Prop :=
  exists r0 rest, rows = r0 :: rest
    /\ (exists e, e ∈ entries r0 /\ canonicalKey (fst e) = lit "from"
                  /\ trim (snd e) <> [])
    /\ (exists e, e ∈ entries r0 /\ canonicalKey (fst e) = lit "to"
                  /\ trim (snd e) <> [])
    /\ (exists e, e ∈ entries r0 /\ canonicalKey (fst e) = lit "fare").

(** *** Alias resolver *)

(** A step on the alias map that leaves the entry [v] of the key [k]. *)
Definition keeps (f : gmap jsstring jsstring -> gmap jsstring jsstring)
    (k v : jsstring) : Prop :=
  forall m, m !! k = Some v -> f m !! k = Some v.

(** An alias row that takes effect: both cells are non-empty. *)
Definition effective (a : JsObject) (alias canon : jsstring) : Prop :=
  alias = trim (prop (normalizeRowKeys a) "alias")
  /\ canon = trim (prop (normalizeRowKeys a) "canonical")
  /\ alias <> [] /\ canon <> [].

End Spec.

(* ===================================================================== *)
(** ** Regular expressions with backtracking *)
(* ===================================================================== *)

(** The patterns of [parseItineraryLines] have a lazy quantifier and an
    alternation that a later part of the pattern can force back, so they
    are run by a matcher that follows the backtracking order of the
    language: the alternatives of a choice in order, a greedy repetition
    longest first, a lazy one shortest first, each with the rest of the
    pattern as its continuation.  A pattern is matched at the start of the
    input (both patterns begin with [^]). *)
Module Regex.

Inductive re : Type :=
| Lit (s : jsstring)                  (* a literal text *)
| Cls (p : N -> bool)                 (* one unit of a class *)
| Rep (p : N -> bool) (min : nat) (max : option nat) (greedy : bool)
                                      (* a class repeated: {min,max}, * and +,
                                         lazy when [greedy] is false *)
| Seq (a b : re)
| Alt (a b : re)
| Cap (i : nat) (a : re)              (* the capturing group number [i] *)
| End.                                (* $ *)


(** The repetition of a class on the input [s], followed by [k]. *)
Fixpoint rep {A} (p : N -> bool) (greedy : bool) (min : nat)
    (max : option nat) (s : jsstring) (k : jsstring -> option A)
  : option A :=
  let stop := match min with O => k s | S _ => None end in
  let more :=
    match s with
    | c :: r =>
      if p c && match max with Some O => false | _ => true end
      then rep p greedy (pred min) (pred <$> max) r k
      else None
    | [] => None
    end in
  if greedy then match more with Some x => Some x | None => stop end
  else match stop with Some x => Some x | None => more end.

(** [run r s caps k]: the pattern [r] on the input [s] with the captures so
    far, followed by [k]. *)
Fixpoint run (r : re) (s : jsstring) (caps : gmap nat jsstring)
    (k : jsstring -> gmap nat jsstring -> option (gmap nat jsstring))
  : option (gmap nat jsstring) :=
  match r with
  | Lit l => if startsWith s l then k (drop (List.length l) s) caps else None
  | Cls p =>
    match s with
    | c :: s' => if p c then k s' caps else None
    | [] => None
    end
  | Rep p min max greedy => rep p greedy min max s (fun s' => k s' caps)
  | Seq a b => run a s caps (fun s' caps' => run b s' caps' k)
  | Alt a b =>
    match run a s caps k with
    | Some x => Some x
    | None => run b s caps k
    end
  | Cap i a =>
    run a s caps
      (fun s' caps' =>
         k s' (<[i := take (List.length s - List.length s') s]> caps'))
  | End => match s with [] => k s caps | _ :: _ => None end
  end.

(** [s.match(/^r/)]: the captures of the first match found, if any. *)
Definition exec (r : re) (s : jsstring) : option (gmap nat jsstring) :=
  run r s ∅ (fun _ caps => Some caps).

(** [m[i]] *)
Definition group (m : gmap nat jsstring) (i : nat) : jsstring :=
  default [] (m !! i).

End Regex.

(* ===================================================================== *)
(** ** app.js: the itinerary and the result table *)
(* ===================================================================== *)

(** The parts of the event handlers that compute the new list of legs and
    the result rows; what they write into the page is left out. *)
Module Ui.
Import App.

(** A leg of the itinerary.  The legs made by [parseItineraryLines] have no
    [tag]. *)
Record Leg := {
  date : Date;
  from : jsstring;
  to : jsstring;
  raw : jsstring;
  tag : option jsstring
}.

(** [`${ymd(d)} ${a}→${b}${note}`] *)
Definition legText (d : Date) (a b : jsstring) (note : string) : jsstring :=
  ymd d ++ lit " " ++ a ++ lit "→" ++ b ++ lit note.

(** [.]: any unit but a line terminator. *)
Definition dot (c : N) : bool := negb (inClass [10; 13; 8232; 8233]%N c).

(** [/^([0-9]{4}[\/-][0-9]{1,2}[\/-][0-9]{1,2}|[0-9]{1,2}[\/-][0-9]{1,2})\s*(.+)$/] *)
Definition lineRe : Regex.re :=
  let digits min max := Regex.Rep isDigit min (Some max) true in
  let sep := Regex.Cls (inClass (lit "/-")) in
  Regex.Seq
    (Regex.Cap 1
       (Regex.Alt
          (Regex.Seq (digits 4 4)
             (Regex.Seq sep
                (Regex.Seq (digits 1 2) (Regex.Seq sep (digits 1 2)))))%nat
          (Regex.Seq (digits 1 2) (Regex.Seq sep (digits 1 2)))%nat))
    (Regex.Seq (Regex.Rep isWhiteSpace 0 None true)
       (Regex.Seq (Regex.Cap 2 (Regex.Rep dot 1 None true)) Regex.End)).

(** [/^(.+?)\s*(?:->|〜|~|-)\s*(.+)$/] *)
Definition routeRe : Regex.re :=
  Regex.Seq (Regex.Cap 1 (Regex.Rep dot 1 None false))
    (Regex.Seq (Regex.Rep isWhiteSpace 0 None true)
       (Regex.Seq
          (Regex.Alt (Regex.Lit (lit "->"))
             (Regex.Alt (Regex.Lit (lit "〜"))
                (Regex.Alt (Regex.Lit (lit "~")) (Regex.Lit (lit "-")))))
          (Regex.Seq (Regex.Rep isWhiteSpace 0 None true)
             (Regex.Seq (Regex.Cap 2 (Regex.Rep dot 1 None true))
                Regex.End)))).

(** [text.split(/\r?\n/)] *)
Fixpoint splitLines (s : jsstring) : list jsstring :=
  match s with
  | [] => [[]]
  | c :: r =>
    if (c =? 10)%N then [] :: splitLines r
    else
      let piece :=
        match splitLines r with
        | [] => [[c]]
        | w :: ws => (c :: w) :: ws
        end in
      if (c =? 13)%N then
        match r with
        | d :: r' => if (d =? 10)%N then [] :: splitLines r' else piece
        | [] => piece
        end
      else piece
  end.

(** [s.replace(/c/g, by)] for one unit [c]. *)
Definition replaceUnit (c : N) (by_ : jsstring) (s : jsstring) : jsstring :=
  flat_map (fun u => if (u =? c)%N then by_ else [u]) s.

(** [{ legs, errors }] *)
Record Itinerary := { legs : list Leg; errors : list jsstring }.

(** The body of the loop of [parseItineraryLines] for one line: a leg or an
    error message. *)
Definition parseLine (h : Host) (line : jsstring) : Leg + jsstring :=
  match Regex.exec lineRe line with
  | None => inr (lit "日付が読み取れません: " ++ line)
  | Some m =>
    match parseDateLoose h (Regex.group m 1) with
    | None => inr (lit "日付形式が不正: " ++ line)
    | Some d =>
      let rest := trim (Regex.group m 2) in
      (* unify arrows *)
      let s :=
        replaceUnit 65374 (lit "〜")
          (replaceUnit 8658 (lit "->") (replaceUnit 8594 (lit "->") rest)) in
      match Regex.exec routeRe s with
      | None => inr (lit "出発地/到着地が読み取れません: " ++ line)
      | Some m2 =>
        let from := trim (Regex.group m2 1) in
        let to := trim (Regex.group m2 2) in
        if isEmpty from || isEmpty to
        then inr (lit "出発地/到着地が空です: " ++ line)
        else inl {| date := d; from := from; to := to; raw := line;
                    tag := None |}
      end
    end
  end.

Definition parseItineraryLines (h : Host) (text : jsstring) : Itinerary :=
  let lines :=
    List.filter (fun l => negb (isEmpty l)) (List.map trim (splitLines text)) in
  fold_left
    (fun acc line =>
       match parseLine h line with
       | inl leg => {| legs := legs acc ++ [leg]; errors := errors acc |}
       | inr e => {| legs := legs acc; errors := errors acc ++ [e] |}
       end)
    lines {| legs := []; errors := [] |}.

(** [{ date: d, from: a, to: b, raw: `...`, tag }] *)
Definition mkLeg (d : Date) (a b : jsstring) (note tg : string) : Leg :=
  {| date := d; from := a; to := b; raw := legText d a b note;
     tag := Some (lit tg) |}.

(** The click handler of [#btnAddLeg]: the new value of [window.__legs],
    from the values of the date field and of the four selects. *)
Definition addLeg (h : Host) (legs : list Leg)
    (legDate from to via1 via2 : jsstring) : list Leg :=
  let d := if isEmpty legDate then None else parseDateLoose h legDate in
  match d with
  | None => legs
  | Some d =>
    if isEmpty from || isEmpty to then legs
    else
      let legsToAdd :=
        (* If via specified, add both: direct candidate + segmented via legs *)
        if negb (isEmpty via1) || negb (isEmpty via2) then
          mkLeg d from to "（直行候補）" "direct"
          :: (if negb (isEmpty via1) && negb (isEmpty via2) then
                [mkLeg d from via1 "（経由①）" "via";
                 mkLeg d via1 via2 "（経由②）" "via";
                 mkLeg d via2 to "（経由③）" "via"]
              else if negb (isEmpty via1) then
                [mkLeg d from via1 "（経由①）" "via";
                 mkLeg d via1 to "（経由②）" "via"]
              else if negb (isEmpty via2) then
                [mkLeg d from via2 "（経由①）" "via";
                 mkLeg d via2 to "（経由②）" "via"]
              else [])
        else [mkLeg d from to EmptyString EmptyString] in
      legs ++ legsToAdd
  end.

(** The buttons of a leg in the list. *)
Inductive Act := up | down | del.

(** The click handler of a button of the leg at [idx]: the new value of
    [window.__legs].  The buttons are made anew after every change, one set
    per leg, so [idx] is below the length of the list; for [up] at an index
    beyond the list the array would get a hole, which the list cannot hold:
    the result is [None] there. *)
Definition legAct (act : Act) (idx : nat) (legs : list Leg)
  : option (list Leg) :=
  match act with
  | del => Some (take idx legs ++ drop (S idx) legs)
  | up =>
    if (0 <? idx)%nat then
      match legs !! (idx - 1)%nat, legs !! idx with
      | Some t, Some x => Some (<[idx := t]> (<[(idx - 1)%nat := x]> legs))
      | _, _ => None
      end
    else Some legs
  | down =>
    if (idx <? List.length legs - 1)%nat then
      match legs !! (idx + 1)%nat, legs !! idx with
      | Some t, Some x => Some (<[idx := t]> (<[(idx + 1)%nat := x]> legs))
      | _, _ => None
      end
    else Some legs
  end.

(** A row of the result table: [{ ...res, leg }]. *)
Record SearchRow := { res : MatchResult.t; leg : Leg }.

(** [runSearch]: the result rows and the misses handed to
    [renderResults]. *)
Definition runSearch (db : DB) (legs : list Leg)
  : list SearchRow * list SearchRow :=
  if Nat.eqb (List.length (faresRows db)) 0 then ([], [])
  else if Nat.eqb (List.length legs) 0 then ([], [])
  else
    fold_left
      (fun '(results, misses) leg =>
         let res := findFare db (date leg) (from leg) (to leg) in
         let row := {| res := res; leg := leg |} in
         (results ++ [row],
          if negb (MatchResult.hit res) then misses ++ [row] else misses))
      legs ([], []).

(** [Number.isFinite(r.row?.fare)]: the fare of a record is a number, and a
    result without record has none. *)
Definition finiteFare (r : SearchRow) : bool :=
  match MatchResult.row (res r) with
  | Some _ => true
  | None => false
  end.

(** The counters that [renderResults] keeps for the summary:
    [{ totalHits, totalMisses }]. *)
Definition resultMeta (rows : list SearchRow) : nat * nat :=
  let totalHits :=
    List.length
      (List.filter (fun r => MatchResult.hit (res r) && finiteFare r) rows) in
  let totalMisses := (List.length rows - totalHits)%nat in
  (totalHits, totalMisses).

End Ui.

(* ===================================================================== *)
(** ** Notions used to state the behaviour of the code *)
(* ===================================================================== *)

Module Behaviour.
Import App.

(** The text of one range, as the builder writes it: [ymd(a)〜ymd(b)]. *)
Definition rangeText (r : Date * Date) : jsstring :=
  ymd (fst r) ++ lit "〜" ++ ymd (snd r).

(** The text of several ranges, separated by [" / "]. *)
Fixpoint periodText (ranges : list (Date * Date)) : jsstring :=
  match ranges with
  | [] => []
  | [r] => rangeText r
  | r :: rest => rangeText r ++ lit " / " ++ periodText rest
  end.

(** Both dates of a range have a year of four digits. *)
Definition fourDigitYears (r : Date * Date) : Prop :=
  1000 <= getFullYear (fst r) <= 9999 /\ 1000 <= getFullYear (snd r) <= 9999.

(** The key under which the builder remembers a record it has added. *)
Definition uniqKey (x : FareRecord) : jsstring :=
  keyOf (from x) (to x) (priceType x) (validFrom x) (validTo x).

(** The records that a row offers to the table, in the order of its
    periods: one for each period that the alignment keeps. *)
Definition candidates (h : Host) (sourceName : jsstring) (r : JsObject)
  : list FareRecord :=
  let rr := normalizeRowKeys r in
  let fromRaw := trim (prop rr "from") in
  let toRaw := trim (prop rr "to") in
  if isEmpty fromRaw || isEmpty toRaw then []
  else
    let priceType :=
      let pt := trim (prop rr "priceType") in
      if isEmpty pt then lit "通常" else pt in
    let wholeFrom := parseDateLoose h (prop rr "wholeFrom") in
    let wholeTo := parseDateLoose h (prop rr "wholeTo") in
    omap
      (fun p =>
         match
           alignToWholeRange (Some (fst p)) (Some (snd p)) wholeFrom wholeTo
         with
         | Some (alignedFrom, alignedTo) =>
           Some {| from := fromRaw; to := toRaw; priceType := priceType;
                   fare := fareOf rr; validFrom := alignedFrom;
                   validTo := alignedTo; source := sourceName |}
         | None => None
         end)
      (periodsOf h rr wholeFrom wholeTo).

(** The row offers a record. *)
Definition offers (h : Host) (sourceName : jsstring) (r : JsObject) : bool :=
  match candidates h sourceName r with
  | [] => false
  | _ :: _ => true
  end.

(** The step of the table for one offered record: it is added unless its
    key is remembered. *)
Definition offer (st : BuildState) (x : FareRecord) : BuildState :=
  if bool_decide (uniqKey x ∈ seen st) then st
  else
    {| fares := fares st ++ [x];
       placesSet := setAdd (to x) (setAdd (from x) (placesSet st));
       seen := {[uniqKey x]} ∪ seen st |}.

(** A list of records without those whose key is among [keys] or is the
    key of an earlier record of the list. *)
Fixpoint firstOfKey (keys : list jsstring) (l : list FareRecord)
  : list FareRecord :=
  match l with
  | [] => []
  | x :: rest =>
    if bool_decide (uniqKey x ∈ keys) then firstOfKey keys rest
    else x :: firstOfKey (uniqKey x :: keys) rest
  end.

(** The records of a route key, in the order of the table. *)
Definition recordsOf (k : jsstring) (fares : list FareRecord)
  : list FareRecord :=
  List.filter (fun x => bool_decide (routeKey x = k)) fares.

(** The order of a route's list: by start of validity, then by end of
    validity, then by fare. *)
Definition earlier (a b : FareRecord) : Prop :=
  validFrom a < validFrom b
  \/ (validFrom a = validFrom b
      /\ (validTo a < validTo b
          \/ (validTo a = validTo b /\ fare a <= fare b))).

(** [ordered R l]: every element is related to every later one. *)
Fixpoint ordered {A} (R : A -> A -> Prop) (l : list A) : Prop :=
  match l with
  | [] => True
  | x :: r => (forall y, y ∈ r -> R x y) /\ ordered R r
  end.

(** The route key that [findFare] looks up for a query. *)
Definition queryKey (db : DB) (a b : jsstring) : jsstring :=
  normKey (resolvePlace db a) ++ lit "||" ++ normKey (resolvePlace db b).

(** The state of the row loop: the remembered keys are those of the records,
    no two records have one key, and the places are the names of the
    records, each once. *)
Record tableInv (st : BuildState) : Prop := {
  inv_seen : forall x, x ∈ fares st -> uniqKey x ∈ seen st;
  inv_nodup : NoDup (List.map uniqKey (fares st));
  inv_places :
    forall p, p ∈ placesSet st
              <-> exists x, x ∈ fares st /\ (from x = p \/ to x = p);
  inv_places_nodup : NoDup (placesSet st)
}.

(** The entry of a key in the grouping map, for the records seen so far. *)
Definition grouped (map : gmap jsstring (list FareRecord))
    (l : list FareRecord) : Prop :=
  forall k, map !! k
            = match recordsOf k l with [] => None | g => Some g end.

(** [allFrom P lo n]: the test [P] holds for the [n] code units from [lo]
    on. *)
Fixpoint allFrom (P : N -> bool) (lo : N) (n : nat) : bool :=
  match n with
  | O => true
  | S k => P lo && allFrom P (N.succ lo) k
  end.

(** What [normKey] makes of one code unit: nothing for white space, a
    middle dot or a bracket; otherwise the unit in lower case, a dash
    variant counting as the hyphen. *)
Definition unitKey (c : N) : jsstring :=
  if isWhiteSpace c then []
  else
    let u := lowerUnit (if inClass (lit "‐‑–—−") c then 45%N else c) in
    if inClass (lit "・･") u then []
    else if inClass brackets u then []
    else [u].

(** The trimmed cells of a row whose labels have the canonical key [ck], in
    the order of [Object.entries]. *)
Definition cellsOf (ck : jsstring) (es : list (jsstring * jsstring))
  : list jsstring :=
  List.map (fun e => trim (snd e))
    (List.filter (fun e => bool_decide (canonicalKey (fst e) = ck)) es).

(** The first non-empty text of a list: the empty text when there is none,
    nothing when the list is empty. *)
Definition firstNonEmpty (vals : list jsstring) : option jsstring :=
  match vals with
  | [] => None
  | _ => Some (default [] (head (List.filter (fun v => negb (isEmpty v)) vals)))
  end.

(** A cell in double quotes, each quote of the cell doubled. *)
Definition quoteCell (cell : jsstring) : jsstring :=
  34%N :: flat_map (fun u => if (u =? 34)%N then [34; 34]%N else [u]) cell
  ++ [34%N].

(** A line of quoted cells, separated by commas and ended by a line feed. *)
Fixpoint csvLine (cells : list jsstring) : jsstring :=
  match cells with
  | [] => [10%N]
  | [c] => quoteCell c ++ [10%N]
  | c :: rest => quoteCell c ++ 44%N :: csvLine rest
  end.

Definition csvText (rows : list (list jsstring)) : jsstring :=
  flat_map csvLine rows.

(** Texts joined by a one-unit separator. *)
Fixpoint joinWith (sep : N) (l : list jsstring) : jsstring :=
  match l with
  | [] => []
  | [x] => x
  | x :: r => x ++ sep :: joinWith sep r
  end.

(** A sheet with tabs between the cells and line feeds between the lines. *)
Definition tsvText (lines : list (list jsstring)) : jsstring :=
  joinWith 10 (List.map (joinWith 9) lines).

(** A cell that a tab-separated sheet can hold: no tab, no line feed, no
    carriage return. *)
Definition plainCell (c : jsstring) : Prop :=
  (9%N ∉ c) /\ (10%N ∉ c) /\ (13%N ∉ c).

(** A place name that a line of the itinerary can carry: not empty, without
    white space at either end and without line terminator. *)
Definition plainName (s : jsstring) : Prop :=
  s <> []
  /\ (forall c, head s = Some c -> isWhiteSpace c = false)
  /\ (forall c, last s = Some c -> isWhiteSpace c = false)
  /\ Forall (fun c => Ui.dot c = true) s.

(** The units that [parseItineraryLines] rewrites before it looks for the
    arrow (→, ⇒ and ～), and all the units that it can read as an arrow or
    as the start of one (with the hyphen, the tilde and 〜). *)
Definition rewrittenUnits : jsstring := [8594; 8658; 65374]%N.
Definition arrowUnits : jsstring := [45; 126; 12316; 8594; 8658; 65374]%N.

(** A chain of legs from [a] to [b]: each leg starts where the one before
    it ends. *)
Fixpoint chain (a b : jsstring) (legs : list Ui.Leg) : Prop :=
  match legs with
  | [] => a = b
  | l :: rest => Ui.from l = a /\ chain (Ui.to l) b rest
  end.

End Behaviour.

(* ===================================================================== *)
(** ** A host and sample data *)
(* ===================================================================== *)

(** Comparison by code units, as [<] and [>] order strings. *)
Fixpoint compareUnits (a b : jsstring) : Z :=
  match a, b with
  | [], [] => 0
  | [], _ :: _ => -1
  | _ :: _, [] => 1
  | x :: a', y :: b' =>
    if (x =? y)%N then compareUnits a' b'
    else if (x <? y)%N then -1 else 1
  end.

(** A host in the year 2026 whose collation orders strings by code units.
    The order of the places decides an alias entry only where two places
    have one place key, so the tables built below from places with distinct
    keys hold the same records and aliases under any collation. *)
Definition sampleHost : App.Host :=
  {| App.currentYear := 2026; App.localeCompareJa := compareUnits |}.

Definition sampleSource : jsstring := lit "transport.csv".

Definition sampleRecord (origin ptype : string) (amount : Z) (vf vt : Date)
  : App.FareRecord :=
  {| App.from := lit origin; App.to := lit "沖縄";
     App.priceType := lit ptype; App.fare := amount;
     App.validFrom := vf; App.validTo := vt;
     App.source := sampleSource |}.

(** Three fares of one route: a year-round standard fare and, for June, a
    standard and a peak fare. *)
Definition yearRound : App.FareRecord :=
  sampleRecord "東京" "通常" 10000 (newDate 2025 0 1) (newDate 2025 11 31).
Definition juneStandard : App.FareRecord :=
  sampleRecord "東京" "通常" 12000 (newDate 2025 5 1) (newDate 2025 5 30).
Definition junePeak : App.FareRecord :=
  sampleRecord "東京" "ピーク" 15000 (newDate 2025 5 1) (newDate 2025 5 30).

(** A row object from its header labels and cells. *)
Definition cells (kvs : list (string * string)) : JsObject :=
  List.map (fun kv => (lit (fst kv), lit (snd kv))) kvs.

(** Tokyo to Okinawa for June 2025, with explicit validity columns. *)
Definition tokyoRow : JsObject :=
  cells [("出発地", "東京"); ("到着地", "沖縄"); ("運賃", "12000");
         ("適用開始", "2025-06-01"); ("適用終了", "2025-06-30")]%string.

(** The same row with the two validity dates exchanged, and no boarding
    window. *)
Definition invertedRow : JsObject :=
  cells [("出発地", "東京"); ("到着地", "沖縄"); ("運賃", "12000");
         ("適用開始", "2025-06-30"); ("適用終了", "2025-06-01")]%string.


(** A route whose origin is written "羽田" in the fare sheet. *)
Definition hanedaRow : JsObject :=
  cells [("出発地", "羽田"); ("到着地", "沖縄"); ("運賃", "12000");
         ("価格適用期間", "2025-06-01〜2025-06-30")]%string.

(** A place written with a middle dot only, and one place written in two
    letter cases. *)
Definition dotRow : JsObject :=
  cells [("出発地", "・"); ("到着地", "沖縄"); ("運賃", "12000");
         ("価格適用期間", "2025-06-01〜2025-06-30")]%string.
Definition upperRow : JsObject :=
  cells [("出発地", "Tokyo"); ("到着地", "沖縄"); ("運賃", "12000");
         ("価格適用期間", "2025-06-01〜2025-06-30")]%string.
Definition lowerRow : JsObject :=
  cells [("出発地", "tokyo"); ("到着地", "沖縄"); ("運賃", "13000");
         ("価格適用期間", "2025-07-01〜2025-07-31")]%string.

(** Alias rows: "羽田" means "東京"; "東京" means "大阪". *)
Definition hanedaAlias : JsObject :=
  cells [("alias", "羽田"); ("canonical", "東京")]%string.
Definition tokyoAlias : JsObject :=
  cells [("alias", "東京"); ("canonical", "大阪")]%string.

(** A sheet with an origin, a destination, a fare and a period column
    whose first row has no origin; the same sheet with its two rows
    exchanged; and the header alone. *)
Definition sheetLabels : list jsstring :=
  [lit "出発地"; lit "到着地"; lit "運賃"; lit "価格適用期間"].
Definition noOriginLine : list jsstring :=
  [[]; lit "沖縄"; lit "100"; lit "2025-06-01〜2025-06-30"].
Definition tokyoLine : list jsstring :=
  [lit "東京"; lit "沖縄"; lit "200"; lit "2025-06-01〜2025-06-30"].
Definition sheetOf (lines : list (list jsstring)) : jsstring :=
  Behaviour.joinWith 10 (List.map (Behaviour.joinWith 44) lines).
Definition noOriginFirst : jsstring :=
  sheetOf [sheetLabels; noOriginLine; tokyoLine].
Definition noOriginSecond : jsstring :=
  sheetOf [sheetLabels; tokyoLine; noOriginLine].
Definition labelsOnly : jsstring := sheetOf [sheetLabels].

(** The record of [tokyoRow] and that of [hanedaRow]. *)
Definition tokyoJune : App.FareRecord :=
  sampleRecord "東京" "通常" 12000 (newDate 2025 5 1) (newDate 2025 5 30).

(** The route, tier and dates of [tokyoRow] with another fare, and the
    record that such a row offers. *)
Definition tokyoDiscountRow : JsObject :=
  cells [("出発地", "東京"); ("到着地", "沖縄"); ("運賃", "9000");
         ("適用開始", "2025-06-01"); ("適用終了", "2025-06-30")]%string.
Definition tokyoDiscount : App.FareRecord :=
  sampleRecord "東京" "通常" 9000 (newDate 2025 5 1) (newDate 2025 5 30).
Definition hanedaJune : App.FareRecord :=
  sampleRecord "羽田" "通常" 12000 (newDate 2025 5 1) (newDate 2025 5 30).

(** A row with a boarding window over the turn of the year and a period
    written with the start year of the window, and its record. *)
Definition windowRow : JsObject :=
  cells [("出発地", "東京"); ("到着地", "沖縄"); ("運賃", "12000");
         ("搭乗期間開始", "2025-10-26"); ("搭乗期間終了", "2026-03-28");
         ("価格適用期間", "2025-01-05〜2025-01-20")]%string.
Definition windowRecord : App.FareRecord :=
  sampleRecord "東京" "通常" 12000 (newDate 2026 0 5) (newDate 2026 0 20).

(** The two periods of the comment in [parsePeriodRanges]. *)
Definition twoPeriods : list (Date * Date) :=
  [(newDate 2025 5 1, newDate 2025 5 30);
   (newDate 2025 8 1, newDate 2025 9 25)].

(** A header and a line of cells, one of them with commas and a quote. *)
Definition sheetHeader : list jsstring :=
  [lit "出発地"; lit "到着地"; lit "運賃"].
Definition sheetLine : list jsstring :=
  [lit "東京"; lit "沖縄, 那覇"; lit "12,000"].
Definition plainLine : list jsstring :=
  [lit "東京"; lit " 沖縄 "; lit "12000"].

(** Two legs of an itinerary. *)
Definition outbound : Ui.Leg :=
  Ui.mkLeg (newDate 2025 5 15) (lit "東京") (lit "沖縄") EmptyString EmptyString.
Definition inbound : Ui.Leg :=
  Ui.mkLeg (newDate 2025 5 20) (lit "沖縄") (lit "東京") EmptyString EmptyString.

(* ===================================================================== *)
(** ** Checks of the embedding on concrete inputs *)
(* ===================================================================== *)

Example lit_from : lit "from" = [102; 114; 111; 109]%N.
Proof. reflexivity. Qed.

Example lit_kanji : lit "出発地" = [20986; 30330; 22320]%N.
Proof. reflexivity. Qed.

Example brackets_units :
  App.brackets = [40; 41; 65288; 65289; 91; 93; 12304; 12305]%N.
Proof. reflexivity. Qed.

Example dash_units :
  lit "‐‑–—―ー" = [8208; 8209; 8211; 8212; 8213; 12540]%N
  /\ lit "‐‑–—−" = [8208; 8209; 8211; 8212; 8722]%N
  /\ lit "〜～~-–—―" = [12316; 65374; 126; 45; 8211; 8212; 8213]%N.
Proof. repeat split; reflexivity. Qed.

Example canonicalKey_labels :
  App.canonicalKey (lit "適用開始") = lit "validFrom"
  /\ App.canonicalKey (lit "適用終了") = lit "validTo"
  /\ App.canonicalKey (lit "価格適用期間") = lit "validRange"
  /\ App.canonicalKey (lit " 搭乗期間（開始） ") = lit "wholeFrom"
  /\ App.canonicalKey (lit "シーズン") = lit "priceType"
  /\ App.canonicalKey (lit "periodFrom") = lit "from"
  /\ App.canonicalKey (lit "メモ") = lit "メモ".
Proof. vm_compute. repeat split; reflexivity. Qed.

Example civil_days :
  civilFromDays 0 = (1970, 1, 1)
  /\ civilFromDays (-1) = (1969, 12, 31)
  /\ civilFromDays 11016 = (2000, 2, 29)
  /\ civilFromDays 11017 = (2000, 3, 1)
  /\ civilFromDays 20454 = (2026, 1, 1)
  /\ daysFromCivil 2026 1 1 = 20454
  /\ daysFromCivil 1900 3 1 - daysFromCivil 1900 2 28 = 1
  /\ daysFromCivil 2024 3 1 - daysFromCivil 2024 2 28 = 2.
Proof. vm_compute. repeat split; reflexivity. Qed.

(** Overflowing months and days roll over, a year below 100 counts from
    1900, and 29 February moves to 1 March in a common year. *)
Example newDate_rolls_over :
  civilFromDays (newDate 2025 12 45) = (2026, 2, 14)
  /\ civilFromDays (newDate 25 0 5) = (1925, 1, 5)
  /\ civilFromDays (App.shiftYear (newDate 2024 1 29) 1) = (2025, 3, 1)
  /\ civilFromDays (App.shiftYear (newDate 2025 0 5) 1) = (2026, 1, 5).
Proof. vm_compute. repeat split; reflexivity. Qed.

Example ymd_text : App.ymd (newDate 2025 0 5) = lit "2025-01-05".
Proof. vm_compute. reflexivity. Qed.

Example parsePeriodRanges_segments :
  App.parsePeriodRanges sampleHost
    (lit "2025-06-01〜2025-06-30 / 2025-09-01 ~ 2025-10-25 / 2025/09/01〜x")
  = [(newDate 2025 5 1, newDate 2025 5 30);
     (newDate 2025 8 1, newDate 2025 9 25)].
Proof. vm_compute. reflexivity. Qed.

(** A quoted cell keeps its comma (34 is the quote, 10 the line feed). *)
Example parseCSV_quotes :
  App.parseCSV
    (lit "from,to,fare" ++ [10%N] ++ lit "a," ++ [34%N] ++ lit "b,c"
     ++ [34%N] ++ lit ",1" ++ [10%N])
  = [[(lit "from", lit "a"); (lit "to", lit "b,c"); (lit "fare", lit "1")]].
Proof. vm_compute. reflexivity. Qed.

(** The scenarios of the specification: an alias hit, a date outside the
    window, an unknown route, a record known in the reverse direction. *)
Example scenarios :
  let db :=
    App.buildDBFromRows sampleHost [tokyoRow] sampleSource [] [hanedaAlias] in
  let june15 := newDate 2025 5 15 in
  let july1 := newDate 2025 6 1 in
  App.MatchResult.row (App.findFare db june15 (lit "羽田") (lit "沖縄"))
  = Some juneStandard
  /\ App.MatchResult.hit (App.findFare db july1 (lit "東京") (lit "沖縄"))
     = false
  /\ App.MatchResult.hasAnyRoute
       (App.findFare db july1 (lit "東京") (lit "沖縄")) = true
  /\ App.MatchResult.hit (App.findFare db june15 (lit "大阪") (lit "札幌"))
     = false
  /\ App.MatchResult.hasAnyRoute
       (App.findFare db june15 (lit "大阪") (lit "札幌")) = false
  /\ App.MatchResult.hit (App.findFare db june15 (lit "沖縄") (lit "東京"))
     = true
  /\ App.MatchResult.usedReverse
       (App.findFare db june15 (lit "沖縄") (lit "東京")) = Some true.
Proof. vm_compute. repeat split; reflexivity. Qed.

(** Malformed content is skipped or defaulted, never refused: a row without
    a destination, a row without any readable period, and a row whose fare
    is not a number. *)
Example malformed_rows :
  App.faresRows
    (App.buildDBFromRows sampleHost
       [cells [("出発地", "東京"); ("到着地", ""); ("運賃", "100");
               ("価格適用期間", "2025-06-01〜2025-06-30")]%string;
        cells [("出発地", "東京"); ("到着地", "沖縄"); ("運賃", "100");
               ("価格適用期間", "六月")]%string;
        cells [("出発地", "東京"); ("到着地", "沖縄"); ("運賃", "未定");
               ("価格適用期間", "2025-06-01〜2025-06-30")]%string]
       sampleSource [] [])
  = [sampleRecord "東京" "通常" 0 (newDate 2025 5 1) (newDate 2025 5 30)].
Proof. vm_compute. reflexivity. Qed.

(** [parseInt] on long numbers: the nearest double beyond 2^53, an
    infinity beyond the doubles, and the fare 0 in that case. *)
Example parseInt10_doubles :
  parseInt10 (lit "9007199254740993") = Finite 9007199254740992
  /\ parseInt10 (lit "-12-3") = Finite (-12)
  /\ parseInt10 (lit "-") = NaN
  /\ parseInt10 (List.repeat 57%N 400) = Infinity false
  /\ App.fareOf {[lit "fare" := List.repeat 57%N 400]} = 0.
Proof. vm_compute. repeat split; reflexivity. Qed.

(* ===================================================================== *)
(** ** Facts about the built-ins *)
(* ===================================================================== *)

Section SortFacts.

Context {A : Type} (cmp : A -> A -> Z).

Lemma sortInsert_perm (x : A) (l : list A) : sortInsert cmp x l ≡ₚ x :: l.
Proof.
  induction l as [|y r IH]; simpl; [done|].
  destruct (cmp y x <=? 0); [|done].
  rewrite IH. apply Permutation_swap.
Qed.

Lemma sort_from_perm (l acc : list A) :
  fold_left (fun acc x => sortInsert cmp x acc) l acc ≡ₚ acc ++ l.
Proof.
  revert acc. induction l as [|x l IH]; intros acc; simpl.
  - by rewrite app_nil_r.
  - rewrite IH, sortInsert_perm. simpl. apply Permutation_middle.
Qed.

Lemma sort_perm (l : list A) : sort cmp l ≡ₚ l.
Proof. unfold sort. by rewrite sort_from_perm. Qed.

Lemma elem_of_sort (x : A) (l : list A) : x ∈ sort cmp l ↔ x ∈ l.
Proof. by rewrite sort_perm. Qed.

(** The comparator is a consistent ordering. *)
Hypothesis cmp_total : forall a b, cmp a b <= 0 \/ cmp b a <= 0.
Hypothesis cmp_trans :
  forall a b c, cmp a b <= 0 -> cmp b c <= 0 -> cmp a c <= 0.

Lemma sortInsert_ascending (x : A) (l : list A) :
  Spec.ascending cmp l -> Spec.ascending cmp (sortInsert cmp x l).
Proof.
  induction l as [|y r IH]; simpl.
  - intros _. split; [|done]. intros y Hy. by apply elem_of_nil in Hy.
  - intros [Hy Hr]. destruct (cmp y x <=? 0) eqn:E; simpl.
    + apply Z.leb_le in E. split; [|by apply IH].
      intros z Hz. rewrite sortInsert_perm in Hz.
      apply elem_of_cons in Hz as [->|Hz]; auto.
    + apply Z.leb_gt in E.
      assert (Hxy : cmp x y <= 0) by (destruct (cmp_total x y); [done|lia]).
      split; [|done].
      intros z Hz. apply elem_of_cons in Hz as [->|Hz]; [done|].
      eapply cmp_trans; eauto.
Qed.

Lemma sort_from_ascending (l acc : list A) :
  Spec.ascending cmp acc ->
  Spec.ascending cmp (fold_left (fun acc x => sortInsert cmp x acc) l acc).
Proof.
  revert acc. induction l as [|x l IH]; intros acc Hacc; simpl; [done|].
  apply IH. by apply sortInsert_ascending.
Qed.

Lemma sort_ascending (l : list A) : Spec.ascending cmp (sort cmp l).
Proof. by apply sort_from_ascending. Qed.

(** The first element of a sorted array is a least element of the array. *)
Lemma head_sort_least (l : list A) (m : A) :
  head (sort cmp l) = Some m ->
  m ∈ l /\ forall x, x ∈ l -> cmp m x <= 0.
Proof.
  intros Hm. pose proof (sort_ascending l) as Hs.
  destruct (sort cmp l) as [|m' r] eqn:E; simplify_eq/=.
  assert (Hin : forall x, x ∈ l <-> x ∈ m :: r)
    by (intros x; rewrite <- E; symmetry; apply elem_of_sort).
  split; [apply Hin; left|].
  intros x Hx. apply Hin in Hx. apply elem_of_cons in Hx as [->|Hx].
  - destruct (cmp_total m m); done.
  - by apply Hs.
Qed.

End SortFacts.

Lemma getTime_le (a b : Date) : getTime a <= getTime b <-> a <= b.
Proof. unfold getTime, msPerDay. lia. Qed.

Lemma getTime_ltb (a b : Date) : (getTime a <? getTime b) = (a <? b).
Proof.
  destruct (a <? b) eqn:E.
  - apply Z.ltb_lt in E. apply Z.ltb_lt. unfold getTime, msPerDay. lia.
  - apply Z.ltb_ge in E. apply Z.ltb_ge. by apply getTime_le.
Qed.

Lemma ofTime_getTime (d : Date) : ofTime (getTime d) = d.
Proof. unfold ofTime, getTime, msPerDay. by rewrite Z.div_mul. Qed.

Lemma ofTime_max (a b : Date) :
  ofTime (Z.max (getTime a) (getTime b)) = Z.max a b.
Proof.
  destruct (Z.max_spec a b) as [[H ->]|[H ->]];
    [rewrite Z.max_r | rewrite Z.max_l];
    rewrite ?ofTime_getTime; try done; apply getTime_le; lia.
Qed.

Lemma ofTime_min (a b : Date) :
  ofTime (Z.min (getTime a) (getTime b)) = Z.min a b.
Proof.
  destruct (Z.min_spec a b) as [[H ->]|[H ->]];
    [rewrite Z.min_l | rewrite Z.min_r];
    rewrite ?ofTime_getTime; try done; apply getTime_le; lia.
Qed.

Lemma streq_true (a b : jsstring) : streq a b = true <-> a = b.
Proof. unfold streq. apply bool_decide_eq_true. Qed.

Lemma isEmpty_true (s : jsstring) : isEmpty s = true <-> s = [].
Proof. by destruct s. Qed.

Lemma startsWith_spec (s x : jsstring) :
  startsWith s x = true <-> exists b, s = x ++ b.
Proof.
  revert s. induction x as [|c x IH]; intros s; simpl.
  - split; [intros _; by exists s|by destruct s].
  - destruct s as [|d s]; simpl.
    + split; [done|]. intros [b Hb]. done.
    + rewrite andb_true_iff, N.eqb_eq, IH. split.
      * intros [-> [b ->]]. by exists b.
      * intros [b Hb]. simplify_eq. eauto.
Qed.

Lemma includes_nil (x : jsstring) : includes [] x = startsWith [] x.
Proof. simpl. apply orb_false_r. Qed.

Lemma includes_cons (d : N) (s x : jsstring) :
  includes (d :: s) x = startsWith (d :: s) x || includes s x.
Proof. reflexivity. Qed.

Lemma includes_spec (s x : jsstring) :
  includes s x = true <-> exists a b, s = a ++ x ++ b.
Proof.
  induction s as [|d s IH].
  - rewrite includes_nil, startsWith_spec. split.
    + intros [b Hb]. by exists [], b.
    + intros (a & b & Hab). symmetry in Hab.
      apply app_eq_nil in Hab as [-> Hab].
      apply app_eq_nil in Hab as [-> ->]. by exists [].
  - rewrite includes_cons, orb_true_iff, startsWith_spec, IH. split.
    + intros [[b Hb]|(a & b & Hab)].
      * by exists [], b.
      * exists (d :: a), b. by rewrite Hab.
    + intros (a & b & Hab). destruct a as [|d' a]; simpl in Hab.
      * left. by exists b.
      * right. simplify_eq. by exists a, b.
Qed.

Lemma includes_trans (s x y : jsstring) :
  includes s x = true -> includes x y = true -> includes s y = true.
Proof.
  rewrite !includes_spec. intros (a & b & ->) (a' & b' & ->).
  exists (a ++ a'), (b' ++ b). by rewrite <- !app_assoc.
Qed.

Lemma takeWhile_all {A} (p : A -> bool) (l : list A) :
  Forall (fun c => p c = true) (takeWhile p l).
Proof.
  induction l as [|x l IH]; simpl; [constructor|].
  destruct (p x) eqn:E; constructor; done.
Qed.

Lemma Number_from_nonneg (ds : jsstring) (acc : Z) :
  Forall (fun c => isDigit c = true) ds -> 0 <= acc ->
  0 <= fold_left (fun acc c => 10 * acc + digitValue c) ds acc.
Proof.
  revert acc. induction ds as [|c ds IH]; intros acc Hd Hacc; simpl; [done|].
  apply Forall_cons in Hd as [Hc Hd]. apply IH; [done|].
  unfold isDigit in Hc. apply andb_true_iff in Hc as [H1 H2].
  apply N.leb_le in H1, H2. unfold digitValue. lia.
Qed.

Lemma Number_digits_nonneg (s : jsstring) : 0 <= Number (takeWhile isDigit s).
Proof. apply Number_from_nonneg; [apply takeWhile_all|done]. Qed.

Lemma digit_not_space (c : N) : isDigit c = true -> isWhiteSpace c = false.
Proof.
  unfold isDigit, isWhiteSpace, inClass. intros H.
  apply andb_true_iff in H as [H1 H2]. apply N.leb_le in H1, H2.
  simpl. repeat (apply orb_false_iff; split);
    first [apply N.eqb_neq; lia
          |apply andb_false_iff; left; apply N.leb_gt; lia
          |done].
Qed.

(** *** Rounding to a double *)

(** The pieces of the rounding of [a >= 2^53]. *)
Lemma rounding_pieces (a : Z) :
  2 ^ 53 <= a ->
  let e := Z.log2 a - 52 in
  let q := a / 2 ^ e in
  let r := a mod 2 ^ e in
  1 <= e /\ 0 < 2 ^ (e - 1) /\ 2 ^ e = 2 * 2 ^ (e - 1)
  /\ a = q * 2 ^ e + r /\ 0 <= r < 2 ^ e
  /\ 2 ^ 52 <= q < 2 ^ 53
  /\ 2 ^ (e - 1) * 2 ^ 53 <= a.
Proof.
  intros Ha e q r.
  assert (H0 : 0 < a) by (assert (0 < 2 ^ 53) by (apply Z.pow_pos_nonneg; lia); lia).
  destruct (Z.log2_spec a H0) as [Hlo Hhi].
  assert (HL : 53 <= Z.log2 a).
  { apply Z.log2_le_pow2; lia. }
  assert (He : 1 <= e) by (unfold e; lia).
  assert (Hp : 0 < 2 ^ (e - 1)) by (apply Z.pow_pos_nonneg; lia).
  assert (H2 : 2 ^ e = 2 * 2 ^ (e - 1)).
  { replace e with (Z.succ (e - 1)) at 1 by lia. apply Z.pow_succ_r. lia. }
  assert (Hpe : 0 < 2 ^ e) by lia.
  assert (HLe : 2 ^ Z.log2 a = 2 ^ 52 * 2 ^ e).
  { rewrite <- Z.pow_add_r by lia. f_equal. unfold e. lia. }
  assert (HLs : 2 ^ Z.succ (Z.log2 a) = 2 ^ 53 * 2 ^ e).
  { rewrite <- Z.pow_add_r by lia. f_equal. unfold e. lia. }
  pose proof (Z.div_mod a (2 ^ e) ltac:(lia)) as Hdm.
  pose proof (Z.mod_pos_bound a (2 ^ e) Hpe) as Hr.
  fold q r in Hdm, Hr.
  split; [done|]. split; [done|]. split; [done|].
  split; [lia|]. split; [done|].
  assert (Hq : 2 ^ 52 <= q < 2 ^ 53).
  { split.
    - apply Z.div_le_lower_bound; lia.
    - apply Z.div_lt_upper_bound; lia. }
  split; [done|].
  replace (2 ^ 53) with (2 * 2 ^ 52) by reflexivity.
  rewrite HLe in Hlo. lia.
Qed.


(** Whether the rounded value [q' * P] is below 2^1024 = 4 * C * H, for
    C = 2^52 and H = 2^970, with P = 2^e. *)
Lemma rounding_range (C H P half q r : Z) (up : bool) :
  0 < C -> 0 < H -> Z.odd (2 * C - 1) = true ->
  0 < half -> P = 2 * half ->
  (P = 2 * H \/ P <= H \/ 4 * H <= P) ->
  0 <= r < P -> C <= q < 2 * C ->
  up = (half <? r) || ((r =? half) && Z.odd q) ->
  let q' := if up then q + 1 else q in
  q' * P < 4 * C * H <-> q * P + r < 4 * C * H - H.
Proof.
  intros HC HH Hodd Hhalf HP Hcase Hr Hq Hup q'.
  assert (Hle : up = true -> half <= r).
  { rewrite Hup. intros H0. apply orb_true_iff in H0 as [H0|H0].
    - apply Z.ltb_lt in H0. lia.
    - apply andb_true_iff in H0 as [H0 _]. apply Z.eqb_eq in H0. lia. }
  assert (Hge : up = false -> r <= half /\ (r = half -> Z.odd q = false)).
  { rewrite Hup. intros H0. apply orb_false_iff in H0 as [H0 H1].
    apply Z.ltb_ge in H0. split; [lia|]. intros ->.
    rewrite Z.eqb_refl in H1. exact H1. }
  assert (Hq' : q <= q' <= q + 1) by (unfold q'; destruct up; lia).
  destruct Hcase as [Heq|[Hlt|Hgt]].
  - (* e = 971 *)
    assert (Hh : half = H) by lia. subst half. subst P.
    unfold q' in *. destruct up.
    + specialize (Hle eq_refl).
      split; intros Hx.
      * assert (q + 1 < 2 * C) by nia.
        assert ((q + 1) * (2 * H) <= (2 * C - 1) * (2 * H))
          by (apply Z.mul_le_mono_nonneg_r; lia).
        lia.
      * assert (q < 2 * C - 1).
        { destruct (Z_lt_le_dec q (2 * C - 1)) as [?|Hq1]; [done|].
          assert ((2 * C - 1) * (2 * H) <= q * (2 * H))
            by (apply Z.mul_le_mono_nonneg_r; lia).
          lia. }
        assert ((q + 1) * (2 * H) <= (2 * C - 1) * (2 * H))
          by (apply Z.mul_le_mono_nonneg_r; lia).
        lia.
    + destruct (Hge eq_refl) as [Hr1 Hr2].
      split; intros Hx.
      * destruct (Z_lt_le_dec q (2 * C - 1)) as [Hq1|Hq1].
        -- assert ((q + 1) * (2 * H) <= (2 * C - 1) * (2 * H))
             by (apply Z.mul_le_mono_nonneg_r; lia).
           lia.
        -- assert (Hq2 : q = 2 * C - 1) by lia.
           destruct (Z.eq_dec r H) as [Hr3|Hr3].
           ++ specialize (Hr2 Hr3). rewrite Hq2, Hodd in Hr2. discriminate.
           ++ rewrite Hq2. lia.
      * assert (q * (2 * H) <= (2 * C - 1) * (2 * H))
          by (apply Z.mul_le_mono_nonneg_r; lia).
        lia.
  - (* e < 971 *)
    assert (q' * P <= (2 * C) * H) by (apply Z.mul_le_mono_nonneg; lia).
    assert ((q + 1) * P <= (2 * C) * H) by (apply Z.mul_le_mono_nonneg; lia).
    assert (1 * H <= C * H) by (apply Z.mul_le_mono_nonneg_r; lia).
    split; intros _; lia.
  - (* e > 971 *)
    assert (C * (4 * H) <= q * P) by (apply Z.mul_le_mono_nonneg; lia).
    assert (q * P <= q' * P) by (apply Z.mul_le_mono_nonneg_r; lia).
    split; intros Hx; lia.
Qed.

Lemma toDouble_spec (n : Z) :
  match toDouble n with
  | NaN => False
  | Finite v =>
    Z.abs n < 2 ^ 1024 - 2 ^ 970
    /\ Z.abs (v - n) * 2 ^ 53 <= Z.abs n
    /\ (0 <= n -> 0 <= v) /\ (n <= 0 -> v <= 0)
  | Infinity negative =>
    2 ^ 1024 - 2 ^ 970 <= Z.abs n /\ negative = (n <? 0)
  end.
Proof.
  unfold toDouble.
  destruct (Z.abs n <? 2 ^ 53) eqn:E.
  { apply Z.ltb_lt in E.
    split; [|split; [|split]].
    - eapply Z.lt_le_trans; [exact E|]. vm_compute. discriminate.
    - replace (n - n) with 0 by lia. simpl. lia.
    - lia.
    - lia. }
  apply Z.ltb_ge in E.
  destruct (rounding_pieces (Z.abs n) E)
    as (He & Hhalf & H2 & Ha & Hr & Hq & Hbig).
  set (a := Z.abs n) in *.
  set (e := Z.log2 a - 52) in *.
  set (q := a / 2 ^ e) in *. set (r := a mod 2 ^ e) in *.
  set (half := 2 ^ (e - 1)) in *.
  set (up := (half <? r) || ((r =? half) && Z.odd q)).
  set (q' := if up then q + 1 else q).
  assert (Hnear : Z.abs (q' * 2 ^ e - a) <= half).
  { unfold q', up.
    destruct (half <? r) eqn:E1; cbn [orb].
    - apply Z.ltb_lt in E1. lia.
    - apply Z.ltb_ge in E1. destruct (r =? half) eqn:E2; cbn [andb].
      + apply Z.eqb_eq in E2. destruct (Z.odd q); lia.
      + lia. }
  assert (Hv : 0 <= q' * 2 ^ e).
  { assert (0 <= q') by (unfold q'; destruct up; lia).
    apply Z.mul_nonneg_nonneg; lia. }
  assert (Hfin : q' * 2 ^ e < 2 ^ 1024 <-> a < 2 ^ 1024 - 2 ^ 970).
  { replace (2 ^ 1024) with (4 * 2 ^ 52 * 2 ^ 970) by reflexivity.
    cut (q' * 2 ^ e < 4 * 2 ^ 52 * 2 ^ 970
         <-> q * 2 ^ e + r < 4 * 2 ^ 52 * 2 ^ 970 - 2 ^ 970).
    { intros Hc. rewrite Hc. split; intros Hx; lia. }
    apply (rounding_range (2 ^ 52) (2 ^ 970) (2 ^ e) half q r up);
      try reflexivity; try assumption.
    destruct (Z.lt_trichotomy e 971) as [Hlt|[Heq|Hgt]].
    - right. left. apply Z.pow_le_mono_r; lia.
    - left. rewrite Heq. reflexivity.
    - right. right. replace (4 * 2 ^ 970) with (2 ^ 972) by reflexivity.
      apply Z.pow_le_mono_r; lia. }
  fold q'.
  destruct (q' * 2 ^ e <? 2 ^ 1024) eqn:Ev.
  - apply Z.ltb_lt in Ev. split; [apply Hfin; assumption|].
    split; [|split].
    + assert (Hs : Z.abs (Z.sgn n * (q' * 2 ^ e) - n)
                   = Z.abs (q' * 2 ^ e - a)).
      { assert (H53 : 0 < 2 ^ 53) by reflexivity.
        destruct (Z.lt_trichotomy n 0) as [Hn|[Hn|Hn]].
        - rewrite (Z.sgn_neg n Hn). unfold a. lia.
        - exfalso. unfold a in E. rewrite Hn in E. simpl in E. lia.
        - rewrite (Z.sgn_pos n Hn). unfold a. lia. }
      rewrite Hs.
      assert (Z.abs (q' * 2 ^ e - a) * 2 ^ 53 <= half * 2 ^ 53)
        by (apply Z.mul_le_mono_nonneg_r; lia).
      lia.
    + intros Hn. apply Z.mul_nonneg_nonneg; lia.
    + intros Hn. apply Z.mul_nonpos_nonneg; lia.
  - apply Z.ltb_ge in Ev. split; [|reflexivity].
    destruct (Z_lt_le_dec a (2 ^ 1024 - 2 ^ 970)) as [Hlt|Hge]; [|done].
    apply Hfin in Hlt. lia.
Qed.

(* ===================================================================== *)
(** ** The fare resolver *)
(* ===================================================================== *)

Section Resolver.
Import App Spec.

Lemma inRange_spec (d a b : Date) : inRange d a b = true <-> a <= d <= b.
Proof.
  unfold inRange. rewrite andb_true_iff, !Z.leb_le, !getTime_le. done.
Qed.

Lemma cmpBest_spec (a b : FareRecord) :
  cmpBest a b <= 0 <-> atLeastAsGood a b.
Proof.
  unfold cmpBest, atLeastAsGood, windowLength, isPeak.
  destruct (streq (priceType a) _) eqn:Ea, (streq (priceType b) _) eqn:Eb;
    first [apply streq_true in Ea | apply not_true_iff_false in Ea;
           rewrite streq_true in Ea];
    first [apply streq_true in Eb | apply not_true_iff_false in Eb;
           rewrite streq_true in Eb];
    destruct (_ =? _) eqn:E1; simpl;
    first [apply Z.eqb_eq in E1 | apply Z.eqb_neq in E1];
    intuition lia.
Qed.

Lemma cmpBest_total (a b : FareRecord) : cmpBest a b <= 0 \/ cmpBest b a <= 0.
Proof.
  rewrite !cmpBest_spec. unfold atLeastAsGood.
  destruct (decide (isPeak a)), (decide (isPeak b));
    destruct (Z.lt_total (windowLength a) (windowLength b)) as [?|[?|?]];
    destruct (Z.le_ge_cases (fare a) (fare b)); intuition lia.
Qed.

Lemma cmpBest_trans (a b c : FareRecord) :
  cmpBest a b <= 0 -> cmpBest b c <= 0 -> cmpBest a c <= 0.
Proof.
  rewrite !cmpBest_spec. unfold atLeastAsGood.
  destruct (decide (isPeak a)), (decide (isPeak b)), (decide (isPeak c));
    intuition lia.
Qed.

Lemma elem_of_candidates (rows : list FareRecord) (d : Date) (r : FareRecord) :
  r ∈ List.filter (fun r => inRange d (validFrom r) (validTo r)) rows
  <-> r ∈ rows /\ covers r d.
Proof.
  rewrite !list_elem_of_In, filter_In, inRange_spec. done.
Qed.

Lemma pickBest_Some (rows : list FareRecord) (d : Date) (r : FareRecord) :
  pickBest rows d = Some r ->
  r ∈ rows /\ covers r d
  /\ forall c, c ∈ rows -> covers c d -> atLeastAsGood r c.
Proof.
  unfold pickBest.
  set (cands := List.filter _ rows).
  intros H.
  assert (Hh : head (sort cmpBest cands) = Some r) by (by destruct cands).
  apply (head_sort_least cmpBest cmpBest_total cmpBest_trans) in Hh
    as [Hin Hleast].
  apply elem_of_candidates in Hin as [Hin Hcov].
  split; [done|]. split; [done|].
  intros c Hc Hcc. apply cmpBest_spec, Hleast, elem_of_candidates. done.
Qed.

(** [pickBest] returns null exactly when no row covers the date. *)
Lemma pickBest_None (rows : list FareRecord) (d : Date) :
  pickBest rows d = None <-> forall c, c ∈ rows -> ~ covers c d.
Proof.
  unfold pickBest.
  set (cands := List.filter _ rows).
  assert (Hc : forall c, c ∈ cands <-> c ∈ rows /\ covers c d)
    by (intros c; apply elem_of_candidates).
  destruct cands as [|c0 cs] eqn:E.
  - split; [|done]. intros _ c Hin Hcov.
    assert (c ∈ @nil FareRecord) as Hnil by (apply Hc; done).
    by apply elem_of_nil in Hnil.
  - split.
    + intros Hh. destruct (sort cmpBest (c0 :: cs)) as [|x xs] eqn:Es;
        [|done].
      assert (c0 ∈ sort cmpBest (c0 :: cs)) as Hin
        by (apply elem_of_sort; left).
      rewrite Es in Hin. by apply elem_of_nil in Hin.
    + intros Hno. exfalso.
      assert (c0 ∈ c0 :: cs) as Hin by left.
      apply Hc in Hin as [Hin Hcov]. by apply (Hno c0).
Qed.

End Resolver.

(** C1.  When [pickBest] returns a record for the date [d], the record is
    one of the rows, its validity window contains [d] (both ends included),
    and it is at least as good as every row whose window contains [d] in
    the three-level order: smaller window length first, then the tier
    tagged "ピーク", then the lower fare. *)
Theorem pickBest_covers_and_optimal
    (rows : list App.FareRecord) (d : Date) (r : App.FareRecord) :
  App.pickBest rows d = Some r ->
  r ∈ rows
  /\ App.validFrom r <= d <= App.validTo r
  /\ forall c, c ∈ rows -> App.validFrom c <= d <= App.validTo c ->
       Spec.atLeastAsGood r c.
Proof. apply pickBest_Some. Qed.

Lemma pickBest_covers_and_optimal_witness :
  App.pickBest [yearRound; juneStandard; junePeak] (newDate 2025 5 15)
  = Some junePeak
  /\ (junePeak ∈ [yearRound; juneStandard; junePeak]
      /\ App.validFrom junePeak <= newDate 2025 5 15 <= App.validTo junePeak
      /\ forall c, c ∈ [yearRound; juneStandard; junePeak] ->
           App.validFrom c <= newDate 2025 5 15 <= App.validTo c ->
           Spec.atLeastAsGood junePeak c).
Proof.
  split; [vm_compute; reflexivity|].
  apply (pickBest_covers_and_optimal
           [yearRound; juneStandard; junePeak] (newDate 2025 5 15) junePeak).
  vm_compute; reflexivity.
Defined.

(** C2.  [findFare] resolves both names, reads the forward and the reverse
    entry of the route index, and answers from the forward entry whenever
    it holds a record covering the date; the reverse entry decides only
    when the forward one holds none, and such a hit carries
    [usedReverse = true] and both directions in [tried]; when neither entry
    covers the date the result is a miss.  In every case [hasAnyRoute]
    tells whether one of the two entries is non-empty, whatever the date. *)
Theorem findFare_forward_then_reverse
    (db : App.DB) (date : Date) (from to : jsstring) :
  let f := App.resolvePlace db from in
  let t := App.resolvePlace db to in
  let listFT :=
    default [] (App.routeMap db !! (App.normKey f ++ lit "||" ++ App.normKey t)) in
  let listTF :=
    default [] (App.routeMap db !! (App.normKey t ++ lit "||" ++ App.normKey f)) in
  let res := App.findFare db date from to in
  (App.MatchResult.hasAnyRoute res = true <-> listFT <> [] \/ listTF <> [])
  /\ ((exists c, c ∈ listFT /\ Spec.covers c date) ->
      App.MatchResult.hit res = true
      /\ App.MatchResult.row res = App.pickBest listFT date
      /\ (exists r, App.MatchResult.row res = Some r
                    /\ r ∈ listFT /\ Spec.covers r date)
      /\ App.MatchResult.usedReverse res = Some false
      /\ App.MatchResult.tried res = [App.arrow f t])
  /\ ((forall c, c ∈ listFT -> ~ Spec.covers c date) ->
      (exists c, c ∈ listTF /\ Spec.covers c date) ->
      App.MatchResult.hit res = true
      /\ App.MatchResult.row res = App.pickBest listTF date
      /\ (exists r, App.MatchResult.row res = Some r
                    /\ r ∈ listTF /\ Spec.covers r date)
      /\ App.MatchResult.usedReverse res = Some true
      /\ App.MatchResult.tried res = [App.arrow f t; App.arrow t f])
  /\ ((forall c, c ∈ listFT -> ~ Spec.covers c date) ->
      (forall c, c ∈ listTF -> ~ Spec.covers c date) ->
      App.MatchResult.hit res = false
      /\ App.MatchResult.row res = None
      /\ App.MatchResult.usedReverse res = None
      /\ App.MatchResult.tried res = [App.arrow f t; App.arrow t f]).
Proof.
  intros f t listFT listTF res.
  assert (Hany : App.MatchResult.hasAnyRoute res
                 = (0 <? List.length listFT)%nat || (0 <? List.length listTF)%nat).
  { unfold res, App.findFare. fold f t. fold listFT listTF.
    destruct (App.pickBest listFT date); [done|].
    destruct (App.pickBest listTF date); done. }
  split.
  { rewrite Hany, orb_true_iff, !Nat.ltb_lt.
    destruct listFT, listTF; simpl; split; intros [?|?];
      try lia; try congruence; auto with lia. }
  unfold res, App.findFare. fold f t. fold listFT listTF.
  destruct (App.pickBest listFT date) as [b|] eqn:EF.
  - pose proof (pickBest_Some _ _ _ EF) as (Hin & Hcov & _).
    split; [intros _; simpl; eauto 10|].
    split; intros Hno; exfalso; by apply (Hno b).
  - pose proof (proj1 (pickBest_None _ _) EF) as HnoF.
    split; [intros (c & Hc & Hcov); exfalso; by apply (HnoF c)|].
    destruct (App.pickBest listTF date) as [b|] eqn:ER.
    + pose proof (pickBest_Some _ _ _ ER) as (Hin & Hcov & _).
      split; [intros _ _; simpl; eauto 10|].
      intros _ Hno; exfalso; by apply (Hno b).
    + pose proof (proj1 (pickBest_None _ _) ER) as HnoR.
      split; [intros _ (c & Hc & Hcov); exfalso; by apply (HnoR c)|].
      intros _ _. simpl. done.
Qed.

(** A hit of [findFare] carries a record whose window contains the date. *)
Lemma findFare_hit_covers
    (db : App.DB) (date : Date) (from to : jsstring) (r : App.FareRecord) :
  App.MatchResult.row (App.findFare db date from to) = Some r ->
  App.MatchResult.hit (App.findFare db date from to) = true
  /\ App.validFrom r <= date <= App.validTo r.
Proof.
  unfold App.findFare.
  destruct (App.pickBest _ date) as [b|] eqn:EF;
    cbn [App.MatchResult.row App.MatchResult.hit].
  - intros [= <-]. split; [reflexivity|].
    apply pickBest_Some in EF as (_ & H & _). exact H.
  - clear EF.
    destruct (App.pickBest _ date) as [b|] eqn:ER;
      cbn [App.MatchResult.row App.MatchResult.hit]; [|discriminate].
    intros [= <-]. split; [reflexivity|].
    apply pickBest_Some in ER as (_ & H & _). exact H.
Qed.


(* ===================================================================== *)
(** ** The calendar *)
(* ===================================================================== *)

Section Calendar.
Import Spec.

Lemma marchStart_next (y : Z) :
  marchStart (y + 1) - marchStart y = 365
  \/ marchStart (y + 1) - marchStart y = 366.
Proof. unfold marchStart. Z.div_mod_to_equations; lia. Qed.

Lemma yoe_ok doe :
  0 <= doe < 146097 ->
  let yoe := (doe - doe / 1460 + doe / 36524 - doe / 146096) / 365 in
  0 <= yoe <= 399 /\ 365 * yoe + yoe / 4 - yoe / 100 <= doe
  /\ (doe < 365 * (yoe + 1) + (yoe + 1) / 4 - (yoe + 1) / 100
      \/ (yoe = 399 /\ doe = 146096)).
Proof.
  intros H yoe. subst yoe.
  Z.div_mod_to_equations; lia.
Qed.

(** Every day is some day of some March-based year. *)
Lemma civilFromDays_fromMarch (z : Z) :
  exists y doy,
    z = marchStart y + doy - 719468
    /\ 0 <= doy < marchStart (y + 1) - marchStart y
    /\ civilFromDays z = fromMarch y doy.
Proof.
  set (z' := z + 719468).
  set (era := z' / 146097).
  set (doe := z' - era * 146097).
  assert (Hdoe : 0 <= doe < 146097).
  { unfold doe, era. Z.div_mod_to_equations; lia. }
  pose proof (yoe_ok doe Hdoe) as Hy. cbv zeta in Hy.
  set (yoe := (doe - doe / 1460 + doe / 36524 - doe / 146096) / 365) in *.
  exists (yoe + era * 400), (doe - (365 * yoe + yoe / 4 - yoe / 100)).
  assert (Hm : marchStart (yoe + era * 400)
               = 146097 * era + (365 * yoe + yoe / 4 - yoe / 100)).
  { unfold marchStart.
    replace ((yoe + era * 400) / 400) with era by (Z.div_mod_to_equations; lia).
    replace ((yoe + era * 400) mod 400) with yoe
      by (Z.div_mod_to_equations; lia).
    done. }
  assert (Hm1 : marchStart (yoe + era * 400 + 1) - marchStart (yoe + era * 400)
                = (if yoe =? 399 then 146097
                   else 365 * (yoe + 1) + (yoe + 1) / 4 - (yoe + 1) / 100)
                  - (365 * yoe + yoe / 4 - yoe / 100)).
  { rewrite Hm. unfold marchStart.
    destruct (yoe =? 399) eqn:E.
    - apply Z.eqb_eq in E. rewrite E.
      replace ((399 + era * 400 + 1) / 400) with (era + 1)
        by (Z.div_mod_to_equations; lia).
      replace ((399 + era * 400 + 1) mod 400) with 0
        by (Z.div_mod_to_equations; lia).
      Z.div_mod_to_equations; lia.
    - apply Z.eqb_neq in E.
      replace ((yoe + era * 400 + 1) / 400) with era
        by (Z.div_mod_to_equations; lia).
      replace ((yoe + era * 400 + 1) mod 400) with (yoe + 1)
        by (Z.div_mod_to_equations; lia).
      lia. }
  split; [rewrite Hm; unfold doe, z'; lia|].
  split.
  { rewrite Hm1. destruct (yoe =? 399) eqn:E.
    - apply Z.eqb_eq in E. lia.
    - apply Z.eqb_neq in E. lia. }
  unfold civilFromDays, fromMarch. fold z'. fold era. fold doe. fold yoe.
  cbv zeta.
  set (doy := doe - (365 * yoe + yoe / 4 - yoe / 100)).
  reflexivity.
Qed.

(** The day [doy] of the March-based year [y] is found again by
    [civilFromDays]. *)
Lemma civilFromDays_marchStart (y doy : Z) :
  0 <= doy < marchStart (y + 1) - marchStart y ->
  civilFromDays (marchStart y + doy - 719468) = fromMarch y doy.
Proof.
  intros Hdoy.
  destruct (civilFromDays_fromMarch (marchStart y + doy - 719468))
    as (y2 & doy2 & Hz & Hd2 & ->).
  assert (y2 = y /\ doy2 = doy) as [-> ->]; [|done].
  assert (Hmono : forall a b, a < b -> marchStart (a + 1) <= marchStart b).
  { intros a b Hab. unfold marchStart. Z.div_mod_to_equations; lia. }
  destruct (Z.lt_trichotomy y2 y) as [Hlt|[->|Hgt]].
  - pose proof (Hmono y2 y Hlt). lia.
  - lia.
  - pose proof (Hmono y y2 Hgt). lia.
Qed.

Lemma daysFromCivil_marchStart (y m d : Z) :
  daysFromCivil y m d
  = marchStart (if m <=? 2 then y - 1 else y)
    + ((153 * (if 2 <? m then m - 3 else m + 9) + 2) / 5 + d - 1) - 719468.
Proof.
  unfold daysFromCivil, marchStart. cbv zeta.
  set (y' := if m <=? 2 then y - 1 else y).
  replace (y' - y' / 400 * 400) with (y' mod 400)
    by (Z.div_mod_to_equations; lia).
  lia.
Qed.

(** The fields of a date, from its March-based year and day. *)
Lemma fromMarch_fields (y doy : Z) :
  0 <= doy <= 365 ->
  let '(Y, m, d) := fromMarch y doy in
  1 <= m <= 12 /\ 1 <= d <= 31
  /\ Y = (if m <=? 2 then y + 1 else y)
  /\ (153 * (if 2 <? m then m - 3 else m + 9) + 2) / 5 + d - 1 = doy
  /\ (doy = 365 -> m = 2 /\ d = 29)
  /\ (doy = 0 -> m = 3 /\ d = 1).
Proof.
  intros Hd. unfold fromMarch. cbv zeta.
  set (mp := (5 * doy + 2) / 153).
  assert (Hmp : 0 <= mp <= 11) by (unfold mp; Z.div_mod_to_equations; lia).
  assert (Hdd : 1 <= doy - (153 * mp + 2) / 5 + 1 <= 31)
    by (unfold mp; Z.div_mod_to_equations; lia).
  destruct (mp <? 10) eqn:E;
    [apply Z.ltb_lt in E | apply Z.ltb_ge in E].
  - replace (mp + 3 <=? 2) with false by (symmetry; apply Z.leb_gt; lia).
    replace (2 <? mp + 3) with true by (symmetry; apply Z.ltb_lt; lia).
    replace (mp + 3 - 3) with mp by lia.
    repeat split; try lia; unfold mp in *; Z.div_mod_to_equations; lia.
  - replace (mp - 9 <=? 2) with true by (symmetry; apply Z.leb_le; lia).
    replace (2 <? mp - 9) with false by (symmetry; apply Z.ltb_ge; lia).
    replace (mp - 9 + 9) with mp by lia.
    repeat split; try lia; unfold mp in *; Z.div_mod_to_equations; lia.
Qed.

(** The fields of every date are those of a civil date. *)
Lemma civilFromDays_fields (z : Z) :
  1 <= getMonth z + 1 <= 12 /\ 1 <= getDate z <= 31.
Proof.
  destruct (civilFromDays_fromMarch z) as (y & doy & Hz & Hd & Hc).
  unfold getMonth, getDate. rewrite Hc.
  pose proof (marchStart_next y) as Hn.
  pose proof (fromMarch_fields y doy) as Hf.
  destruct (fromMarch y doy) as [[Y m] d]. simpl.
  destruct Hf as (? & ? & _); lia.
Qed.

(** [civilFromDays] and [daysFromCivil] are inverse to each other. *)
Lemma daysFromCivil_civilFromDays (z : Z) :
  daysFromCivil (getFullYear z) (getMonth z + 1) (getDate z) = z.
Proof.
  destruct (civilFromDays_fromMarch z) as (y & doy & Hz & Hd & Hc).
  unfold getFullYear, getMonth, getDate. rewrite Hc.
  pose proof (marchStart_next y) as Hn.
  pose proof (fromMarch_fields y doy) as Hf.
  destruct (fromMarch y doy) as [[Y m] d]. simpl.
  destruct Hf as (Hm & Hdd & -> & Hdoy & _); [lia|].
  rewrite daysFromCivil_marchStart.
  replace (m - 1 + 1) with m by lia.
  rewrite Hdoy. destruct (m <=? 2); rewrite Hz; f_equal; f_equal; f_equal; lia.
Qed.

(** [shiftYear d 1] is the day of the next year with the same position in
    the March-based year. *)
Lemma shiftYear_marchStart (y doy : Z) :
  0 <= doy < marchStart (y + 1) - marchStart y ->
  App.shiftYear (marchStart y + doy - 719468) 1
  = marchStart (y + 1) + doy - 719468.
Proof.
  intros Hd. pose proof (marchStart_next y) as Hn.
  unfold App.shiftYear, setFullYear, MakeDay, getFullYear, getMonth, getDate.
  rewrite civilFromDays_marchStart by done.
  pose proof (fromMarch_fields y doy) as Hf.
  destruct (fromMarch y doy) as [[Y m] d]. simpl.
  destruct Hf as (Hm & Hdd & -> & Hdoy & _); [lia|].
  replace ((m - 1) / 12) with 0 by (Z.div_mod_to_equations; lia).
  replace ((m - 1) mod 12 + 1) with m by (Z.div_mod_to_equations; lia).
  rewrite daysFromCivil_marchStart.
  replace (if m <=? 2 then (if m <=? 2 then y + 1 else y) + 1 + 0 - 1
           else (if m <=? 2 then y + 1 else y) + 1 + 0)
    with (y + 1) by (destruct (m <=? 2); lia).
  lia.
Qed.

(** Shifting a date by one year moves it into the next calendar year. *)
Lemma getFullYear_shiftYear (d : Date) :
  getFullYear (App.shiftYear d 1) = getFullYear d + 1.
Proof.
  destruct (civilFromDays_fromMarch d) as (y & doy & -> & Hd & Hc).
  rewrite shiftYear_marchStart by done.
  unfold getFullYear. rewrite Hc.
  pose proof (marchStart_next y) as Hn.
  pose proof (marchStart_next (y + 1)) as Hn1.
  pose proof (fromMarch_fields y doy) as Hf.
  destruct (Z.lt_ge_cases doy (marchStart (y + 1 + 1) - marchStart (y + 1)))
    as [Hlt|Hge].
  - rewrite civilFromDays_marchStart by lia.
    unfold fromMarch. cbv zeta. simpl.
    destruct (_ <=? 2); lia.
  - assert (doy = 365) as -> by lia.
    replace (marchStart (y + 1) + 365 - 719468)
      with (marchStart (y + 1 + 1) + 0 - 719468) by lia.
    rewrite civilFromDays_marchStart
      by (pose proof (marchStart_next (y + 1 + 1)); lia).
    unfold fromMarch. cbv zeta.
    change ((5 * 0 + 2) / 153) with 0. change ((5 * 365 + 2) / 153) with 11.
    simpl. lia.
Qed.

Lemma marchStart_length (y : Z) :
  marchStart (y + 1) - marchStart y = if isLeapYear (y + 1) then 366 else 365.
Proof.
  unfold marchStart, isLeapYear.
  destruct ((y + 1) mod 4 =? 0) eqn:E4;
    destruct ((y + 1) mod 100 =? 0) eqn:E100;
    destruct ((y + 1) mod 400 =? 0) eqn:E400; simpl;
    rewrite ?Z.eqb_eq, ?Z.eqb_neq in *;
    Z.div_mod_to_equations; lia.
Qed.

Lemma fromMarch_month (y k d : Z) :
  0 <= k <= 11 -> 1 <= d <= 31 ->
  (k = 1 \/ k = 3 \/ k = 6 \/ k = 8 -> d <= 30) -> (k = 11 -> d <= 29) ->
  fromMarch y ((153 * k + 2) / 5 + d - 1)
  = (if k <? 10 then y else y + 1, if k <? 10 then k + 3 else k - 9, d).
Proof.
  intros Hk Hd H30 H29. unfold fromMarch. cbv zeta.
  assert (Hmp : (5 * ((153 * k + 2) / 5 + d - 1) + 2) / 153 = k).
  { assert (Hc : k = 0 \/ k = 1 \/ k = 2 \/ k = 3 \/ k = 4 \/ k = 5 \/ k = 6
                 \/ k = 7 \/ k = 8 \/ k = 9 \/ k = 10 \/ k = 11) by lia.
    destruct Hc as [->|[->|[->|[->|[->|[->|[->|[->|[->|[->|[->| ->]]]]]]]]]]];
      Z.div_mod_to_equations; lia. }
  rewrite Hmp.
  destruct (k <? 10) eqn:E; [apply Z.ltb_lt in E|apply Z.ltb_ge in E].
  - replace (k + 3 <=? 2) with false by (symmetry; apply Z.leb_gt; lia).
    f_equal. lia.
  - replace (k - 9 <=? 2) with true by (symmetry; apply Z.leb_le; lia).
    f_equal. lia.
Qed.

(** A civil date is found again from its day number. *)
Lemma civilFromDays_daysFromCivil (y m d : Z) :
  1 <= m <= 12 -> 1 <= d <= daysInMonth y m ->
  civilFromDays (daysFromCivil y m d) = (y, m, d).
Proof.
  intros Hm Hd. rewrite daysFromCivil_marchStart.
  set (y' := if m <=? 2 then y - 1 else y).
  set (k := if 2 <? m then m - 3 else m + 9).
  assert (Hk : 0 <= k <= 11
               /\ m = (if k <? 10 then k + 3 else k - 9)
               /\ y = (if k <? 10 then y' else y' + 1)).
  { unfold k, y'. destruct (2 <? m) eqn:E;
      [apply Z.ltb_lt in E|apply Z.ltb_ge in E].
    - replace (m - 3 <? 10) with true by (symmetry; apply Z.ltb_lt; lia).
      replace (m <=? 2) with false by (symmetry; apply Z.leb_gt; lia). lia.
    - replace (m + 9 <? 10) with false by (symmetry; apply Z.ltb_ge; lia).
      replace (m <=? 2) with true by (symmetry; apply Z.leb_le; lia). lia. }
  destruct Hk as (Hk & Hmk & Hyk).
  assert (Hdim : 1 <= d <= 31 /\ (k = 1 \/ k = 3 \/ k = 6 \/ k = 8 -> d <= 30)
                 /\ (k = 11 -> d <= if isLeapYear (y' + 1) then 29 else 28)).
  { unfold daysInMonth in Hd.
    assert (Hc : k = 0 \/ k = 1 \/ k = 2 \/ k = 3 \/ k = 4 \/ k = 5 \/ k = 6
                 \/ k = 7 \/ k = 8 \/ k = 9 \/ k = 10 \/ k = 11) by lia.
    destruct Hc as [Hc|[Hc|[Hc|[Hc|[Hc|[Hc|[Hc|[Hc|[Hc|[Hc|[Hc|Hc]]]]]]]]]]];
      rewrite Hc in Hmk, Hyk; simpl in Hmk, Hyk; subst m;
      simpl in Hd; try rewrite <- Hyk; try (destruct (isLeapYear y)); lia. }
  destruct Hdim as (Hd31 & H30 & H29).
  pose proof (marchStart_length y') as Hlen.
  rewrite civilFromDays_marchStart.
  - rewrite fromMarch_month; try done.
    + by rewrite <- Hmk, <- Hyk.
    + intros Hk11. specialize (H29 Hk11). destruct (isLeapYear _); lia.
  - rewrite Hlen.
    assert (Hc : k = 0 \/ k = 1 \/ k = 2 \/ k = 3 \/ k = 4 \/ k = 5 \/ k = 6
                 \/ k = 7 \/ k = 8 \/ k = 9 \/ k = 10 \/ k = 11) by lia.
    destruct (isLeapYear (y' + 1));
      destruct Hc as [Hc|[Hc|[Hc|[Hc|[Hc|[Hc|[Hc|[Hc|[Hc|[Hc|[Hc|Hc]]]]]]]]]]];
      rewrite Hc in *; Z.div_mod_to_equations; lia.
Qed.

(** The fields of [new Date(y, m, d)] for a date of the calendar. *)
Lemma newDate_fields (y m d : Z) :
  100 <= y -> 0 <= m <= 11 -> 1 <= d <= daysInMonth y (m + 1) ->
  getFullYear (newDate y m d) = y
  /\ getMonth (newDate y m d) = m
  /\ getDate (newDate y m d) = d.
Proof.
  intros Hy Hm Hd. unfold newDate, MakeDay.
  replace ((0 <=? y) && (y <=? 99)) with false
    by (symmetry; apply andb_false_iff; right; apply Z.leb_gt; lia).
  replace (m / 12) with 0 by (Z.div_mod_to_equations; lia).
  replace (m mod 12) with m by (Z.div_mod_to_equations; lia).
  rewrite Z.add_0_r.
  replace (daysFromCivil y (m + 1) 1 + d - 1) with (daysFromCivil y (m + 1) d)
    by (unfold daysFromCivil; lia).
  unfold getFullYear, getMonth, getDate.
  rewrite civilFromDays_daysFromCivil by lia. simpl. lia.
Qed.

End Calendar.

(* ===================================================================== *)
(** ** The header normalizer *)
(* ===================================================================== *)

(** A synonym [x] of a list is found in every label that contains a text
    in which the normalized [x] occurs. *)
Lemma has_by_inclusion (nk : jsstring) (arr : list string) (x : string)
    (w : jsstring) :
  In x arr ->
  includes w (App.normHeaderKey (lit x)) = true ->
  includes nk w = true ->
  App.has nk arr = true.
Proof.
  intros Hx Hw Hnk. unfold App.has. apply existsb_exists.
  exists x. split; [done|]. by eapply includes_trans.
Qed.

(** C9.  A header label whose normalized form contains "validfrom" is
    canonicalized to [from], the origin column, in both releases: the
    origin synonyms, which include "from", are tested before the
    boarding-window synonyms, so [wholeFrom] is never reached.  A label
    containing "validto" is canonicalized to [to] (or to [from] when it
    also contains an origin synonym), never to [wholeTo]. *)
Theorem canonicalKey_valid_labels (k : jsstring) :
  (includes (App.normHeaderKey k) (lit "validfrom") = true ->
   App.canonicalKey k = lit "from" /\ Legacy.canonicalKey k = lit "from")
  /\ (includes (App.normHeaderKey k) (lit "validto") = true ->
      (App.canonicalKey k = lit "from" \/ App.canonicalKey k = lit "to")
      /\ (Legacy.canonicalKey k = lit "from"
          \/ Legacy.canonicalKey k = lit "to")).
Proof.
  split.
  - intros H.
    assert (Hfrom : App.has (App.normHeaderKey k)
              ["出発地"; "発地"; "出発"; "from"; "origin"; "出発場所";
               "発駅"; "乗車地"]%string
            = true).
    { apply (has_by_inclusion _ _ "from" (lit "validfrom")); [|reflexivity|done].
      simpl. tauto. }
    unfold App.canonicalKey, Legacy.canonicalKey.
    change Legacy.has with App.has.
    change Legacy.normHeaderKey with App.normHeaderKey.
    cbv zeta. rewrite Hfrom. split; reflexivity.
  - intros H.
    assert (Hto : App.has (App.normHeaderKey k)
              ["到着地"; "着地"; "到着"; "to"; "destination"; "到着場所";
               "着駅"; "降車地"]%string
            = true).
    { apply (has_by_inclusion _ _ "to" (lit "validto")); [|reflexivity|done].
      simpl. tauto. }
    unfold App.canonicalKey, Legacy.canonicalKey.
    change Legacy.has with App.has.
    change Legacy.normHeaderKey with App.normHeaderKey.
    cbv zeta. rewrite Hto. clear Hto.
    destruct (App.has _ _); split;
      first [left; reflexivity | right; reflexivity].
Qed.

Lemma canonicalKey_valid_labels_witness :
  (includes (App.normHeaderKey (lit "validFrom")) (lit "validfrom") = true
   /\ includes (App.normHeaderKey (lit "validTo")) (lit "validto") = true)
  /\ (App.canonicalKey (lit "validFrom") = lit "from"
      /\ Legacy.canonicalKey (lit "validFrom") = lit "from")
  /\ ((App.canonicalKey (lit "validTo") = lit "from"
       \/ App.canonicalKey (lit "validTo") = lit "to")
      /\ (Legacy.canonicalKey (lit "validTo") = lit "from"
          \/ Legacy.canonicalKey (lit "validTo") = lit "to")).
Proof.
  split; [split; vm_compute; reflexivity|].
  split.
  - apply (proj1 (canonicalKey_valid_labels (lit "validFrom"))).
    vm_compute; reflexivity.
  - apply (proj2 (canonicalKey_valid_labels (lit "validTo"))).
    vm_compute; reflexivity.
Defined.

(* ===================================================================== *)
(** ** The period resolver *)
(* ===================================================================== *)

Section Period.
Import App Spec.

Lemma alignToWholeRange_crossing (pFrom pTo wholeFrom wholeTo : Date) :
  getFullYear wholeFrom < getFullYear wholeTo ->
  alignToWholeRange (Some pFrom) (Some pTo) (Some wholeFrom) (Some wholeTo)
  = aligned pFrom pTo wholeFrom wholeTo.
Proof.
  intros Hc. unfold alignToWholeRange, aligned, beforeStart.
  apply Z.ltb_lt in Hc. rewrite Hc.
  rewrite getTime_ltb.
  destruct (_ <? wholeFrom); rewrite ofTime_max, ofTime_min, getTime_ltb; done.
Qed.

Lemma alignToWholeRange_same_year (pFrom pTo wholeFrom wholeTo : Date) :
  getFullYear wholeTo <= getFullYear wholeFrom ->
  alignToWholeRange (Some pFrom) (Some pTo) (Some wholeFrom) (Some wholeTo)
  = clamped pFrom pTo wholeFrom wholeTo.
Proof.
  intros Hc. unfold alignToWholeRange, clamped.
  apply Z.ltb_ge in Hc. rewrite Hc.
  rewrite ofTime_max, ofTime_min, getTime_ltb. done.
Qed.

(** With a boarding window, a range that survives lies inside the window
    and is not inverted. *)
Lemma alignToWholeRange_within (pFrom pTo wholeFrom wholeTo vf vt : Date) :
  alignToWholeRange (Some pFrom) (Some pTo) (Some wholeFrom) (Some wholeTo)
  = Some (vf, vt) ->
  wholeFrom <= vf /\ vf <= vt /\ vt <= wholeTo.
Proof.
  destruct (Z.lt_ge_cases (getFullYear wholeFrom) (getFullYear wholeTo))
    as [Hc|Hc].
  - rewrite alignToWholeRange_crossing by done. unfold aligned.
    destruct (_ <? Z.max _ _) eqn:E; [done|].
    apply Z.ltb_ge in E. intros [= <- <-]. lia.
  - rewrite alignToWholeRange_same_year by done. unfold clamped.
    destruct (_ <? Z.max _ _) eqn:E; [done|].
    apply Z.ltb_ge in E. intros [= <- <-]. lia.
Qed.

(** Without a boarding window the range is returned as it is. *)
Lemma alignToWholeRange_no_window (pFrom pTo : Date) (wholeFrom wholeTo : option Date) :
  wholeFrom = None \/ wholeTo = None ->
  alignToWholeRange (Some pFrom) (Some pTo) wholeFrom wholeTo
  = Some (pFrom, pTo).
Proof. intros [-> | ->]; simpl; [done|by destruct wholeFrom]. Qed.

End Period.

(** C4.  For a boarding window whose end year exceeds its start year,
    [alignToWholeRange] shifts each endpoint that has the window's start
    year and a month before the window's start month forward by one year,
    then shifts both endpoints by one more year when the end is still
    before [wholeFrom], clamps the range to
    [max(start, wholeFrom) .. min(end, wholeTo)] and returns null when the
    clamped start exceeds the clamped end; a range that is returned lies
    within the boarding window, and a shifted endpoint lies in the next
    calendar year.  For the window 2025-10-26..2026-03-28 the range
    2025-01-05..2025-01-20 becomes 2026-01-05..2026-01-20. *)
Theorem alignToWholeRange_year_rollover
    (pFrom pTo wholeFrom wholeTo : Date) :
  getFullYear wholeFrom < getFullYear wholeTo ->
  let early d :=
    (getFullYear d =? getFullYear wholeFrom)
    && (getMonth d <? getMonth wholeFrom) in
  let from1 := if early pFrom then App.shiftYear pFrom 1 else pFrom in
  let to1 := if early pTo then App.shiftYear pTo 1 else pTo in
  let from2 := if to1 <? wholeFrom then App.shiftYear from1 1 else from1 in
  let to2 := if to1 <? wholeFrom then App.shiftYear to1 1 else to1 in
  App.alignToWholeRange (Some pFrom) (Some pTo) (Some wholeFrom) (Some wholeTo)
  = (if Z.min to2 wholeTo <? Z.max from2 wholeFrom then None
     else Some (Z.max from2 wholeFrom, Z.min to2 wholeTo))
  /\ (forall vf vt,
        App.alignToWholeRange (Some pFrom) (Some pTo)
          (Some wholeFrom) (Some wholeTo) = Some (vf, vt) ->
        wholeFrom <= vf /\ vf <= vt /\ vt <= wholeTo)
  /\ (forall d, getFullYear (App.shiftYear d 1) = getFullYear d + 1)
  /\ App.alignToWholeRange
       (Some (newDate 2025 0 5)) (Some (newDate 2025 0 20))
       (Some (newDate 2025 9 26)) (Some (newDate 2026 2 28))
     = Some (newDate 2026 0 5, newDate 2026 0 20).
Proof.
  intros Hc early from1 to1 from2 to2. split; [|split; [|split]].
  - by rewrite alignToWholeRange_crossing.
  - intros vf vt. apply alignToWholeRange_within.
  - apply getFullYear_shiftYear.
  - vm_compute. reflexivity.
Qed.

Lemma alignToWholeRange_year_rollover_witness :
  getFullYear (newDate 2025 9 26) < getFullYear (newDate 2026 2 28)
  /\ App.alignToWholeRange
       (Some (newDate 2025 0 5)) (Some (newDate 2025 0 20))
       (Some (newDate 2025 9 26)) (Some (newDate 2026 2 28))
     = (if Z.min (App.shiftYear (newDate 2025 0 20) 1) (newDate 2026 2 28)
           <? Z.max (App.shiftYear (newDate 2025 0 5) 1) (newDate 2025 9 26)
        then None
        else Some (Z.max (App.shiftYear (newDate 2025 0 5) 1) (newDate 2025 9 26),
                   Z.min (App.shiftYear (newDate 2025 0 20) 1) (newDate 2026 2 28))).
Proof.
  split; [vm_compute; reflexivity|].
  apply (alignToWholeRange_year_rollover
           (newDate 2025 0 5) (newDate 2025 0 20)
           (newDate 2025 9 26) (newDate 2026 2 28)).
  vm_compute; reflexivity.
Defined.

(* ===================================================================== *)
(** ** Loose date parsing *)
(* ===================================================================== *)

Section DateForms.
Import Spec.

Lemma digitRun_44 (s : jsstring) :
  digitRun 4 4 s
  <-> exists a b c d, s = [a; b; c; d]
      /\ isDigit a = true /\ isDigit b = true
      /\ isDigit c = true /\ isDigit d = true.
Proof.
  unfold digitRun. split.
  - intros [Hd Hl].
    destruct s as [|a [|b [|c [|d [|e s]]]]]; simpl in Hl; try lia.
    exists a, b, c, d.
    repeat match goal with
           | H : Forall _ (_ :: _) |- _ => apply Forall_cons in H as [? H]
           end.
    done.
  - intros (a & b & c & d & -> & ? & ? & ? & ?). split; [|simpl; lia].
    repeat constructor; done.
Qed.

Lemma digitRun_12 (s : jsstring) :
  digitRun 1 2 s
  <-> (exists a, s = [a] /\ isDigit a = true)
      \/ (exists a b, s = [a; b] /\ isDigit a = true /\ isDigit b = true).
Proof.
  unfold digitRun. split.
  - intros [Hd Hl].
    destruct s as [|a [|b [|c s]]]; simpl in Hl; try lia;
      repeat match goal with
             | H : Forall _ (_ :: _) |- _ => apply Forall_cons in H as [? H]
             end;
      eauto 6.
  - intros [(a & -> & ?)|(a & b & -> & ? & ?)]; (split; [|simpl; lia]);
      repeat constructor; done.
Qed.

Lemma lit_dash : lit "-" = [45%N].
Proof. reflexivity. Qed.

Lemma lit_slash : lit "/" = [47%N].
Proof. reflexivity. Qed.

Lemma lit_slash_dash : lit "/-" = [47%N; 45%N].
Proof. reflexivity. Qed.

Local Arguments isDigit : simpl never.

(** Unfold a matcher applied in a hypothesis down to facts about units. *)
Ltac pieces :=
  repeat match goal with
  | H : context [match ?x with _ => _ end] |- _ =>
    (is_var x; destruct x) || (let E := fresh "E" in destruct x eqn:E)
  | H : _ /\ _ |- _ => destruct H
  | H : _ && _ = true |- _ => apply andb_true_iff in H
  | H : _ || _ = true |- _ => apply orb_true_iff in H as [H|H]
  | H : (_ =? _)%N = true |- _ => apply N.eqb_eq in H; subst
  | H : Some _ = Some _ |- _ => injection H as H; subst
  | H : (_, _) = (_, _) |- _ => injection H as H; subst
  | H : None = Some _ |- _ => discriminate H
  | H : false = true |- _ => discriminate H
  | _ => progress (simpl in *; subst)
  end.

(** Split digit runs into their units and close a goal that assumes a
    separator to be a digit or two texts of different shapes to be equal. *)
Ltac runs :=
  repeat match goal with
  | H : digitRun 4 4 _ |- _ =>
    apply digitRun_44 in H as (? & ? & ? & ? & -> & ? & ? & ? & ?)
  | H : digitRun 1 2 _ |- _ =>
    apply digitRun_12 in H as [(? & -> & ?)|(? & ? & -> & ? & ?)]
  | H : _ \/ _ |- _ => destruct H
  end; simpl in *; simplify_eq;
  try match goal with
  | H : isDigit 45%N = true |- _ => discriminate H
  | H : isDigit 47%N = true |- _ => discriminate H
  end.

(** Run a matcher on a text made of known digits and separators. *)
Ltac digits :=
  repeat first
    [ progress simpl
    | match goal with
      | H : isDigit ?a = true |- context [isDigit ?a] => rewrite H
      end
    | progress change (isDigit 45%N) with false
    | progress change (isDigit 47%N) with false ].

Lemma matchYMD_dash (t y m d : jsstring) :
  App.matchYMD "-" t = Some (y, m, d)
  <-> digitRun 4 4 y /\ digitRun 1 2 m /\ digitRun 1 2 d
      /\ t = y ++ 45%N :: m ++ 45%N :: d.
Proof.
  unfold App.matchYMD, digits4, digits12, oneOf, atEnd, inClass.
  rewrite lit_dash. split.
  - intros H. pieces;
      rewrite digitRun_44, !digitRun_12; repeat split; eauto 10.
  - intros (Hy & Hm & Hd & ->). runs; digits; reflexivity.
Qed.

Lemma matchYMD_slash (t y m d : jsstring) :
  App.matchYMD "/" t = Some (y, m, d)
  <-> digitRun 4 4 y /\ digitRun 1 2 m /\ digitRun 1 2 d
      /\ t = y ++ 47%N :: m ++ 47%N :: d.
Proof.
  unfold App.matchYMD, digits4, digits12, oneOf, atEnd, inClass.
  rewrite lit_slash. split.
  - intros H. pieces;
      rewrite digitRun_44, !digitRun_12; repeat split; eauto 10.
  - intros (Hy & Hm & Hd & ->). runs; digits; reflexivity.
Qed.

Lemma matchYM_spec (t y m : jsstring) :
  Legacy.matchYM t = Some (y, m)
  <-> digitRun 4 4 y /\ digitRun 1 2 m /\ t = y ++ 47%N :: m.
Proof.
  unfold Legacy.matchYM, digits4, digits12, oneOf, atEnd, inClass.
  rewrite lit_slash. split.
  - intros H. pieces;
      rewrite digitRun_44, !digitRun_12; repeat split; eauto 10.
  - intros (Hy & Hm & ->). runs; digits; reflexivity.
Qed.

Lemma matchMD_spec (t m d : jsstring) :
  App.matchMD t = Some (m, d)
  <-> digitRun 1 2 m /\ digitRun 1 2 d
      /\ exists sep, (sep = 47%N \/ sep = 45%N) /\ t = m ++ sep :: d.
Proof.
  unfold App.matchMD, digits4, digits12, oneOf, atEnd, inClass.
  rewrite lit_slash_dash. split.
  - intros H. pieces;
      rewrite !digitRun_12; repeat split; eauto 10.
  - intros (Hm & Hd & sep & Hs & ->). runs; digits; reflexivity.
Qed.

(** Decide a matcher on a text of known form: either it fails, or its
    captures are those of the form. *)
Ltac settle m :=
  let E := fresh "E" in
  destruct m as [[[? ?] ?]|] eqn:E;
  [first [apply matchYMD_dash in E as (? & ? & ? & ?)
         |apply matchYMD_slash in E as (? & ? & ? & ?)]; runs|].

Ltac settle2 m :=
  let E := fresh "E" in
  destruct m as [[? ?]|] eqn:E;
  [first [apply matchYM_spec in E as (? & ? & ?)
         |apply matchMD_spec in E as (? & ? & ? & ? & ?)]; runs|].

Lemma Legacy_parseDateLoose_spec (h : App.Host) (s : jsstring) (dt : Date) :
  Legacy.parseDateLoose h s = Some dt <-> fourForms h (trim s) dt.
Proof.
  unfold Legacy.parseDateLoose, fourForms.
  generalize (trim s). clear s. intros t. split.
  - destruct (isEmpty t); [done|].
    destruct (App.matchYMD "-" t) as [[[y m] d]|] eqn:E1.
    { apply matchYMD_dash in E1 as (? & ? & ? & ?). intros [= <-].
      left. by econstructor. }
    destruct (App.matchYMD "/" t) as [[[y m] d]|] eqn:E2.
    { apply matchYMD_slash in E2 as (? & ? & ? & ?). intros [= <-].
      right; left. by econstructor. }
    destruct (Legacy.matchYM t) as [[y m]|] eqn:E3.
    { apply matchYM_spec in E3 as (? & ? & ?). intros [= <-].
      right; right; left. by econstructor. }
    destruct (App.matchMD t) as [[m d]|] eqn:E4; [|done].
    apply matchMD_spec in E4 as (? & ? & sep & ? & ?). intros [= <-].
    right; right; right. by econstructor.
  - intros [H|[H|[H|H]]];
      [destruct H as [y m d Hy Hm Hd ->] | destruct H as [y m d Hy Hm Hd ->]
      |destruct H as [y m Hy Hm ->] | destruct H as [m d sep Hm Hd Hs ->]].
    + rewrite (proj2 (matchYMD_dash _ y m d)) by done.
      runs; reflexivity.
    + settle (App.matchYMD "-" (y ++ 47%N :: m ++ 47%N :: d)).
      rewrite (proj2 (matchYMD_slash _ y m d)) by done.
      runs; reflexivity.
    + settle (App.matchYMD "-" (y ++ 47%N :: m)).
      settle (App.matchYMD "/" (y ++ 47%N :: m)).
      rewrite (proj2 (matchYM_spec _ y m)) by done.
      runs; reflexivity.
    + settle (App.matchYMD "-" (m ++ sep :: d)).
      settle (App.matchYMD "/" (m ++ sep :: d)).
      settle2 (Legacy.matchYM (m ++ sep :: d)).
      rewrite (proj2 (matchMD_spec _ m d)) by eauto.
      runs; reflexivity.
Qed.

Lemma App_parseDateLoose_spec (h : App.Host) (s : jsstring) (dt : Date) :
  App.parseDateLoose h s = Some dt <-> threeForms h (trim s) dt.
Proof.
  unfold App.parseDateLoose, threeForms.
  generalize (trim s). clear s. intros t. split.
  - destruct (isEmpty t); [done|].
    destruct (App.matchYMD "-" t) as [[[y m] d]|] eqn:E1.
    { apply matchYMD_dash in E1 as (? & ? & ? & ?). intros [= <-].
      left. by econstructor. }
    destruct (App.matchYMD "/" t) as [[[y m] d]|] eqn:E2.
    { apply matchYMD_slash in E2 as (? & ? & ? & ?). intros [= <-].
      right; left. by econstructor. }
    destruct (App.matchMD t) as [[m d]|] eqn:E4; [|done].
    apply matchMD_spec in E4 as (? & ? & sep & ? & ?). intros [= <-].
    right; right. by econstructor.
  - intros [H|[H|H]];
      [destruct H as [y m d Hy Hm Hd ->] | destruct H as [y m d Hy Hm Hd ->]
      |destruct H as [m d sep Hm Hd Hs ->]].
    + rewrite (proj2 (matchYMD_dash _ y m d)) by done.
      runs; reflexivity.
    + settle (App.matchYMD "-" (y ++ 47%N :: m ++ 47%N :: d)).
      rewrite (proj2 (matchYMD_slash _ y m d)) by done.
      runs; reflexivity.
    + settle (App.matchYMD "-" (m ++ sep :: d)).
      settle (App.matchYMD "/" (m ++ sep :: d)).
      rewrite (proj2 (matchMD_spec _ m d)) by eauto.
      runs; reflexivity.
Qed.

End DateForms.

(** C5 (as amended).  After trimming, [parseDateLoose] of the earlier
    release returns a date exactly for the texts of the forms YYYY-MM-DD,
    YYYY/MM/DD, YYYY/MM (first day of the month) and M/D or M-D (year of
    the clock), months and days being written with one or two digits, and
    the date is the one the form denotes; [parseDateLoose] of [app.js] does
    so exactly for YYYY-MM-DD, YYYY/MM/DD and M/D or M-D.  For every other
    text the result is null, and the function is total. *)
Theorem parseDateLoose_accepts_exactly
    (h : App.Host) (s : jsstring) (dt : Date) :
  (Legacy.parseDateLoose h s = Some dt
   <-> Spec.ymdForm 45 (trim s) dt \/ Spec.ymdForm 47 (trim s) dt
       \/ Spec.ymForm (trim s) dt
       \/ Spec.mdForm (App.currentYear h) (trim s) dt)
  /\ (App.parseDateLoose h s = Some dt
      <-> Spec.ymdForm 45 (trim s) dt \/ Spec.ymdForm 47 (trim s) dt
          \/ Spec.mdForm (App.currentYear h) (trim s) dt).
Proof.
  split; [apply Legacy_parseDateLoose_spec | apply App_parseDateLoose_spec].
Qed.

(** In [app.js] a text of the form YYYY/MM is not a date: "2025/06" has the
    form and denotes 1 June 2025, and [parseDateLoose] returns null. *)
Lemma app_parseDateLoose_rejects_year_month :
  Spec.ymForm (trim (lit "2025/06")) (newDate 2025 5 1)
  /\ App.parseDateLoose sampleHost (lit "2025/06") = None.
Proof.
  split; [|vm_compute; reflexivity].
  apply (Spec.ym_form _ (lit "2025") (lit "06")).
  - split; [|simpl; lia]. repeat constructor.
  - split; [|simpl; lia]. repeat constructor.
  - reflexivity.
Qed.

(* ===================================================================== *)
(** ** The fare table builder *)
(* ===================================================================== *)

Section Builder.
Import App Spec.

Lemma addPeriod_fares fromRaw toRaw ptype fareNum wf wt src st p x :
  x ∈ fares (addPeriod fromRaw toRaw ptype fareNum wf wt src st p) ->
  x ∈ fares st
  \/ (from x = fromRaw /\ to x = toRaw /\ priceType x = ptype
      /\ fare x = fareNum /\ source x = src
      /\ alignToWholeRange (Some (fst p)) (Some (snd p)) wf wt
         = Some (validFrom x, validTo x)).
Proof.
  unfold addPeriod.
  destruct (alignToWholeRange _ _ _ _) as [[d1 d2]| ] eqn:E; [|auto].
  case_bool_decide; [auto|]. simpl.
  rewrite elem_of_app, list_elem_of_singleton. intros [?| ->]; [auto|].
  right. simpl. done.
Qed.

Lemma addPeriods_fares fromRaw toRaw ptype fareNum wf wt src ps st x :
  x ∈ fares
        (fold_left (addPeriod fromRaw toRaw ptype fareNum wf wt src) ps st) ->
  x ∈ fares st
  \/ (from x = fromRaw /\ to x = toRaw /\ priceType x = ptype
      /\ fare x = fareNum /\ source x = src
      /\ exists p, p ∈ ps
           /\ alignToWholeRange (Some (fst p)) (Some (snd p)) wf wt
              = Some (validFrom x, validTo x)).
Proof.
  revert st. induction ps as [|p ps IH]; intros st; simpl; [auto|].
  intros H. apply IH in H as [H|H].
  - apply addPeriod_fares in H as [H|(?&?&?&?&?&?)]; [auto|].
    right. repeat split; try done. exists p. split; [left|done].
  - right. destruct H as (?&?&?&?&?&p'&?&?). repeat split; try done.
    exists p'. split; [by right|done].
Qed.

Lemma addRow_fares h src st r x :
  x ∈ fares (addRow h src st r) -> x ∈ fares st \/ producedBy h src r x.
Proof.
  unfold addRow, producedBy.
  destruct (isEmpty (trim (prop _ "from")) || isEmpty (trim (prop _ "to")))
    eqn:E; [auto|].
  apply orb_false_iff in E as [Ef Et].
  intros H. apply addPeriods_fares in H as [H|(Hf&Ht&_&?&?&?)]; [auto|].
  right. rewrite Hf, Ht. repeat split; try done.
  - intros Hn. rewrite Hn in Ef. done.
  - intros Hn. rewrite Hn in Et. done.
Qed.

Lemma addRows_fares h src rows st x :
  x ∈ fares (fold_left (addRow h src) rows st) ->
  x ∈ fares st \/ exists r, r ∈ rows /\ producedBy h src r x.
Proof.
  revert st. induction rows as [|r rows IH]; intros st; simpl; [auto|].
  intros H. apply IH in H as [H|(r' & ? & ?)].
  - apply addRow_fares in H as [H|H]; [auto|].
    right. exists r. split; [left|done].
  - right. exists r'. split; [by right|done].
Qed.

(** Every record of a built table comes from one of the rows. *)
Lemma faresRows_producedBy h rows src url aliasRows x :
  x ∈ faresRows (buildDBFromRows h rows src url aliasRows) ->
  exists r, r ∈ rows /\ producedBy h src r x.
Proof.
  unfold buildDBFromRows. simpl. intros H.
  apply addRows_fares in H as [H|H]; [|done].
  simpl in H. by apply elem_of_nil in H.
Qed.

(** The path with a boarding window never yields an inverted record. *)
Lemma records_with_window_ordered h rows src url aliasRows x :
  x ∈ faresRows (buildDBFromRows h rows src url aliasRows) ->
  exists r, r ∈ rows /\
    (is_Some (parseDateLoose h (prop (normalizeRowKeys r) "wholeFrom")) ->
     is_Some (parseDateLoose h (prop (normalizeRowKeys r) "wholeTo")) ->
     validFrom x <= validTo x).
Proof.
  intros Hx. apply faresRows_producedBy in Hx as (r & Hr & Hp).
  exists r. split; [done|]. intros [wf Hwf] [wt Hwt].
  destruct Hp as (_ & _ & _ & _ & _ & _ & p & _ & Ha).
  rewrite Hwf, Hwt in Ha.
  apply alignToWholeRange_within in Ha. lia.
Qed.

(** *** Fares *)

Lemma keptText_units (rr : gmap jsstring jsstring) :
  Forall (fun c => isDigit c = true \/ c = 45%N) (keptText rr).
Proof.
  unfold keptText, removeAll. apply Forall_forall. intros c Hc.
  apply list_elem_of_In, filter_In in Hc as [_ Hc].
  apply negb_true_iff, negb_false_iff, orb_true_iff in Hc as [?|Hc]; [auto|].
  apply N.eqb_eq in Hc. auto.
Qed.

Lemma afterSign_other (c : N) (t : jsstring) :
  c <> 45%N -> afterSign (c :: t) = c :: t.
Proof.
  intros Hc. unfold afterSign.
  destruct c as [|p]; [done|].
  repeat (destruct p as [p|p|]; try done).
Qed.

(** What [parseInt] makes of a text of digits and minus signs. *)
Lemma parseInt10_kept (t : jsstring) :
  Forall (fun c => isDigit c = true \/ c = 45%N) t ->
  parseInt10 t
  = let ds := takeWhile isDigit (afterSign t) in
    if isEmpty ds then NaN
    else toDouble ((if bool_decide (head t = Some 45%N) then -1 else 1)
                   * Number ds).
Proof.
  intros Hk. destruct t as [|c t]; [reflexivity|].
  apply Forall_cons in Hk as [Hc _].
  unfold parseInt10, trimStart. simpl dropWhile.
  assert (Hws : isWhiteSpace c = false).
  { destruct Hc as [Hc| ->]; [by apply digit_not_space|reflexivity]. }
  rewrite Hws. simpl head.
  destruct Hc as [Hc| ->].
  - assert (c <> 45%N /\ c <> 43%N) as [H45 H43].
    { unfold isDigit in Hc. apply andb_true_iff in Hc as [H1 H2].
      apply N.leb_le in H1, H2. lia. }
    assert (Hparse : forall T (a b d : T),
             match c with 45%N => a | 43%N => b | _ => d end = d).
    { intros T a b d.
      destruct c as [|p]; [done|].
      repeat (destruct p as [p|p|]; try done). }
    rewrite Hparse, afterSign_other by done.
    rewrite bool_decide_eq_false_2 by (simpl; intros [= Hc']; done).
    reflexivity.
  - reflexivity.
Qed.

(** The fare of a row: 0 without a leading number, and otherwise the
    number, with its sign, as a double, or 0 when that is an infinity. *)
Lemma fareOf_value (rr : gmap jsstring jsstring) :
  let kept := keptText rr in
  let digits := takeWhile isDigit (afterSign kept) in
  let n := (if bool_decide (head kept = Some 45%N) then -1 else 1)
           * Number digits in
  (digits = [] -> fareOf rr = 0)
  /\ (digits <> [] ->
      fareOf rr = match toDouble n with Finite v => v | _ => 0 end).
Proof.
  intros kept digits n. unfold fareOf. fold (keptText rr). fold kept.
  rewrite (parseInt10_kept kept (keptText_units rr)). cbv zeta.
  fold digits. fold n.
  split; intros Hd.
  - by rewrite Hd.
  - destruct digits; [done|reflexivity].
Qed.

(** The sign of a fare follows the first unit of the kept text, and a kept
    text without a leading number gives 0. *)
Lemma fareOf_sign (rr : gmap jsstring jsstring) :
  (head (keptText rr) <> Some 45%N -> 0 <= fareOf rr)
  /\ (head (keptText rr) = Some 45%N -> fareOf rr <= 0)
  /\ (takeWhile isDigit (afterSign (keptText rr)) = [] -> fareOf rr = 0).
Proof.
  destruct (fareOf_value rr) as [H0 H1]. cbv zeta in H0, H1.
  pose proof (Number_digits_nonneg (afterSign (keptText rr))) as Hn.
  set (ds := takeWhile isDigit (afterSign (keptText rr))) in *.
  destruct (decide (ds = [])) as [He|Hne].
  { rewrite (H0 He). split; [|split]; intros _; lia. }
  rewrite (H1 Hne). split; [|split; [|done]]; intros Hh.
  - rewrite bool_decide_eq_false_2 by done. cbv iota.
    generalize (toDouble_spec (1 * Number ds)).
    destruct (toDouble (1 * Number ds)); [intros []|lia|].
    intros Hs. apply Hs. lia.
  - rewrite bool_decide_eq_true_2 by done. cbv iota.
    generalize (toDouble_spec (-1 * Number ds)).
    destruct (toDouble (-1 * Number ds)); [intros []|lia|].
    intros Hs. apply Hs. lia.
Qed.

(** A cell without any digit gives the fare 0. *)
Lemma fareOf_no_digit (rr : gmap jsstring jsstring) (cell : jsstring) :
  rr !! lit "fare" = Some cell ->
  Forall (fun c => isDigit c = false) cell ->
  fareOf rr = 0.
Proof.
  intros Hcell Hnd. apply fareOf_sign.
  assert (Hk : Forall (fun c => isDigit c = false) (keptText rr)).
  { unfold keptText. rewrite Hcell. simpl. unfold removeAll.
    apply Forall_forall. intros c Hc.
    apply list_elem_of_In, filter_In in Hc as [Hc _].
    rewrite Forall_forall in Hnd. apply Hnd. by apply list_elem_of_In. }
  destruct (keptText rr) as [|c t]; [reflexivity|].
  apply Forall_cons in Hk as [Hc Ht].
  assert (Hh : forall u, Forall (fun c => isDigit c = false) u ->
                 takeWhile isDigit u = []).
  { intros [|d u] Hu; [done|]. apply Forall_cons in Hu as [Hd _].
    simpl. by rewrite Hd. }
  destruct (decide (c = 45%N)) as [->|Hne]; [by apply Hh|].
  rewrite afterSign_other by done. apply Hh. by constructor.
Qed.

(** *** The alias table *)

Lemma fold_keeps {B}
    (step : gmap jsstring jsstring -> B -> gmap jsstring jsstring)
    (l : list B) (k v : jsstring) :
  (forall b, b ∈ l -> keeps (fun m => step m b) k v) ->
  keeps (fun m => fold_left step l m) k v.
Proof.
  induction l as [|b l IH]; intros Hs m Hm; simpl; [done|].
  apply IH.
  - intros b' Hb'. apply Hs. by right.
  - apply (Hs b); [left|done].
Qed.

Lemma insert_if_absent_keeps (k' v' k v : jsstring) :
  keeps (fun m => if bool_decide (is_Some (m !! k')) then m
                  else <[k' := v']> m) k v.
Proof.
  intros m Hm. case_bool_decide as Hd; [done|].
  rewrite lookup_insert_ne; [done|].
  intros ->. apply Hd. by rewrite Hm.
Qed.

(** The self-mapping layer: the entry of a key is the one place that has
    the key. *)
Lemma self_layer (places : list jsstring) (m : gmap jsstring jsstring)
    (p : jsstring) :
  (forall q, q ∈ places -> normKey q = normKey p -> q = p) ->
  p ∈ places \/ m !! normKey p = Some p ->
  fold_left (fun m p => <[normKey p := p]> m) places m !! normKey p = Some p.
Proof.
  revert m. induction places as [|q places IH]; intros m Huniq Hin; simpl.
  - destruct Hin as [Hin|Hin]; [by apply elem_of_nil in Hin|done].
  - apply IH.
    + intros q' Hq'. apply Huniq. by right.
    + destruct (decide (normKey q = normKey p)) as [Heq|Hne].
      * right. rewrite (Huniq q) by (done || left). apply lookup_insert_eq.
      * destruct Hin as [Hin|Hin].
        -- apply elem_of_cons in Hin as [->|Hin]; [done|by left].
        -- right. by rewrite lookup_insert_ne.
Qed.

(** The inferred variants and the curated names never replace an entry. *)
Lemma buildAliasDefaultsFromPlaces_self (places : list jsstring)
    (p : jsstring) :
  p ∈ places ->
  (forall q, q ∈ places -> normKey q = normKey p -> q = p) ->
  buildAliasDefaultsFromPlaces places !! normKey p = Some p.
Proof.
  intros Hin Huniq. unfold buildAliasDefaultsFromPlaces.
  apply (fold_keeps _ common).
  { intros [alias canon] _ m Hm.
    destruct (bool_decide (lit canon ∈ places)); simpl; [|done].
    case_bool_decide as Hd; simpl; [done|].
    rewrite lookup_insert_ne; [done|].
    intros Hk. apply Hd. rewrite Hk, Hm. done. }
  apply (fold_keeps _ places).
  { intros q _. apply fold_keeps. intros v _. apply insert_if_absent_keeps. }
  apply self_layer; auto.
Qed.

Lemma mergeAliases_keeps (aliasRows : list JsObject) (k v : jsstring) :
  (forall a alias canon, a ∈ aliasRows -> effective a alias canon ->
     normKey alias = k -> canon = v) ->
  keeps (fun m => mergeAliases m aliasRows) k v.
Proof.
  intros Hrows. unfold mergeAliases. apply fold_keeps.
  intros a Ha m Hm.
  destruct (isEmpty _ || isEmpty _) eqn:E; [done|].
  apply orb_false_iff in E as [Ea Ec].
  destruct (decide (normKey (trim (prop (normalizeRowKeys a) "alias")) = k))
    as [Heq|Hne].
  - rewrite Heq, lookup_insert_eq. f_equal.
    eapply Hrows; [done| |done].
    repeat split; try done; intros Hn; by rewrite Hn in *.
  - by rewrite lookup_insert_ne.
Qed.

(** *** The route index *)




(** *** The shape of the first row *)

Lemma hasFareShape_ok (rows : list JsObject) :
  ok (hasFareShape rows) = true <-> firstRowShaped rows.
Proof.
  unfold hasFareShape, firstRowShaped. destruct rows as [|r0 rest]; simpl.
  - split; [done|]. intros (? & ? & ? & _). done.
  - destruct (negb _ && negb _ && bool_decide _) eqn:E; simpl.
    + split; [intros _|done].
      apply andb_true_iff in E as [E E3]. apply andb_true_iff in E as [E1 E2].
      apply negb_true_iff in E1, E2. apply bool_decide_eq_true in E3.
      exists r0, rest. repeat split; try done;
        intros Hn; rewrite Hn in *; done.
    + split; [done|]. intros (r & rest' & [= <- <-] & H1 & H2 & H3).
      exfalso. apply not_true_iff_false in E. apply E.
      rewrite !andb_true_iff, !negb_true_iff, bool_decide_eq_true.
      repeat split; try done.
      * destruct (prop _ "from"); done.
      * destruct (prop _ "to"); done.
Qed.

End Builder.

(** C3.  The row [invertedRow] carries explicit validity columns with the
    start after the end and no boarding window; the table built from it
    holds one record, whose [validFrom] (30 June 2025) is after its
    [validTo] (1 June 2025). *)
Theorem inverted_period_without_window_is_kept (h : App.Host) :
  App.faresRows (App.buildDBFromRows h [invertedRow] sampleSource [] [])
  = [sampleRecord "東京" "通常" 12000 (newDate 2025 5 30) (newDate 2025 5 1)]
  /\ newDate 2025 5 1 < newDate 2025 5 30.
Proof. split; vm_compute; reflexivity. Qed.




(** C7 (as amended).  In a built table, [resolvePlace] returns a place [p]
    of the places list unchanged when the place key of [p] is not empty,
    no other place of the list has the same key, and no alias row that
    takes effect gives that key another canonical name. *)
Theorem resolvePlace_fixes_unaliased_places
    (h : App.Host) (rows : list JsObject) (src url : jsstring)
    (aliasRows : list JsObject) (p : jsstring) :
  let db := App.buildDBFromRows h rows src url aliasRows in
  p ∈ App.places db ->
  App.normKey p <> [] ->
  (forall q, q ∈ App.places db -> App.normKey q = App.normKey p -> q = p) ->
  (forall a alias canon, a ∈ aliasRows -> Spec.effective a alias canon ->
     App.normKey alias = App.normKey p -> canon = p) ->
  App.resolvePlace db p = p.
Proof.
  intros db Hp Hk Huniq Hal.
  assert (Hget : App.aliasToCanon db !! App.normKey p = Some p).
  { unfold db, App.buildDBFromRows. simpl.
    apply mergeAliases_keeps; [done|].
    apply buildAliasDefaultsFromPlaces_self; done. }
  unfold App.resolvePlace. rewrite Hget.
  destruct (isEmpty (App.normKey p)) eqn:E.
  { apply isEmpty_true in E. done. }
  destruct (isEmpty p) eqn:Ep; [|done].
  apply isEmpty_true in Ep. subst p. reflexivity.
Qed.

Lemma resolvePlace_fixes_unaliased_places_witness :
  let db :=
    App.buildDBFromRows sampleHost [tokyoRow] sampleSource [] [hanedaAlias] in
  (lit "東京" ∈ App.places db /\ App.normKey (lit "東京") <> [])
  /\ App.resolvePlace db (lit "東京") = lit "東京".
Proof.
  intros db.
  assert (Hin : lit "東京" ∈ App.places db).
  { apply list_elem_of_In. vm_compute. left. reflexivity. }
  assert (Hkey : App.normKey (lit "東京") <> []).
  { vm_compute. discriminate. }
  split; [split; assumption|].
  apply (resolvePlace_fixes_unaliased_places
           sampleHost [tokyoRow] sampleSource [] [hanedaAlias] (lit "東京")
           Hin Hkey).
  - intros q Hq. apply list_elem_of_In in Hq. vm_compute in Hq.
    destruct Hq as [<-|[<-|[]]]; vm_compute; [reflexivity|].
    intros Hk. discriminate Hk.
  - intros a alias canon Ha (-> & -> & _ & _) Hk.
    apply list_elem_of_singleton in Ha. subst a.
    vm_compute in Hk. discriminate Hk.
Defined.

(** An alias row on the key of a place of the table replaces the
    self-mapping: with the alias "東京" for "大阪", the place "東京" of the
    places list resolves to "大阪". *)
Lemma alias_row_overrides_own_place :
  let db :=
    App.buildDBFromRows sampleHost [tokyoRow] sampleSource [] [tokyoAlias] in
  lit "東京" ∈ App.places db
  /\ App.resolvePlace db (lit "東京") = lit "大阪"
  /\ App.resolvePlace db (lit "東京") <> lit "東京".
Proof.
  split; [|split].
  - apply list_elem_of_In. vm_compute. left. reflexivity.
  - vm_compute. reflexivity.
  - vm_compute. congruence.
Qed.

(** The two side conditions on the place key are needed as well: a place
    whose key is empty resolves to the empty string, and two places with
    one key resolve to one name (which of the two depends on the
    collation). *)
Lemma place_with_empty_key :
  let db := App.buildDBFromRows sampleHost [dotRow] sampleSource [] [] in
  lit "・" ∈ App.places db /\ App.resolvePlace db (lit "・") = [].
Proof.
  split; [|vm_compute; reflexivity].
  apply list_elem_of_In. vm_compute. left. reflexivity.
Qed.

Lemma places_sharing_a_key :
  let db :=
    App.buildDBFromRows sampleHost [upperRow; lowerRow] sampleSource [] [] in
  lit "Tokyo" ∈ App.places db /\ lit "tokyo" ∈ App.places db
  /\ App.resolvePlace db (lit "Tokyo") = App.resolvePlace db (lit "tokyo").
Proof.
  split; [|split; [|vm_compute; reflexivity]];
    apply list_elem_of_In; vm_compute; auto.
Qed.


(* ===================================================================== *)
(** ** Further properties of the code *)
(* ===================================================================== *)

(** *** Numbers and their decimal text *)

Lemma Number_app (a b : jsstring) :
  Number (a ++ b)
  = fold_left (fun acc c => 10 * acc + digitValue c) b (Number a).
Proof. unfold Number. apply fold_left_app. Qed.

Lemma uintUnits_digits (u : Decimal.uint) :
  Forall (fun c => isDigit c = true) (uintUnits u).
Proof. induction u; simpl; constructor; done. Qed.

Lemma uintUnits_value_acc (u : Decimal.uint) (acc : positive) :
  fold_left (fun acc c => 10 * acc + digitValue c) (uintUnits u) (Zpos acc)
  = Zpos (Pos.of_uint_acc u acc).
Proof.
  revert acc. induction u; intros acc; simpl; try done;
    rewrite <- IHu; f_equal; unfold digitValue; simpl; lia.
Qed.

Lemma uintUnits_value (u : Decimal.uint) :
  Number (uintUnits u) = Z.of_N (Pos.of_uint u).
Proof.
  unfold Number. induction u; simpl; try done;
    first [exact IHu | apply uintUnits_value_acc].
Qed.

(** [Number(String(n)) = n] for a natural number [n]. *)
Lemma Number_String (n : Z) : 0 <= n -> Number (String_ n) = n.
Proof.
  intros Hn. destruct n as [|p|p]; [done| |lia].
  unfold String_. rewrite uintUnits_value, DecimalPos.Unsigned.of_to. done.
Qed.

Lemma String_digits (n : Z) :
  0 <= n -> Forall (fun c => isDigit c = true) (String_ n).
Proof.
  intros Hn. destruct n as [|p|p]; [repeat constructor| |lia].
  apply uintUnits_digits.
Qed.

(** A property decided for every integer of a range. *)
Lemma forall_range (P : Z -> bool) (lo n : Z) :
  forallb (fun i => P (lo + Z.of_nat i)) (seq 0 (Z.to_nat n)) = true ->
  forall z, lo <= z < lo + n -> P z = true.
Proof.
  intros H z Hz. rewrite forallb_forall in H.
  replace z with (lo + Z.of_nat (Z.to_nat (z - lo))) by lia.
  apply H. apply in_seq. lia.
Qed.

Lemma String_year (y : Z) :
  1000 <= y <= 9999 -> List.length (String_ y) = 4%nat.
Proof.
  intros Hy.
  pose proof (forall_range
    (fun y => Nat.eqb (List.length (String_ y)) 4) 1000 9000) as H.
  apply Nat.eqb_eq, H; [vm_compute; reflexivity|lia].
Qed.

Lemma String_small (n : Z) :
  1 <= n <= 99 -> List.length (padStart2 (String_ n)) = 2%nat.
Proof.
  intros Hn.
  pose proof (forall_range
    (fun n => Nat.eqb (List.length (padStart2 (String_ n))) 2) 1 99) as H.
  apply Nat.eqb_eq, H; [vm_compute; reflexivity|lia].
Qed.

Lemma Number_zero_first (s : jsstring) : Number (48%N :: s) = Number s.
Proof. reflexivity. Qed.

Lemma padStart2_value (n : Z) : 0 <= n -> Number (padStart2 (String_ n)) = n.
Proof.
  intros Hn. rewrite <- (Number_String n Hn) at 2.
  destruct (String_ n) as [|a [|b s]]; reflexivity.
Qed.

Lemma padStart2_digits (n : Z) :
  0 <= n -> Forall (fun c => isDigit c = true) (padStart2 (String_ n)).
Proof.
  intros Hn. pose proof (String_digits n Hn) as Hd.
  destruct (String_ n) as [|a [|b s]]; simpl; [repeat constructor| |done].
  constructor; done.
Qed.

(** *** [trim] *)

Lemma dropWhile_head {A} (p : A -> bool) (x : A) (l : list A) :
  p x = false -> dropWhile p (x :: l) = x :: l.
Proof. intros H. simpl. by rewrite H. Qed.

(** A text that neither starts nor ends with white space is its own trim. *)
Lemma trim_fixed (s : jsstring) :
  (forall c, head s = Some c -> isWhiteSpace c = false) ->
  (forall c, last s = Some c -> isWhiteSpace c = false) ->
  trim s = s.
Proof.
  intros Hh Hl. unfold trim, trimEnd, trimStart.
  assert (H1 : dropWhile isWhiteSpace s = s).
  { destruct s as [|c s]; [done|]. apply dropWhile_head, Hh. done. }
  rewrite H1.
  assert (H2 : dropWhile isWhiteSpace (rev s) = rev s).
  { destruct (rev s) as [|c r] eqn:E; [done|].
    apply dropWhile_head, Hl.
    rewrite <- (rev_involutive s), E. simpl. by rewrite last_snoc. }
  rewrite H2. apply rev_involutive.
Qed.

(** *** [ymd] and [parseDateLoose] *)

(** The text of [ymd] for a date with a four-digit year. *)
Lemma ymd_shape (d : Date) :
  1000 <= getFullYear d <= 9999 ->
  exists y m dd,
    App.ymd d = y ++ 45%N :: m ++ 45%N :: dd
    /\ Spec.digitRun 4 4 y /\ Spec.digitRun 2 2 m /\ Spec.digitRun 2 2 dd
    /\ Number y = getFullYear d
    /\ Number m = getMonth d + 1
    /\ Number dd = getDate d.
Proof.
  intros Hy.
  pose proof (civilFromDays_fields d) as [Hm Hd].
  exists (String_ (getFullYear d)),
         (padStart2 (String_ (getMonth d + 1))),
         (padStart2 (String_ (getDate d))).
  split; [reflexivity|].
  unfold Spec.digitRun.
  rewrite String_year, !String_small by lia.
  rewrite Number_String, !padStart2_value by lia.
  repeat split; try lia;
    first [apply String_digits | apply padStart2_digits]; lia.
Qed.

(** [new Date] applied to the fields of a date gives the date back. *)
Lemma newDate_of_fields (d : Date) :
  100 <= getFullYear d ->
  newDate (getFullYear d) (getMonth d) (getDate d) = d.
Proof.
  intros Hy. pose proof (civilFromDays_fields d) as [Hm Hd].
  unfold newDate, MakeDay.
  replace ((0 <=? getFullYear d) && (getFullYear d <=? 99)) with false
    by (symmetry; apply andb_false_iff; right; apply Z.leb_gt; lia).
  replace (getMonth d / 12) with 0 by (Z.div_mod_to_equations; lia).
  replace (getMonth d mod 12) with (getMonth d)
    by (Z.div_mod_to_equations; lia).
  rewrite Z.add_0_r.
  rewrite <- (daysFromCivil_civilFromDays d) at 4.
  unfold daysFromCivil. lia.
Qed.

Lemma ymd_trimmed (d : Date) :
  1000 <= getFullYear d <= 9999 -> trim (App.ymd d) = App.ymd d.
Proof.
  intros Hy. destruct (ymd_shape d Hy) as (y & m & dd & -> & Hy4 & _ & Hd2 & _).
  apply digitRun_44 in Hy4 as (a & b & c & e & -> & Ha & _).
  destruct Hd2 as [Hd2 Hl].
  destruct dd as [|d1 [|d2 [|]]]; simpl in Hl; try lia.
  apply Forall_cons in Hd2 as [_ Hd2]. apply Forall_cons in Hd2 as [Hd2 _].
  apply trim_fixed.
  - intros x [= <-]. by apply digit_not_space.
  - intros x Hx.
    replace ([a; b; c; e] ++ 45%N :: m ++ [45%N; d1; d2])
      with (([a; b; c; e] ++ 45%N :: m ++ [45%N; d1]) ++ [d2]) in Hx
      by (simpl; rewrite <- !app_assoc; reflexivity).
    rewrite last_snoc in Hx. simplify_eq. by apply digit_not_space.
Qed.

Lemma ymd_read_back (h : App.Host) (d : Date) :
  1000 <= getFullYear d <= 9999 ->
  App.parseDateLoose h (App.ymd d) = Some d
  /\ Legacy.parseDateLoose h (App.ymd d) = Some d.
Proof.
  intros Hy.
  assert (Hf : Spec.ymdForm 45 (trim (App.ymd d)) d).
  { rewrite ymd_trimmed by done.
    destruct (ymd_shape d Hy) as (y & m & dd & Ht & Hy4 & Hm & Hd & Ey & Em & Ed).
    rewrite <- (newDate_of_fields d) at 2 by lia.
    replace (getMonth d) with (Number m - 1) by lia.
    rewrite <- Ey, <- Ed.
    apply Spec.ymd_form; try done.
    - destruct Hm; split; [done|lia].
    - destruct Hd; split; [done|lia]. }
  split.
  - apply App_parseDateLoose_spec. by left.
  - apply Legacy_parseDateLoose_spec. by left.
Qed.

(** X1.  The text that [ymd] writes for a date with a year of four digits is
    read back by [parseDateLoose], of either release, as that date. *)
Theorem parseDateLoose_ymd (h : App.Host) (d : Date) :
  1000 <= getFullYear d <= 9999 ->
  App.parseDateLoose h (App.ymd d) = Some d
  /\ Legacy.parseDateLoose h (App.ymd d) = Some d.
Proof. apply ymd_read_back. Qed.

Section Periods.
Import Spec Behaviour.

Local Arguments isDigit : simpl never.

Lemma digitRun_22 (s : jsstring) :
  digitRun 2 2 s
  <-> exists a b, s = [a; b] /\ isDigit a = true /\ isDigit b = true.
Proof.
  unfold digitRun. split.
  - intros [Hd Hl]. destruct s as [|a [|b [|c s]]]; simpl in Hl; try lia.
    apply Forall_cons in Hd as [? Hd]. apply Forall_cons in Hd as [? _].
    eauto.
  - intros (a & b & -> & ? & ?). split; [|simpl; lia]. repeat constructor; done.
Qed.

Lemma dateToken_text (y m dd r : jsstring) :
  digitRun 4 4 y -> digitRun 2 2 m -> digitRun 2 2 dd ->
  App.dateToken (y ++ 45%N :: m ++ 45%N :: dd ++ r)
  = Some (y ++ 45%N :: m ++ 45%N :: dd, r).
Proof.
  intros Hy Hm Hd.
  apply digitRun_44 in Hy as (a & b & c & e & -> & Ha & Hb & Hc & He).
  apply digitRun_22 in Hm as (m1 & m2 & -> & Hm1 & Hm2).
  apply digitRun_22 in Hd as (d1 & d2 & -> & Hd1 & Hd2).
  unfold App.dateToken, digits4, digits12, oneOf, inClass.
  change (lit "/-") with [47%N; 45%N]. simpl.
  rewrite Ha, Hb, Hc, He. simpl. rewrite Hm1, Hm2. simpl.
  rewrite Hd1, Hd2. reflexivity.
Qed.

Lemma dateToken_ymd (d : Date) (r : jsstring) :
  1000 <= getFullYear d <= 9999 ->
  App.dateToken (App.ymd d ++ r) = Some (App.ymd d, r).
Proof.
  intros Hy.
  destruct (ymd_shape d Hy) as (y & m & dd & -> & Hy4 & Hm & Hd & _).
  replace ((y ++ 45%N :: m ++ 45%N :: dd) ++ r)
    with (y ++ 45%N :: m ++ 45%N :: dd ++ r)
    by (rewrite <- !app_assoc; simpl; rewrite <- !app_assoc; reflexivity).
  by apply dateToken_text.
Qed.

Lemma matchRange_rangeText (r : Date * Date) :
  fourDigitYears r ->
  App.matchRange (rangeText r) = Some (App.ymd (fst r), App.ymd (snd r)).
Proof.
  intros [Ha Hb].
  assert (H : App.matchRangeAt (rangeText r)
              = Some (App.ymd (fst r), App.ymd (snd r))).
  { unfold App.matchRangeAt, rangeText.
    rewrite dateToken_ymd by done. simpl.
    change (lit "〜") with [12316%N]. simpl.
    rewrite <- (app_nil_r (App.ymd (snd r))) at 1.
    destruct (ymd_shape _ Hb) as (y & m & dd & E & Hy4 & _).
    apply digitRun_44 in Hy4 as (a & b & c & e & -> & Ha' & _).
    assert (Hsp : spaces (App.ymd (snd r) ++ []) = App.ymd (snd r) ++ []).
    { rewrite E. simpl. unfold spaces. simpl.
      by rewrite (digit_not_space a Ha'). }
    rewrite Hsp, dateToken_ymd by done. reflexivity. }
  destruct (rangeText r); cbn [App.matchRange]; rewrite H; reflexivity.
Qed.

(** *** Splitting at a separator *)

Lemma splitOn_none (sep : N) (a : jsstring) :
  sep ∉ a -> splitOn sep a = [a].
Proof.
  induction a as [|c a IH]; intros Hn; simpl; [done|].
  apply not_elem_of_cons in Hn as [Hc Ha].
  replace (c =? sep)%N with false by (symmetry; apply N.eqb_neq; congruence).
  by rewrite IH.
Qed.

Lemma splitOn_app (sep : N) (a b : jsstring) :
  sep ∉ a -> splitOn sep (a ++ sep :: b) = a :: splitOn sep b.
Proof.
  induction a as [|c a IH]; intros Hn; simpl.
  - by rewrite N.eqb_refl.
  - apply not_elem_of_cons in Hn as [Hc Ha].
    replace (c =? sep)%N with false by (symmetry; apply N.eqb_neq; congruence).
    by rewrite IH.
Qed.

(** *** Trimming a padded text *)

Lemma dropWhile_app_all {A} (p : A -> bool) (pre l : list A) :
  Forall (fun c => p c = true) pre -> dropWhile p (pre ++ l) = dropWhile p l.
Proof.
  induction pre as [|c pre IH]; intros H; simpl; [done|].
  apply Forall_cons in H as [Hc H]. rewrite Hc. by apply IH.
Qed.

Lemma trim_padded (pre s post : jsstring) :
  Forall (fun c => isWhiteSpace c = true) pre ->
  Forall (fun c => isWhiteSpace c = true) post ->
  (forall c, head s = Some c -> isWhiteSpace c = false) ->
  (forall c, last s = Some c -> isWhiteSpace c = false) ->
  trim (pre ++ s ++ post) = s.
Proof.
  intros Hpre Hpost Hh Hl. unfold trim, trimEnd, trimStart.
  rewrite dropWhile_app_all by done.
  assert (Hrev : Forall (fun c => isWhiteSpace c = true) (rev post)).
  { by apply List.Forall_rev. }
  destruct s as [|c s].
  { simpl. rewrite <- (app_nil_r post), dropWhile_app_all by done.
    reflexivity. }
  rewrite <- app_comm_cons, dropWhile_head by (by apply Hh).
  rewrite app_comm_cons, rev_app_distr, dropWhile_app_all by done.
  destruct (rev (c :: s)) as [|x r] eqn:E.
  { apply (f_equal (@rev N)) in E. rewrite rev_involutive in E. done. }
  rewrite dropWhile_head.
  - rewrite <- E. apply rev_involutive.
  - apply Hl. rewrite <- (rev_involutive (c :: s)), E. simpl.
    by rewrite last_snoc.
Qed.

(** *** The units of a range text *)

Lemma ymd_units (d : Date) :
  1000 <= getFullYear d <= 9999 ->
  Forall (fun c => isDigit c = true \/ c = 45%N) (App.ymd d).
Proof.
  intros Hy.
  destruct (ymd_shape d Hy) as (y & m & dd & -> & [Hy4 _] & [Hm _] & [Hd _] & _).
  repeat (apply Forall_app; split) || apply Forall_cons; try (split; [by right|]);
    try (eapply Forall_impl; [eassumption|]; simpl; by left).
  repeat (apply Forall_cons; split; [by right|]).
  apply Forall_app; split; [eapply Forall_impl; [eassumption|]; simpl; by left|].
  apply Forall_cons; split; [by right|].
  eapply Forall_impl; [eassumption|]; simpl; by left.
Qed.


Lemma lit_wave : lit "〜" = [12316%N].
Proof. reflexivity. Qed.

Lemma lit_bar : lit " / " = [32; 47; 32]%N.
Proof. reflexivity. Qed.

Lemma rangeText_units (r : Date * Date) :
  fourDigitYears r ->
  Forall (fun c => isDigit c = true \/ c = 45%N \/ c = 12316%N) (rangeText r).
Proof.
  intros [Ha Hb]. unfold rangeText. rewrite lit_wave.
  apply Forall_app; split; [|apply Forall_cons; split; [by right; right|]];
    (eapply Forall_impl; [by apply ymd_units|]); simpl; tauto.
Qed.

Lemma rangeText_no_slash (r : Date * Date) (pre post : jsstring) :
  fourDigitYears r ->
  Forall (fun c => isWhiteSpace c = true) pre ->
  Forall (fun c => isWhiteSpace c = true) post ->
  47%N ∉ pre ++ rangeText r ++ post.
Proof.
  intros Hr Hpre Hpost Hin.
  rewrite !elem_of_app in Hin. rewrite Forall_forall in Hpre, Hpost.
  pose proof (rangeText_units r Hr) as Hu. rewrite Forall_forall in Hu.
  destruct Hin as [Hin|[Hin|Hin]].
  - by apply Hpre in Hin.
  - apply Hu in Hin as [?|[?|?]]; done.
  - by apply Hpost in Hin.
Qed.

Lemma rangeText_ends (r : Date * Date) :
  fourDigitYears r ->
  (forall c, head (rangeText r) = Some c -> isWhiteSpace c = false)
  /\ (forall c, last (rangeText r) = Some c -> isWhiteSpace c = false).
Proof.
  intros [Ha Hb]. unfold rangeText. rewrite lit_wave. split.
  - destruct (ymd_shape _ Ha) as (y & m & dd & -> & Hy4 & _).
    apply digitRun_44 in Hy4 as (a & b & c & e & -> & Hda & _).
    intros x [= <-]. by apply digit_not_space.
  - destruct (ymd_shape _ Hb) as (y & m & dd & -> & _ & _ & [Hd Hl] & _).
    destruct dd as [|d1 [|d2 [|]]]; simpl in Hl; try lia.
    apply Forall_cons in Hd as [_ Hd]. apply Forall_cons in Hd as [Hd _].
    intros x Hx.
    replace (App.ymd r.1 ++ [12316%N] ++ y ++ 45%N :: m ++ [45%N; d1; d2])
      with ((App.ymd r.1 ++ [12316%N] ++ y ++ 45%N :: m ++ [45%N; d1]) ++ [d2])
      in Hx by (rewrite <- !app_assoc; simpl; rewrite <- !app_assoc; reflexivity).
    rewrite last_snoc in Hx. simplify_eq. by apply digit_not_space.
Qed.

Lemma rangeText_nonempty (r : Date * Date) :
  fourDigitYears r -> isEmpty (rangeText r) = false.
Proof.
  intros [Ha _]. unfold rangeText.
  destruct (ymd_shape _ Ha) as (y & m & dd & -> & Hy4 & _).
  apply digitRun_44 in Hy4 as (a & b & c & e & -> & _). reflexivity.
Qed.

(** The parts of a period text, after the split at ["/"], the trim and the
    removal of the empty parts, are the texts of its ranges. *)
Lemma parts_periodText (ranges : list (Date * Date)) (pre : jsstring) :
  Forall fourDigitYears ranges -> ranges <> [] ->
  Forall (fun c => isWhiteSpace c = true) pre ->
  List.filter (fun p => negb (isEmpty p))
    (List.map trim (splitOn 47 (pre ++ periodText ranges)))
  = List.map rangeText ranges.
Proof.
  intros Hall. revert pre.
  induction Hall as [|r rest Hr Hrest IH]; intros pre Hne Hpre; [done|].
  destruct (rangeText_ends r Hr) as [Hh Hl].
  destruct rest as [|r2 rest].
  - cbn [periodText List.map].
    replace (pre ++ rangeText r) with (pre ++ rangeText r ++ [])
      by (by rewrite app_nil_r).
    rewrite splitOn_none by (by apply rangeText_no_slash).
    cbn [List.map List.filter].
    rewrite trim_padded by done.
    rewrite rangeText_nonempty by done. reflexivity.
  - change (periodText (r :: r2 :: rest))
      with (rangeText r ++ lit " / " ++ periodText (r2 :: rest)).
    rewrite lit_bar.
    replace (pre ++ rangeText r ++ [32; 47; 32]%N ++ periodText (r2 :: rest))
      with ((pre ++ rangeText r ++ [32%N])
            ++ 47%N :: ([32%N] ++ periodText (r2 :: rest)))
      by (rewrite <- !app_assoc; reflexivity).
    rewrite splitOn_app.
    2:{ apply rangeText_no_slash; [done..|]. by repeat constructor. }
    cbn [List.map List.filter].
    rewrite trim_padded; [|done|by repeat constructor|done..].
    rewrite rangeText_nonempty by done. cbn [negb].
    rewrite IH; [done..|]. by repeat constructor.
Qed.

Lemma periodText_trimmed (ranges : list (Date * Date)) :
  Forall fourDigitYears ranges -> ranges <> [] ->
  trim (periodText ranges) = periodText ranges
  /\ isEmpty (periodText ranges) = false.
Proof.
  intros Hall Hne.
  assert (Hh : forall c, head (periodText ranges) = Some c ->
                         isWhiteSpace c = false).
  { destruct Hall as [|r rest Hr _]; [done|].
    destruct (rangeText_ends r Hr) as [Hh _].
    pose proof (rangeText_nonempty r Hr) as Hn.
    destruct rest; cbn [periodText]; [done|].
    destruct (rangeText r); [done|]. exact Hh. }
  assert (Hl : forall c, last (periodText ranges) = Some c ->
                         isWhiteSpace c = false).
  { clear Hh. induction Hall as [|r rest Hr Hrest IH]; [done|].
    destruct (rangeText_ends r Hr) as [_ Hl].
    destruct rest as [|r2 rest]; [done|].
    change (periodText (r :: r2 :: rest))
      with (rangeText r ++ lit " / " ++ periodText (r2 :: rest)).
    assert (Hn : isEmpty (periodText (r2 :: rest)) = false).
    { apply Forall_cons in Hrest as [Hr2 _].
      pose proof (rangeText_nonempty r2 Hr2) as Hn.
      destruct rest; cbn [periodText]; [done|].
      by destruct (rangeText r2). }
    intros c Hc. apply IH; [done|].
    rewrite !app_assoc in Hc.
    destruct (periodText (r2 :: rest)) as [|x l] using rev_ind; [done|].
    rewrite app_assoc, last_snoc in Hc. by rewrite last_snoc. }
  split; [by apply trim_fixed|].
  destruct Hall as [|r rest Hr _]; [done|].
  pose proof (rangeText_nonempty r Hr) as Hn.
  destruct rest; cbn [periodText]; [done|]. by destruct (rangeText r).
Qed.

Lemma fold_ranges (h : App.Host) (ranges acc : list (Date * Date)) :
  Forall fourDigitYears ranges ->
  fold_left
    (fun ranges p =>
       match App.matchRange p with
       | None => ranges
       | Some (m1, m2) =>
         match App.parseDateLoose h m1, App.parseDateLoose h m2 with
         | Some a, Some b => ranges ++ [(a, b)]
         | _, _ => ranges
         end
       end)
    (List.map rangeText ranges) acc
  = acc ++ ranges.
Proof.
  intros Hall. revert acc.
  induction Hall as [|r rest Hr Hrest IH]; intros acc; simpl.
  { by rewrite app_nil_r. }
  rewrite matchRange_rangeText by done.
  destruct Hr as [Ha Hb].
  rewrite (proj1 (ymd_read_back h _ Ha)), (proj1 (ymd_read_back h _ Hb)).
  rewrite IH, <- app_assoc. by destruct r.
Qed.

(** X2.  The period column written as [ymd(a)〜ymd(b)] segments joined by
    [" / "] is read back as the list of those ranges, in order. *)
Theorem parsePeriodRanges_periodText (h : App.Host) (ranges : list (Date * Date)) :
  Forall fourDigitYears ranges ->
  App.parsePeriodRanges h (periodText ranges) = ranges.
Proof.
  intros Hall. destruct ranges as [|r rest]; [reflexivity|].
  unfold App.parsePeriodRanges.
  destruct (periodText_trimmed (r :: rest) Hall) as [-> ->]; [done|].
  rewrite <- (app_nil_l (periodText (r :: rest))).
  rewrite parts_periodText by done.
  by rewrite fold_ranges.
Qed.

End Periods.

Section Table.
Import App Spec Behaviour.

(** *** What the row loop keeps *)

Lemma elem_of_setAdd (x p : jsstring) (l : list jsstring) :
  p ∈ setAdd x l <-> p ∈ l \/ p = x.
Proof.
  unfold setAdd. case_bool_decide as H.
  - split; [auto|]. intros [?| ->]; done.
  - rewrite elem_of_app, list_elem_of_singleton. done.
Qed.

Lemma NoDup_setAdd (x : jsstring) (l : list jsstring) :
  NoDup l -> NoDup (setAdd x l).
Proof.
  intros Hl. unfold setAdd. case_bool_decide as H; [done|].
  apply NoDup_app. split; [done|]. split; [|apply NoDup_singleton].
  intros y Hy Hy'. apply list_elem_of_singleton in Hy'. by subst.
Qed.

Lemma tableInv_init :
  tableInv {| fares := []; placesSet := []; seen := ∅ |}.
Proof.
  split; simpl.
  - intros x Hx. by apply elem_of_nil in Hx.
  - constructor.
  - intros p. split.
    + intros Hp. by apply elem_of_nil in Hp.
    + intros (x & Hx & _). by apply elem_of_nil in Hx.
  - constructor.
Qed.

Lemma tableInv_addPeriod fromRaw toRaw ptype fareNum wf wt src st p :
  tableInv st ->
  tableInv (addPeriod fromRaw toRaw ptype fareNum wf wt src st p).
Proof.
  intros [Hseen Hnd Hpl Hpnd]. unfold addPeriod.
  destruct (alignToWholeRange _ _ _ _) as [[d1 d2]| ]; [|done].
  case_bool_decide as Hin; [done|].
  split; simpl.
  - intros x Hx. apply elem_of_app in Hx as [Hx|Hx].
    + apply elem_of_union. right. by apply Hseen.
    + apply list_elem_of_singleton in Hx. subst x.
      apply elem_of_union. left. by apply elem_of_singleton.
  - rewrite map_app. apply NoDup_app. split; [done|].
    split; [|apply NoDup_singleton].
    intros k Hk Hk'. simpl in Hk'. apply list_elem_of_singleton in Hk'.
    subst k. apply list_elem_of_fmap in Hk as (x & Hx & Hxin).
    apply Hin. unfold uniqKey in Hx. simpl in Hx. rewrite Hx.
    by apply Hseen.
  - intros q. rewrite !elem_of_setAdd, Hpl. split.
    + intros [[(x & Hx & Hq)| ->]| ->].
      * exists x. split; [|done]. apply elem_of_app. by left.
      * eexists. split; [apply elem_of_app; right; by left|]. by left.
      * eexists. split; [apply elem_of_app; right; by left|]. by right.
    + intros (x & Hx & Hq). apply elem_of_app in Hx as [Hx|Hx].
      * left. left. eauto.
      * apply list_elem_of_singleton in Hx. subst x. simpl in Hq.
        destruct Hq as [<-| <-]; auto.
  - by do 2 apply NoDup_setAdd.
Qed.

Lemma tableInv_fold {B} (step : BuildState -> B -> BuildState) (l : list B)
    (st : BuildState) :
  (forall st b, tableInv st -> tableInv (step st b)) ->
  tableInv st -> tableInv (fold_left step l st).
Proof.
  intros Hstep. revert st. induction l as [|b l IH]; intros st Hst; simpl;
    [done|]. apply IH, Hstep, Hst.
Qed.

Lemma tableInv_addRow h src st r :
  tableInv st -> tableInv (addRow h src st r).
Proof.
  intros Hst. unfold addRow.
  destruct (isEmpty _ || isEmpty _); [done|].
  apply tableInv_fold; [|done].
  intros st' p. apply tableInv_addPeriod.
Qed.

Lemma tableInv_build h rows src :
  tableInv (fold_left (addRow h src) rows
              {| fares := []; placesSet := []; seen := ∅ |}).
Proof.
  apply tableInv_fold; [|apply tableInv_init].
  intros st r. apply tableInv_addRow.
Qed.

(** *** The records are only appended *)

Lemma addPeriod_appends fromRaw toRaw ptype fareNum wf wt src st p :
  exists more,
    fares (addPeriod fromRaw toRaw ptype fareNum wf wt src st p)
    = fares st ++ more.
Proof.
  unfold addPeriod.
  destruct (alignToWholeRange _ _ _ _) as [[d1 d2]| ];
    [|exists []; by rewrite app_nil_r].
  case_bool_decide; [exists []; by rewrite app_nil_r|].
  simpl. eauto.
Qed.

Lemma fold_appends {B} (step : BuildState -> B -> BuildState) (l : list B)
    (st : BuildState) :
  (forall st b, exists more, fares (step st b) = fares st ++ more) ->
  exists more, fares (fold_left step l st) = fares st ++ more.
Proof.
  intros Hstep. revert st. induction l as [|b l IH]; intros st; simpl.
  - exists []. by rewrite app_nil_r.
  - destruct (IH (step st b)) as [m2 ->].
    destruct (Hstep st b) as [m1 ->].
    exists (m1 ++ m2). by rewrite app_assoc.
Qed.

Lemma addRow_appends h src st r :
  exists more, fares (addRow h src st r) = fares st ++ more.
Proof.
  unfold addRow. destruct (isEmpty _ || isEmpty _).
  - exists []. by rewrite app_nil_r.
  - apply fold_appends. intros st' p. apply addPeriod_appends.
Qed.

(** *** The tier of a record *)

Lemma trim_trim (s : jsstring) : trim (trim s) = trim s.
Proof.
  apply trim_fixed.
  - unfold trim, trimEnd, trimStart. intros c Hc.
    destruct (isWhiteSpace c) eqn:E; [|done]. exfalso.
    assert (Hd : forall l : jsstring,
              head (dropWhile isWhiteSpace l) = Some c -> False).
    { induction l as [|x l IH]; simpl; [done|].
      destruct (isWhiteSpace x) eqn:Ex; [done|]. simpl. intros [= ->].
      congruence. }
    set (a := dropWhile isWhiteSpace s) in *.
    assert (Hsuf : forall l : jsstring,
              head (rev (dropWhile isWhiteSpace (rev l))) = Some c ->
              head l = Some c).
    { intros l. induction l as [|x l IH] using rev_ind; [done|].
      rewrite rev_app_distr. simpl.
      destruct (isWhiteSpace x) eqn:Ex.
      - intros H. apply IH in H. destruct l; [done|]. done.
      - simpl. rewrite rev_involutive. done. }
    apply Hsuf in Hc. by apply (Hd s).
  - unfold trim, trimEnd. intros c Hc.
    set (a := rev (trimStart s)) in *.
    destruct (isWhiteSpace c) eqn:E; [|done]. exfalso.
    assert (Hd : forall l : jsstring,
              head (dropWhile isWhiteSpace l) = Some c -> False).
    { induction l as [|x l IH]; simpl; [done|].
      destruct (isWhiteSpace x) eqn:Ex; [done|]. simpl. intros [= ->].
      congruence. }
    apply (Hd a).
    destruct (dropWhile isWhiteSpace a) as [|x l]; [done|].
    simpl in Hc. rewrite last_snoc in Hc. done.
Qed.

Lemma addPeriods_tier fromRaw toRaw ptype fareNum wf wt src ps st x :
  x ∈ fares
        (fold_left (addPeriod fromRaw toRaw ptype fareNum wf wt src) ps st) ->
  x ∈ fares st \/ priceType x = ptype.
Proof.
  intros H. apply addPeriods_fares in H as [H|(_ & _ & H & _)]; auto.
Qed.

Lemma addRow_tier h src st r x :
  x ∈ fares (addRow h src st r) ->
  x ∈ fares st
  \/ (priceType x <> [] /\ trim (priceType x) = priceType x).
Proof.
  unfold addRow. destruct (isEmpty _ || isEmpty _); [auto|].
  intros H. apply addPeriods_tier in H as [H| ->]; [auto|]. right.
  destruct (isEmpty (trim (prop _ "priceType"))) eqn:E.
  - split; [vm_compute; discriminate|vm_compute; reflexivity].
  - split; [|apply trim_trim]. intros Hn. by rewrite Hn in E.
Qed.

Lemma addRows_tier h src rows st x :
  x ∈ fares (fold_left (addRow h src) rows st) ->
  x ∈ fares st
  \/ (priceType x <> [] /\ trim (priceType x) = priceType x).
Proof.
  revert st. induction rows as [|r rows IH]; intros st; simpl; [auto|].
  intros H. apply IH in H as [H|H]; [|auto]. by apply addRow_tier in H.
Qed.


(** X4.  Rows appended to a sheet leave the records of the sheet in place: the
    records built from [rows ++ more] start with those built from [rows]. *)
Theorem faresRows_append_only
    (h : Host) (rows more : list JsObject) (src url : jsstring)
    (aliasRows : list JsObject) :
  exists added,
    faresRows (buildDBFromRows h (rows ++ more) src url aliasRows)
    = faresRows (buildDBFromRows h rows src url aliasRows) ++ added.
Proof.
  unfold buildDBFromRows. cbn [faresRows]. rewrite fold_left_app.
  apply fold_appends. intros st r. apply addRow_appends.
Qed.

(** *** Which of the offered records are kept *)

Lemma addPeriod_offer (rr : gmap jsstring jsstring)
    (fromRaw toRaw ptype src : jsstring) (wf wt : option Date)
    (ps : list (Date * Date)) (st : BuildState) :
  fold_left (addPeriod fromRaw toRaw ptype (fareOf rr) wf wt src) ps st
  = fold_left offer
      (omap
         (fun p =>
            match alignToWholeRange (Some (fst p)) (Some (snd p)) wf wt with
            | Some (alignedFrom, alignedTo) =>
              Some {| from := fromRaw; to := toRaw; priceType := ptype;
                      fare := fareOf rr; validFrom := alignedFrom;
                      validTo := alignedTo; source := src |}
            | None => None
            end) ps) st.
Proof.
  revert st. induction ps as [|p ps IH]; intros st; [done|].
  cbn [fold_left omap list_omap]. rewrite IH. unfold addPeriod.
  destruct (alignToWholeRange _ _ wf wt) as [[d1 d2]| ]; [|done].
  cbn [fold_left]. f_equal.
Qed.

Lemma addRow_offer (h : Host) (src : jsstring) (st : BuildState)
    (r : JsObject) :
  addRow h src st r = fold_left offer (candidates h src r) st.
Proof.
  unfold addRow, candidates.
  destruct (isEmpty _ || isEmpty _); [done|]. apply addPeriod_offer.
Qed.

Lemma addRows_offer (h : Host) (src : jsstring) (rows : list JsObject)
    (st : BuildState) :
  fold_left (addRow h src) rows st
  = fold_left offer (flat_map (candidates h src) rows) st.
Proof.
  revert st. induction rows as [|r rows IH]; intros st; [done|].
  cbn [fold_left flat_map]. by rewrite fold_left_app, IH, addRow_offer.
Qed.

Lemma offer_firstOfKey (l : list FareRecord) (st : BuildState)
    (keys : list jsstring) :
  (forall k, k ∈ seen st <-> k ∈ keys) ->
  fares (fold_left offer l st) = fares st ++ firstOfKey keys l.
Proof.
  revert st keys. induction l as [|x l IH]; intros st keys Hk.
  { cbn. by rewrite app_nil_r. }
  cbn [fold_left firstOfKey]. unfold offer at 2.
  destruct (decide (uniqKey x ∈ keys)) as [Hin|Hnin].
  - rewrite (bool_decide_eq_true_2 (uniqKey x ∈ seen st)) by (by apply Hk).
    rewrite (bool_decide_eq_true_2 (uniqKey x ∈ keys)) by done.
    by apply IH.
  - rewrite (bool_decide_eq_false_2 (uniqKey x ∈ seen st))
      by (by rewrite Hk).
    rewrite (bool_decide_eq_false_2 (uniqKey x ∈ keys)) by done.
    rewrite (IH _ (uniqKey x :: keys)); cbn [fares seen].
    + by rewrite <- app_assoc.
    + intros k. rewrite elem_of_union, elem_of_singleton, elem_of_cons, Hk.
      done.
Qed.

Lemma elem_of_firstOfKey (l : list FareRecord) (keys : list jsstring)
    (x : FareRecord) :
  x ∈ firstOfKey keys l
  <-> exists before after,
        l = before ++ x :: after /\ (uniqKey x ∉ keys)
        /\ forall z, z ∈ before -> uniqKey z <> uniqKey x.
Proof.
  revert keys. induction l as [|y l IH]; intros keys.
  { split; [intros H; by apply elem_of_nil in H|].
    intros (before & after & H & _). by destruct before. }
  cbn [firstOfKey]. case_bool_decide as Hy.
  - rewrite IH. split.
    + intros (before & after & -> & Hx & Hb).
      exists (y :: before), after. split; [done|]. split; [done|].
      intros z Hz. apply elem_of_cons in Hz as [->|Hz]; [|by apply Hb].
      intros He. by rewrite He in Hy.
    + intros (before & after & Hl & Hx & Hb).
      destruct before as [|y' before]; simplify_eq/=; [done|].
      exists before, after. split; [done|]. split; [done|].
      intros z Hz. apply Hb. by right.
  - rewrite elem_of_cons, IH. split.
    + intros [->|(before & after & -> & Hx & Hb)].
      * exists [], l. split; [done|]. split; [done|].
        intros z Hz. by apply elem_of_nil in Hz.
      * apply not_elem_of_cons in Hx as [Hne Hx].
        exists (y :: before), after. split; [done|]. split; [done|].
        intros z Hz. apply elem_of_cons in Hz as [->|Hz]; [done|].
        by apply Hb.
    + intros (before & after & Hl & Hx & Hb).
      destruct before as [|y' before]; simplify_eq/=; [by left|].
      right. exists before, after. split; [done|]. split.
      * apply not_elem_of_cons. split; [|done].
        intros He. apply (Hb y'); [left|done].
      * intros z Hz. apply Hb. by right.
Qed.

(** X5.  The records of a built table are the records that the rows offer,
    row after row and period after period, without those whose key
    (origin, destination, tier and validity dates) an earlier offered
    record has: of the records with one key the first is kept, with its
    fare, and no two records of the table have the same key. *)
Theorem faresRows_distinct
    (h : Host) (rows : list JsObject) (src url : jsstring)
    (aliasRows : list JsObject) :
  let db := buildDBFromRows h rows src url aliasRows in
  let offered := flat_map (candidates h src) rows in
  faresRows db = firstOfKey [] offered
  /\ (forall x,
        x ∈ faresRows db
        <-> exists before after,
              offered = before ++ x :: after
              /\ forall z, z ∈ before -> uniqKey z <> uniqKey x)
  /\ (forall i j x y,
        faresRows db !! i = Some x -> faresRows db !! j = Some y -> i <> j ->
        uniqKey x <> uniqKey y
        /\ ~ (from x = from y /\ to x = to y /\ priceType x = priceType y
              /\ validFrom x = validFrom y /\ validTo x = validTo y)).
Proof.
  intros db offered.
  assert (Hfares : faresRows db = firstOfKey [] offered).
  { unfold db, buildDBFromRows. cbn [faresRows]. rewrite addRows_offer.
    rewrite (offer_firstOfKey _ _ []); [done|].
    intros k. cbn [seen]. rewrite elem_of_empty. split; [done|].
    intros H. by apply elem_of_nil in H. }
  split; [done|]. split.
  - intros x. rewrite Hfares, elem_of_firstOfKey.
    split; intros (before & after & H); exists before, after.
    + destruct H as (? & _ & ?). done.
    + destruct H as (? & ?). split; [done|]. split; [|done].
      intros Hn. by apply elem_of_nil in Hn.
  - intros i j x y Hi Hj Hne.
    assert (Hk : uniqKey x <> uniqKey y).
    { intros Hk. apply Hne.
      pose proof (inv_nodup _ (tableInv_build h rows src)) as Hnd.
      apply (NoDup_lookup _ i j (uniqKey x) Hnd).
      - rewrite list_lookup_fmap. unfold db, buildDBFromRows in Hi.
        cbn [faresRows] in Hi. by rewrite Hi.
      - rewrite list_lookup_fmap. unfold db, buildDBFromRows in Hj.
        cbn [faresRows] in Hj. rewrite Hj. simpl. by rewrite Hk. }
    split; [done|]. intros (H1 & H2 & H3 & H4 & H5). apply Hk.
    unfold uniqKey. by rewrite H1, H2, H3, H4, H5.
Qed.

(** X6.  The places of a built table are the origins and destinations of its
    records, each listed once; the table has no place exactly when it has
    no record. *)
Theorem places_of_records
    (h : Host) (rows : list JsObject) (src url : jsstring)
    (aliasRows : list JsObject) :
  let db := buildDBFromRows h rows src url aliasRows in
  (forall p, p ∈ places db
             <-> exists x, x ∈ faresRows db /\ (from x = p \/ to x = p))
  /\ NoDup (places db)
  /\ (places db = [] <-> faresRows db = []).
Proof.
  intros db.
  pose proof (tableInv_build h rows src) as [_ _ Hpl Hnd].
  assert (Hin : forall p, p ∈ places db
             <-> exists x, x ∈ faresRows db /\ (from x = p \/ to x = p)).
  { intros p. unfold db, buildDBFromRows. cbn [places faresRows].
    rewrite elem_of_sort. apply Hpl. }
  split; [exact Hin|]. split.
  - unfold db, buildDBFromRows. cbn [places].
    by rewrite sort_perm.
  - assert (Hnil : forall {A} (l : list A), (forall a, a ∉ l) -> l = []).
    { intros A l Hl. destruct l as [|a l]; [done|].
      exfalso. apply (Hl a). left. }
    split; intros He.
    + apply Hnil. intros x Hx.
      assert (Hp : from x ∈ places db) by (apply Hin; eauto).
      rewrite He in Hp. by apply elem_of_nil in Hp.
    + apply Hnil. intros p Hp.
      apply Hin in Hp as (x & Hx & _). rewrite He in Hx.
      by apply elem_of_nil in Hx.
Qed.

(** X7.  Every record of a built table has a non-empty origin, destination and
    tier, none of them with white space at either end, and carries the
    name of the source it was built from. *)
Theorem faresRows_fields
    (h : Host) (rows : list JsObject) (src url : jsstring)
    (aliasRows : list JsObject) (x : FareRecord) :
  x ∈ faresRows (buildDBFromRows h rows src url aliasRows) ->
  (from x <> [] /\ trim (from x) = from x)
  /\ (to x <> [] /\ trim (to x) = to x)
  /\ (priceType x <> [] /\ trim (priceType x) = priceType x)
  /\ source x = src.
Proof.
  intros Hx.
  pose proof Hx as Hp. apply faresRows_producedBy in Hp as (r & _ & Hp).
  destruct Hp as (Hf & Hfn & Ht & Htn & _ & Hs & _).
  split; [split; [done|rewrite Hf; apply trim_trim]|].
  split; [split; [done|rewrite Ht; apply trim_trim]|].
  split; [|done].
  unfold buildDBFromRows in Hx. cbn [faresRows] in Hx.
  apply addRows_tier in Hx as [Hx|Hx]; [|done].
  simpl in Hx. by apply elem_of_nil in Hx.
Qed.

End Table.

Section RouteIndex.
Import App Spec Behaviour.

(** *** Grouping by route key *)

Lemma recordsOf_snoc (k : jsstring) (l : list FareRecord) (x : FareRecord) :
  recordsOf k (l ++ [x])
  = recordsOf k l ++ (if bool_decide (routeKey x = k) then [x] else []).
Proof. unfold recordsOf. by rewrite List.filter_app. Qed.

Lemma grouped_step map l row :
  grouped map l ->
  grouped (<[routeKey row := default [] (map !! routeKey row) ++ [row]]> map)
          (l ++ [row]).
Proof.
  intros Hg k. rewrite recordsOf_snoc.
  destruct (decide (routeKey row = k)) as [<-|Hne].
  - rewrite lookup_insert_eq, bool_decide_eq_true_2 by done.
    rewrite Hg. destruct (recordsOf (routeKey row) l); done.
  - rewrite lookup_insert_ne, bool_decide_eq_false_2, app_nil_r by done.
    apply Hg.
Qed.

Lemma grouped_fold (fares : list FareRecord) map l :
  grouped map l ->
  grouped
    (fold_left
       (fun map row =>
          let k := routeKey row in
          <[k := default [] (map !! k) ++ [row]]> map)
       fares map)
    (l ++ fares).
Proof.
  revert map l. induction fares as [|x fares IH]; intros map l Hg; simpl.
  - by rewrite app_nil_r.
  - replace (l ++ x :: fares) with ((l ++ [x]) ++ fares)
      by (by rewrite <- app_assoc).
    apply IH. by apply grouped_step.
Qed.

(** The entry of a key in the route index: the records of the key, sorted;
    no entry when there is none. *)
Lemma routeIndex_lookup (fares : list FareRecord) (k : jsstring) :
  routeIndex fares !! k
  = match recordsOf k fares with
    | [] => None
    | g => Some (sort cmpRoute g)
    end.
Proof.
  unfold routeIndex. rewrite lookup_fmap.
  pose proof (grouped_fold fares ∅ []) as Hg. simpl in Hg.
  rewrite Hg.
  - by destruct (recordsOf k fares).
  - intros k'. by rewrite lookup_empty.
Qed.

Lemma elem_of_recordsOf (k : jsstring) (l : list FareRecord) (x : FareRecord) :
  x ∈ recordsOf k l <-> x ∈ l /\ routeKey x = k.
Proof.
  unfold recordsOf. rewrite !list_elem_of_In, filter_In, bool_decide_eq_true.
  done.
Qed.

(** *** The comparator of the route lists *)

Lemma cmpRoute_spec (a b : FareRecord) : cmpRoute a b <= 0 <-> earlier a b.
Proof.
  unfold cmpRoute, earlier, getTime, msPerDay.
  destruct (_ =? 0) eqn:E1; simpl;
    first [apply Z.eqb_eq in E1 | apply Z.eqb_neq in E1];
    [|lia].
  destruct (_ =? 0) eqn:E2; simpl;
    first [apply Z.eqb_eq in E2 | apply Z.eqb_neq in E2]; lia.
Qed.

Lemma cmpRoute_total (a b : FareRecord) : cmpRoute a b <= 0 \/ cmpRoute b a <= 0.
Proof. rewrite !cmpRoute_spec. unfold earlier. lia. Qed.

Lemma cmpRoute_trans (a b c : FareRecord) :
  cmpRoute a b <= 0 -> cmpRoute b c <= 0 -> cmpRoute a c <= 0.
Proof. rewrite !cmpRoute_spec. unfold earlier. lia. Qed.

Lemma ascending_ordered (l : list FareRecord) :
  ascending cmpRoute l -> ordered earlier l.
Proof.
  induction l as [|x l IH]; simpl; [done|].
  intros [Hx Hl]. split; [|by apply IH].
  intros y Hy. by apply cmpRoute_spec, Hx.
Qed.

(** X8.  The route index of a built table lists under a key exactly the records
    of the table that have the key, earliest validity first; a key without
    record has no entry, and no entry is an empty list. *)
Theorem routeMap_entries
    (h : Host) (rows : list JsObject) (src url : jsstring)
    (aliasRows : list JsObject) (k : jsstring) :
  let db := buildDBFromRows h rows src url aliasRows in
  (routeMap db !! k = None
   <-> forall x, x ∈ faresRows db -> routeKey x <> k)
  /\ (forall l, routeMap db !! k = Some l ->
        l <> []
        /\ l ≡ₚ recordsOf k (faresRows db)
        /\ ordered earlier l).
Proof.
  intros db. unfold db, buildDBFromRows. cbn [routeMap faresRows].
  set (fs := fares _). rewrite routeIndex_lookup.
  destruct (recordsOf k fs) as [|x0 g] eqn:E.
  - split; [|done]. split; [|done]. intros _ x Hx Hk.
    assert (Hin : x ∈ recordsOf k fs) by (by apply elem_of_recordsOf).
    rewrite E in Hin. by apply elem_of_nil in Hin.
  - split.
    + split; [done|]. intros Hno. exfalso.
      assert (Hin : x0 ∈ recordsOf k fs) by (rewrite E; left).
      apply elem_of_recordsOf in Hin as [Hin Hk]. by apply (Hno x0).
    + intros l [= <-]. split; [|split].
      * intros Hn. assert (Hin : x0 ∈ sort cmpRoute (x0 :: g))
          by (apply elem_of_sort; left).
        rewrite Hn in Hin. by apply elem_of_nil in Hin.
      * apply sort_perm.
      * apply ascending_ordered, sort_ascending.
        -- apply cmpRoute_total.
        -- apply cmpRoute_trans.
Qed.

(** *** Search on a built table *)

Lemma pickBest_is_Some (l : list FareRecord) (d : Date) :
  is_Some (pickBest l d) <-> exists c, c ∈ l /\ covers c d.
Proof.
  split.
  - intros [r Hr]. apply pickBest_Some in Hr as (? & ? & _). eauto.
  - intros (c & Hc & Hcov). destruct (pickBest l d) eqn:E; [done|].
    exfalso. by apply (proj1 (pickBest_None l d) E c).
Qed.

Lemma routeMap_list
    (h : Host) (rows : list JsObject) (src url : jsstring)
    (aliasRows : list JsObject) (k : jsstring) (x : FareRecord) :
  let db := buildDBFromRows h rows src url aliasRows in
  x ∈ default [] (routeMap db !! k) <-> x ∈ faresRows db /\ routeKey x = k.
Proof.
  intros db. unfold db, buildDBFromRows. cbn [routeMap faresRows].
  set (fs := fares _). rewrite routeIndex_lookup, <- elem_of_recordsOf.
  destruct (recordsOf k fs) as [|x0 g] eqn:E; [done|].
  simpl. apply elem_of_sort.
Qed.

Lemma findFare_queryKey (db : DB) (d : Date) (a b : jsstring) :
  findFare db d a b
  = let f := resolvePlace db a in
    let t := resolvePlace db b in
    let listFT := default [] (routeMap db !! queryKey db a b) in
    let listTF := default [] (routeMap db !! queryKey db b a) in
    let hasAnyRoute :=
      (0 <? List.length listFT)%nat || (0 <? List.length listTF)%nat in
    match pickBest listFT d with
    | Some best =>
      {| MatchResult.hit := true; MatchResult.row := Some best;
         MatchResult.from := f; MatchResult.to := t;
         MatchResult.tried := [arrow f t];
         MatchResult.hasAnyRoute := hasAnyRoute;
         MatchResult.usedReverse := Some false |}
    | None =>
      match pickBest listTF d with
      | Some best =>
        {| MatchResult.hit := true; MatchResult.row := Some best;
           MatchResult.from := f; MatchResult.to := t;
           MatchResult.tried := [arrow f t; arrow t f];
           MatchResult.hasAnyRoute := hasAnyRoute;
           MatchResult.usedReverse := Some true |}
      | None =>
        {| MatchResult.hit := false; MatchResult.row := None;
           MatchResult.from := f; MatchResult.to := t;
           MatchResult.tried := [arrow f t; arrow t f];
           MatchResult.hasAnyRoute := hasAnyRoute;
           MatchResult.usedReverse := None |}
      end
    end.
Proof. reflexivity. Qed.

Lemma findFare_hit_is_Some (db : DB) (d : Date) (a b : jsstring) :
  MatchResult.hit (findFare db d a b) = true
  <-> is_Some (pickBest (default [] (routeMap db !! queryKey db a b)) d)
      \/ is_Some (pickBest (default [] (routeMap db !! queryKey db b a)) d).
Proof.
  unfold findFare, queryKey.
  destruct (pickBest _ d) as [r|] eqn:EF; cbn [MatchResult.hit].
  { split; [intros _; left; eauto|done]. }
  destruct (pickBest (default [] (routeMap db !! (normKey (resolvePlace db b) ++ _))) d)
    as [r|] eqn:ER; cbn [MatchResult.hit].
  { split; [intros _; right; eauto|done]. }
  split; [done|]. intros [[? H]|[? H]]; [done|].
  pose proof (eq_trans (eq_sym ER) H). done.
Qed.

Lemma findFare_hasAnyRoute (db : DB) (d : Date) (a b : jsstring) :
  MatchResult.hasAnyRoute (findFare db d a b) = true
  <-> default [] (routeMap db !! queryKey db a b) <> []
      \/ default [] (routeMap db !! queryKey db b a) <> [].
Proof.
  assert (Hany : MatchResult.hasAnyRoute (findFare db d a b)
                 = (0 <? List.length (default [] (routeMap db !! queryKey db a b)))%nat
                   || (0 <? List.length (default [] (routeMap db !! queryKey db b a)))%nat).
  { unfold findFare, queryKey.
    destruct (pickBest _ d); [done|]. destruct (pickBest _ d); done. }
  rewrite Hany, orb_true_iff, !Nat.ltb_lt.
  destruct (default [] (routeMap db !! queryKey db a b)),
           (default [] (routeMap db !! queryKey db b a)); simpl;
    split; intros [?|?]; try lia; try congruence; auto with lia.
Qed.

(** X9.  On a built table [findFare] hits exactly when some record of the table
    covers the date and has the route key of the resolved query, in the
    asked or in the opposite direction; [hasAnyRoute] says that the table has
    a record with one of these two keys, whatever its dates. *)
Theorem findFare_hit_iff
    (h : Host) (rows : list JsObject) (src url : jsstring)
    (aliasRows : list JsObject) (d : Date) (a b : jsstring) :
  let db := buildDBFromRows h rows src url aliasRows in
  let res := findFare db d a b in
  (MatchResult.hit res = true
   <-> exists x, x ∈ faresRows db /\ covers x d
         /\ (routeKey x = queryKey db a b \/ routeKey x = queryKey db b a))
  /\ (MatchResult.hasAnyRoute res = true
      <-> exists x, x ∈ faresRows db
            /\ (routeKey x = queryKey db a b \/ routeKey x = queryKey db b a)).
Proof.
  intros db res. split.
  - unfold res. rewrite findFare_hit_is_Some, !pickBest_is_Some. split.
    + intros [(c & Hc & Hcov)|(c & Hc & Hcov)];
        apply routeMap_list in Hc as [Hc Hk]; eauto 8.
    + intros (x & Hx & Hcov & [Hk|Hk]); [left|right]; exists x;
        (split; [|done]); by apply routeMap_list.
  - unfold res. rewrite findFare_hasAnyRoute.
    split.
    + intros [Hne|Hne].
      * destruct (default [] (routeMap db !! queryKey db a b)) as [|x l] eqn:E;
          [done|].
        assert (Hx : x ∈ default [] (routeMap db !! queryKey db a b))
          by (rewrite E; left).
        apply routeMap_list in Hx as [Hx Hk]. eauto.
      * destruct (default [] (routeMap db !! queryKey db b a)) as [|x l] eqn:E;
          [done|].
        assert (Hx : x ∈ default [] (routeMap db !! queryKey db b a))
          by (rewrite E; left).
        apply routeMap_list in Hx as [Hx Hk]. eauto.
    + intros (x & Hx & [Hk|Hk]); [left|right]; intros Hn;
        assert (Hin : x ∈ default [] (routeMap db !! routeKey x))
          by (by apply routeMap_list);
        rewrite Hk, Hn in Hin; by apply elem_of_nil in Hin.
Qed.


(** X10.  The record that [findFare] returns on a built table is a record of the
    table that covers the date, has the route key of the resolved query in
    the direction the result reports, and is at least as good, in the
    three-level order, as every record of the table with that key that
    covers the date. *)
Theorem findFare_row_of_table
    (h : Host) (rows : list JsObject) (src url : jsstring)
    (aliasRows : list JsObject) (d : Date) (a b : jsstring) (r : FareRecord) :
  let db := buildDBFromRows h rows src url aliasRows in
  let res := findFare db d a b in
  MatchResult.row res = Some r ->
  r ∈ faresRows db /\ covers r d
  /\ exists k,
       (MatchResult.usedReverse res = Some false /\ k = queryKey db a b
        \/ MatchResult.usedReverse res = Some true /\ k = queryKey db b a)
       /\ routeKey r = k
       /\ forall c, c ∈ faresRows db -> routeKey c = k -> covers c d ->
            atLeastAsGood r c.
Proof.
  intros db res. unfold res. rewrite findFare_queryKey. cbv zeta.
  assert (Hbest : forall k, pickBest (default [] (routeMap db !! k)) d = Some r ->
            r ∈ faresRows db /\ covers r d /\ routeKey r = k
            /\ forall c, c ∈ faresRows db -> routeKey c = k -> covers c d ->
                 atLeastAsGood r c).
  { intros k Hk. apply pickBest_Some in Hk as (Hin & Hcov & Hopt).
    apply routeMap_list in Hin as [Hin Hkey].
    split; [done|]. split; [done|]. split; [done|].
    intros c Hc Hck Hcc. apply Hopt; [|done]. by apply routeMap_list. }
  destruct (pickBest (default [] (routeMap db !! queryKey db a b)) d)
    as [x|] eqn:EF;
    cbn [MatchResult.row MatchResult.usedReverse].
  { intros [= ->]. apply Hbest in EF as (? & ? & ? & ?).
    split; [done|]. split; [done|]. exists (queryKey db a b). auto. }
  destruct (pickBest (default [] (routeMap db !! queryKey db b a)) d)
    as [x|] eqn:ER;
    cbn [MatchResult.row MatchResult.usedReverse]; [|done].
  intros [= ->]. apply Hbest in ER as (? & ? & ? & ?).
  split; [done|]. split; [done|]. exists (queryKey db b a). auto.
Qed.

(** X11.  Asking for a route in the opposite direction changes neither whether a
    fare is found nor whether the route is known; and a fare found through
    the reverse entry is the one that the opposite query finds directly. *)
Theorem findFare_opposite_query (db : DB) (d : Date) (a b : jsstring) :
  MatchResult.hit (findFare db d b a) = MatchResult.hit (findFare db d a b)
  /\ MatchResult.hasAnyRoute (findFare db d b a)
     = MatchResult.hasAnyRoute (findFare db d a b)
  /\ (MatchResult.usedReverse (findFare db d a b) = Some true ->
      MatchResult.row (findFare db d b a) = MatchResult.row (findFare db d a b)
      /\ MatchResult.usedReverse (findFare db d b a) = Some false).
Proof.
  rewrite !findFare_queryKey. cbv zeta.
  destruct (pickBest (default [] (routeMap db !! queryKey db a b)) d)
    as [x|] eqn:EF;
    destruct (pickBest (default [] (routeMap db !! queryKey db b a)) d)
    as [y|] eqn:ER;
    cbn [MatchResult.hit MatchResult.hasAnyRoute MatchResult.row
         MatchResult.usedReverse];
    (split; [reflexivity|]); (split; [apply orb_comm|]); done.
Qed.

End RouteIndex.

Section PlaceKeys.
Import App Spec Behaviour.

(** *** The place key, unit by unit *)

Lemma lit_brackets :
  brackets = [40; 41; 65288; 65289; 91; 93; 12304; 12305]%N.
Proof. reflexivity. Qed.

Lemma lit_dots : lit "・･" = [12539; 65381]%N.
Proof. reflexivity. Qed.

Lemma lit_dashes : lit "‐‑–—−" = [8208; 8209; 8211; 8212; 8722]%N.
Proof. reflexivity. Qed.

Lemma filter_dropWhile {A} (p q : A -> bool) (l : list A) :
  (forall x, q x = true -> p x = false) ->
  List.filter p (dropWhile q l) = List.filter p l.
Proof.
  intros H. induction l as [|x l IH]; simpl; [done|].
  destruct (q x) eqn:E; [|done]. by rewrite (H x E).
Qed.

Lemma removeAll_trim (p : N -> bool) (s : jsstring) :
  (forall c, isWhiteSpace c = true -> p c = true) ->
  removeAll p (trim s) = removeAll p s.
Proof.
  intros H. unfold removeAll, trim, trimEnd, trimStart.
  assert (Hq : forall x, isWhiteSpace x = true -> negb (p x) = false)
    by (intros x Hx; by rewrite (H x Hx)).
  rewrite <- (filter_dropWhile _ isWhiteSpace s Hq).
  set (a := dropWhile isWhiteSpace s).
  rewrite <- (rev_involutive (List.filter _ (rev _))).
  rewrite <- (rev_involutive (List.filter _ a)).
  f_equal.
  assert (Hrev : forall l : jsstring,
            rev (List.filter (fun c => negb (p c)) l)
            = List.filter (fun c => negb (p c)) (rev l)).
  { induction l as [|x l IH]; simpl; [done|].
    rewrite List.filter_app, <- IH. simpl.
    destruct (negb (p x)); simpl; [done|by rewrite app_nil_r]. }
  rewrite !Hrev, rev_involutive. by apply filter_dropWhile.
Qed.

Lemma unitKey_normKey (s : jsstring) :
  normKey s = flat_map unitKey s.
Proof.
  unfold normKey, norm.
  rewrite removeAll_trim by (intros c ->; done).
  unfold removeAll, replaceAll, toLowerCase.
  induction s as [|c s IH]; [done|].
  cbn [List.filter flat_map]. unfold unitKey at 1.
  destruct (isWhiteSpace c || (c =? 12288)%N) eqn:E; cbn [negb].
  - assert (Hw : isWhiteSpace c = true).
    { apply orb_true_iff in E as [E|E]; [done|].
      apply N.eqb_eq in E. by subst c. }
    rewrite Hw. exact IH.
  - apply orb_false_iff in E as [Hw _]. rewrite Hw. cbv zeta.
    cbn [List.map List.filter].
    set (u := lowerUnit (if inClass (lit "‐‑–—−") c then 45%N else c)).
    destruct (inClass (lit "・･") u); cbn [negb List.filter]; [exact IH|].
    destruct (inClass brackets u); cbn [negb]; [exact IH|].
    by rewrite IH.
Qed.


(** Beyond the Basic Multilingual Plane's units nothing is changed. *)
Lemma lowerUnit_high (c : N) : (65536 <= c)%N -> lowerUnit c = c.
Proof.
  intros Hc. unfold lowerUnit.
  repeat match goal with
  | |- context [(?a =? ?b)%N] => rewrite (proj2 (N.eqb_neq a b)) by lia
  | |- context [(?a <=? ?b)%N] =>
    first [rewrite (proj2 (N.leb_le a b)) by lia
          |rewrite (proj2 (N.leb_gt a b)) by lia]
  end.
  reflexivity.
Qed.

Lemma allFrom_spec (P : N -> bool) (lo : N) (n : nat) :
  allFrom P lo n = true ->
  forall c, (lo <= c < lo + N.of_nat n)%N -> P c = true.
Proof.
  revert lo. induction n as [|k IH]; intros lo H c Hc; [lia|].
  cbn [allFrom] in H. apply andb_true_iff in H as [H0 H1].
  destruct (N.eq_dec c lo) as [->|Hne]; [done|].
  apply (IH (N.succ lo) H1). lia.
Qed.

(** A property of the code units, decided unit by unit. *)
Lemma forall_units (P : N -> bool) :
  allFrom P 0 (N.to_nat 65536) = true ->
  forall c, (c < 65536)%N -> P c = true.
Proof.
  intros H c Hc. apply (allFrom_spec P 0 (N.to_nat 65536) H). lia.
Qed.

(** A unit that [toLowerCase] changes is a letter: it is no white space and
    no dash, and its lower-case form is no white space, no dash and is its
    own lower-case form. *)
Lemma lowerUnit_letter (c : N) :
  lowerUnit c <> c ->
  isWhiteSpace c = false /\ inClass (lit "‐‑–—−") c = false
  /\ isWhiteSpace (lowerUnit c) = false
  /\ inClass (lit "‐‑–—−") (lowerUnit c) = false
  /\ lowerUnit (lowerUnit c) = lowerUnit c.
Proof.
  intros Hne.
  destruct (N.lt_ge_cases c 65536) as [Hc|Hc];
    [|by rewrite lowerUnit_high in Hne].
  rewrite lit_dashes.
  pose proof (forall_units
    (fun c =>
       (lowerUnit c =? c)%N
       || (negb (isWhiteSpace c)
           && negb (inClass [8208; 8209; 8211; 8212; 8722]%N c)
           && negb (isWhiteSpace (lowerUnit c))
           && negb (inClass [8208; 8209; 8211; 8212; 8722]%N (lowerUnit c))
           && (lowerUnit (lowerUnit c) =? lowerUnit c)%N))) as H.
  specialize (H ltac:(vm_compute; reflexivity) c Hc). cbv beta in H.
  apply orb_true_iff in H as [H|H]; [by apply N.eqb_eq in H|].
  rewrite !andb_true_iff, !negb_true_iff, N.eqb_eq in H.
  destruct H as ((((? & ?) & ?) & ?) & ?). done.
Qed.

(** The repertoire of the sheets is closed under [toLowerCase] and holds
    the hyphen. *)
Lemma sheetUnit_lowerUnit (c : N) :
  sheetUnit c = true -> sheetUnit (lowerUnit c) = true.
Proof.
  intros Hs.
  destruct (N.lt_ge_cases c 65536) as [Hc|Hc];
    [|by rewrite lowerUnit_high].
  pose proof (forall_units
    (fun c => negb (sheetUnit c) || sheetUnit (lowerUnit c))) as H.
  specialize (H ltac:(vm_compute; reflexivity) c Hc). cbv beta in H.
  by rewrite Hs in H.
Qed.

Lemma lowerUnit_idem (c : N) : lowerUnit (lowerUnit c) = lowerUnit c.
Proof.
  destruct (decide (lowerUnit c = c)) as [He|Hne]; [by rewrite !He|].
  by apply lowerUnit_letter.
Qed.

Lemma unitKey_lowerUnit (c : N) : unitKey (lowerUnit c) = unitKey c.
Proof.
  destruct (decide (lowerUnit c = c)) as [He|Hne]; [by rewrite !He|].
  destruct (lowerUnit_letter c Hne) as (Hw & Hd & Hw' & Hd' & Hl).
  unfold unitKey. by rewrite Hw, Hd, Hw', Hd', Hl.
Qed.

(** A unit of a place key is its own place key. *)
Lemma unitKey_fixed (c u : N) : u ∈ unitKey c -> unitKey u = [u].
Proof.
  unfold unitKey at 1.
  destruct (isWhiteSpace c) eqn:Hw; [intros H; by apply elem_of_nil in H|].
  cbv zeta.
  set (x := if inClass (lit "‐‑–—−") c then 45%N else c).
  destruct (inClass (lit "・･") (lowerUnit x)) eqn:Hdot;
    [intros H; by apply elem_of_nil in H|].
  destruct (inClass brackets (lowerUnit x)) eqn:Hbr;
    [intros H; by apply elem_of_nil in H|].
  intros Hu. apply list_elem_of_singleton in Hu. subst u.
  assert (Hx : isWhiteSpace x = false /\ inClass (lit "‐‑–—−") x = false).
  { unfold x. destruct (inClass (lit "‐‑–—−") c) eqn:Hd; [|done].
    split; reflexivity. }
  destruct Hx as [Hwx Hdx].
  assert (Hlow : isWhiteSpace (lowerUnit x) = false
                 /\ inClass (lit "‐‑–—−") (lowerUnit x) = false).
  { destruct (decide (lowerUnit x = x)) as [He|Hne]; [by rewrite !He|].
    destruct (lowerUnit_letter x Hne) as (_ & _ & ? & ? & _). done. }
  destruct Hlow as [Hwl Hdl].
  unfold unitKey. by rewrite Hwl, Hdl, lowerUnit_idem, Hdot, Hbr.
Qed.

Lemma flat_map_fixed (l : jsstring) :
  (forall u, u ∈ l -> unitKey u = [u]) -> flat_map unitKey l = l.
Proof.
  induction l as [|u l IH]; intros H; simpl; [done|].
  rewrite (H u) by left. simpl. f_equal. apply IH.
  intros v Hv. apply H. by right.
Qed.

Lemma unitKey_sheet (c u : N) :
  sheetUnit c = true -> u ∈ unitKey c -> sheetUnit u = true.
Proof.
  intros Hc. unfold unitKey.
  destruct (isWhiteSpace c); [intros H; by apply elem_of_nil in H|].
  cbv zeta.
  set (x := if inClass (lit "‐‑–—−") c then 45%N else c).
  assert (Hx : sheetUnit x = true) by (unfold x; by destruct (inClass _ c)).
  destruct (inClass (lit "・･") (lowerUnit x));
    [intros H; by apply elem_of_nil in H|].
  destruct (inClass brackets (lowerUnit x));
    [intros H; by apply elem_of_nil in H|].
  intros Hu. apply list_elem_of_singleton in Hu. subst u.
  by apply sheetUnit_lowerUnit.
Qed.

Lemma unitKey_ignored (c : N) :
  isWhiteSpace c = true \/ inClass brackets c = true
  \/ inClass (lit "・･") c = true ->
  unitKey c = [].
Proof.
  intros Hc. unfold unitKey. destruct (isWhiteSpace c) eqn:Hw; [done|].
  destruct Hc as [Hc|Hc]; [done|]. cbv zeta.
  assert (Hl : (if inClass (lit "‐‑–—−") c then 45%N else c) = c
               /\ lowerUnit c = c).
  { revert Hc. rewrite lit_brackets, lit_dots, lit_dashes.
    unfold inClass. cbn [existsb].
    rewrite !orb_false_r, !orb_true_iff, !N.eqb_eq.
    intros Hc. decompose [or] Hc; subst c; split; reflexivity. }
  destruct Hl as [-> ->].
  destruct Hc as [Hc|Hc]; rewrite Hc; [|done].
  by destruct (inClass (lit "・･") c).
Qed.

(** X13.  For texts in the repertoire of the fare sheets, the place key of a
    text is the concatenation of the keys of its parts; a white space, a
    bracket or a middle dot adds nothing to the key wherever it stands; the
    key does not change when the text is put in lower case; the key of a key
    is the key itself, and a key stays in the repertoire. *)
Theorem normKey_insensitive (a b : jsstring) (c : N) :
  Forall (fun u => sheetUnit u = true) a ->
  Forall (fun u => sheetUnit u = true) b ->
  isWhiteSpace c = true \/ inClass brackets c = true
  \/ inClass (lit "・･") c = true ->
  normKey (a ++ b) = normKey a ++ normKey b
  /\ normKey (a ++ c :: b) = normKey (a ++ b)
  /\ normKey (toLowerCase a) = normKey a
  /\ normKey (normKey a) = normKey a
  /\ Forall (fun u => sheetUnit u = true) (normKey a).
Proof.
  intros Ha Hb Hc.
  split; [|split; [|split; [|split]]].
  - rewrite !unitKey_normKey. apply flat_map_app.
  - rewrite !unitKey_normKey, !flat_map_app. cbn [flat_map].
    by rewrite (unitKey_ignored c Hc).
  - rewrite !unitKey_normKey. unfold toLowerCase.
    clear Ha. induction a as [|u a IH]; simpl; [done|].
    by rewrite unitKey_lowerUnit, IH.
  - rewrite (unitKey_normKey (normKey a)).
    apply flat_map_fixed. intros u Hu. rewrite unitKey_normKey in Hu.
    apply list_elem_of_In, in_flat_map in Hu as (x & _ & Hu).
    apply list_elem_of_In in Hu. by apply (unitKey_fixed x).
  - rewrite unitKey_normKey. apply Forall_forall. intros u Hu.
    apply list_elem_of_In, in_flat_map in Hu as (x & Hx & Hu).
    apply list_elem_of_In in Hx, Hu. rewrite Forall_forall in Ha.
    by apply (unitKey_sheet x u (Ha x Hx)).
Qed.

End PlaceKeys.

Section Aliases.
Import App Spec Behaviour.

(** *** Where the entries of the alias table come from *)

Lemma fold_values {B} (P : jsstring -> jsstring -> Prop)
    (step : gmap jsstring jsstring -> B -> gmap jsstring jsstring)
    (l : list B) (m : gmap jsstring jsstring) :
  (forall m b, b ∈ l ->
     (forall k v, m !! k = Some v -> P k v) ->
     forall k v, step m b !! k = Some v -> P k v) ->
  (forall k v, m !! k = Some v -> P k v) ->
  forall k v, fold_left step l m !! k = Some v -> P k v.
Proof.
  revert m. induction l as [|b l IH]; intros m Hstep Hm; simpl; [done|].
  apply IH.
  - intros m' b' Hb'. apply Hstep. by right.
  - apply Hstep; [left|done].
Qed.

Lemma insert_value (P : jsstring -> jsstring -> Prop)
    (m : gmap jsstring jsstring) (k' v' : jsstring) :
  P k' v' -> (forall k v, m !! k = Some v -> P k v) ->
  forall k v, <[k' := v']> m !! k = Some v -> P k v.
Proof.
  intros Hnew Hm k v. destruct (decide (k' = k)) as [->|Hne].
  - rewrite lookup_insert_eq. by intros [= <-].
  - rewrite lookup_insert_ne by done. apply Hm.
Qed.

(** Every entry of the default alias table names a place of the list. *)
Lemma buildAliasDefaultsFromPlaces_places (places : list jsstring)
    (k v : jsstring) :
  buildAliasDefaultsFromPlaces places !! k = Some v -> v ∈ places.
Proof.
  unfold buildAliasDefaultsFromPlaces.
  apply (fold_values (fun _ v => v ∈ places)).
  { intros m [alias canon] _ Hm k' v'.
    destruct (bool_decide (lit canon ∈ places)) eqn:E; simpl; [|apply Hm].
    apply bool_decide_eq_true in E.
    destruct (negb _); [|apply Hm].
    by apply (insert_value (fun _ v => v ∈ places)). }
  apply (fold_values (fun _ v => v ∈ places)).
  { intros m p Hp Hm.
    apply (fold_values (fun _ v => v ∈ places)); [|done].
    intros m' x _ Hm' k' v'. case_bool_decide; [apply Hm'|].
    by apply (insert_value (fun _ v => v ∈ places)). }
  apply (fold_values (fun _ v => v ∈ places)).
  { intros m p Hp Hm.
    by apply (insert_value (fun _ v => v ∈ places)). }
  intros k' v'. by rewrite lookup_empty.
Qed.

Lemma mergeAliases_values (P : jsstring -> jsstring -> Prop)
    (m : gmap jsstring jsstring) (aliasRows : list JsObject) :
  (forall k v, m !! k = Some v -> P k v) ->
  forall k v, mergeAliases m aliasRows !! k = Some v ->
    P k v
    \/ exists a alias, a ∈ aliasRows /\ effective a alias v
         /\ normKey alias = k.
Proof.
  intros Hm. unfold mergeAliases.
  apply (fold_values
           (fun k v => P k v
              \/ exists a alias, a ∈ aliasRows /\ effective a alias v
                   /\ normKey alias = k)); [|by auto].
  intros m' a Ha Hm'.
  destruct (isEmpty _ || isEmpty _) eqn:E; [done|].
  apply orb_false_iff in E as [Ea Ec].
  apply insert_value; [|done].
  right. exists a, (trim (prop (normalizeRowKeys a) "alias")).
  split; [done|]. split; [|done].
  repeat split; try done; intros Hn; by rewrite Hn in *.
Qed.

Lemma normKey_nil_of_trim (s : jsstring) : trim s = [] -> normKey s = [].
Proof. intros H. unfold normKey, norm. by rewrite H. Qed.

Lemma resolvePlace_nil (db : DB) (name : jsstring) :
  resolvePlace db name = [] <-> normKey name = [].
Proof.
  unfold resolvePlace.
  destruct (isEmpty (normKey name)) eqn:E.
  { apply isEmpty_true in E. done. }
  assert (Hk : normKey name <> []) by (intros Hn; by rewrite Hn in E).
  assert (Ht : trim name <> []).
  { intros Hn. by apply Hk, normKey_nil_of_trim. }
  destruct (aliasToCanon db !! normKey name) as [c|]; [|done].
  destruct (isEmpty c) eqn:Ec; [done|].
  split; [|done]. intros Hn. by rewrite Hn in Ec.
Qed.

(** X14.  [resolvePlace] returns the empty string exactly for a name whose place
    key is empty, on any table. *)
Theorem resolvePlace_empty_iff (db : DB) (name : jsstring) :
  resolvePlace db name = [] <-> normKey name = [].
Proof. apply resolvePlace_nil. Qed.

(** X15.  The name that [resolvePlace] returns on a built table is the trimmed
    name itself, a place of the table, or the canonical name of an alias row
    that takes effect and whose alias has the place key of the name; it is
    empty only for a name with an empty place key. *)
Theorem resolvePlace_origin
    (h : Host) (rows : list JsObject) (src url : jsstring)
    (aliasRows : list JsObject) (name : jsstring) :
  let db := buildDBFromRows h rows src url aliasRows in
  let c := resolvePlace db name in
  (c = [] /\ normKey name = [])
  \/ (c <> []
      /\ (c = trim name
          \/ c ∈ places db
          \/ exists a alias, a ∈ aliasRows /\ effective a alias c
               /\ normKey alias = normKey name)).
Proof.
  intros db c.
  destruct (decide (normKey name = [])) as [Hk|Hk].
  { left. split; [|done]. unfold c. by apply resolvePlace_nil. }
  right. split; [unfold c; by rewrite resolvePlace_nil|].
  unfold c, resolvePlace.
  destruct (isEmpty (normKey name)) eqn:E.
  { apply isEmpty_true in E. done. }
  destruct (aliasToCanon db !! normKey name) as [v|] eqn:Ev; [|by left].
  destruct (isEmpty v); [by left|]. right.
  unfold db, buildDBFromRows in Ev. cbn [aliasToCanon] in Ev.
  apply (mergeAliases_values (fun _ v => v ∈ places db)) in Ev; [done|].
  intros k' v'. apply buildAliasDefaultsFromPlaces_places.
Qed.

(** X16.  An alias row that takes effect decides the resolution of every name
    with the place key of its alias, unless a later row that takes effect
    has the same alias key: the last row wins. *)
Theorem alias_row_takes_effect
    (h : Host) (rows : list JsObject) (src url : jsstring)
    (before after : list JsObject) (a : JsObject)
    (alias canon name : jsstring) :
  let db := buildDBFromRows h rows src url (before ++ a :: after) in
  effective a alias canon ->
  (forall a' alias' canon', a' ∈ after -> effective a' alias' canon' ->
     normKey alias' = normKey alias -> canon' = canon) ->
  normKey name = normKey alias -> normKey name <> [] ->
  resolvePlace db name = canon.
Proof.
  intros db (Ha & Hc & Han & Hcn) Hafter Hname Hk.
  assert (Hget : aliasToCanon db !! normKey name = Some canon).
  { unfold db, buildDBFromRows. cbn [aliasToCanon].
    unfold mergeAliases. rewrite fold_left_app. cbn [fold_left].
    apply (mergeAliases_keeps after).
    { intros a' alias' canon' Hin Heff Hkey. eapply Hafter; [done..|].
      by rewrite Hkey. }
    rewrite <- Ha, <- Hc.
    destruct (isEmpty alias) eqn:E1; [by destruct alias|].
    destruct (isEmpty canon) eqn:E2; [by destruct canon|].
    cbn [orb]. rewrite Hname. apply lookup_insert_eq. }
  unfold resolvePlace. rewrite Hget.
  destruct (isEmpty (normKey name)) eqn:E.
  { apply isEmpty_true in E. done. }
  destruct (isEmpty canon) eqn:E2; [by destruct canon|]. done.
Qed.

End Aliases.

Section Rows.
Import App Spec Behaviour.

(** *** Normalized rows *)

Lemma cellsOf_snoc (ck : jsstring) (es : list (jsstring * jsstring))
    (e : jsstring * jsstring) :
  cellsOf ck (es ++ [e])
  = cellsOf ck es
    ++ (if bool_decide (canonicalKey (fst e) = ck) then [trim (snd e)] else []).
Proof.
  unfold cellsOf. rewrite List.filter_app, map_app. simpl.
  by destruct (bool_decide _).
Qed.

Lemma firstNonEmpty_snoc (vals : list jsstring) (v : jsstring) :
  firstNonEmpty (vals ++ [v])
  = match firstNonEmpty vals with
    | None => Some v
    | Some old => if isEmpty old && negb (isEmpty v) then Some v else Some old
    end.
Proof.
  unfold firstNonEmpty. destruct vals as [|v0 vals];
    [destruct v; reflexivity|]. simpl.
  rewrite List.filter_app. simpl.
  destruct (isEmpty v0) eqn:E0; simpl; [|by rewrite E0].
  destruct (List.filter _ vals) as [|w ws] eqn:Ef; simpl.
  - by destruct (isEmpty v).
  - assert (Hw : isEmpty w = false).
    { assert (Hin : In w (List.filter (fun v => negb (isEmpty v)) vals))
        by (rewrite Ef; by left).
      apply filter_In in Hin as [_ Hin]. by apply negb_true_iff in Hin. }
    by rewrite Hw.
Qed.

Lemma normalize_fold (es : list (jsstring * jsstring)) (ck : jsstring) :
  fold_left
    (fun out e =>
       let ck := canonicalKey (fst e) in
       let val := trim (snd e) in
       match out !! ck with
       | None => <[ck := val]> out
       | Some old =>
         if isEmpty old && negb (isEmpty val) then <[ck := val]> out else out
       end)
    es (∅ : gmap jsstring jsstring) !! ck
  = firstNonEmpty (cellsOf ck es).
Proof.
  revert ck. induction es as [|e es IH] using rev_ind; intros ck.
  { cbn [fold_left]. by rewrite lookup_empty. }
  rewrite fold_left_app, cellsOf_snoc. cbn [fold_left]. cbv zeta.
  set (out := fold_left _ es ∅) in *.
  case_bool_decide as Hk.
  - subst ck. rewrite firstNonEmpty_snoc, <- IH.
    destruct (out !! canonicalKey e.1) as [old|] eqn:Eo.
    + destruct (isEmpty old && negb (isEmpty (trim e.2))).
      * by rewrite lookup_insert_eq.
      * done.
    + by rewrite lookup_insert_eq.
  - rewrite app_nil_r, <- IH.
    destruct (out !! canonicalKey e.1) as [old|] eqn:Eo.
    + destruct (isEmpty old && negb (isEmpty (trim e.2))); [|done].
      by rewrite lookup_insert_ne.
    + by rewrite lookup_insert_ne.
Qed.

(** X18.  When several columns of a row have one canonical key, the normalized
    row holds under that key the first non-empty trimmed cell among them, in
    the order of [Object.entries] (the empty text when all are empty); a
    canonical key that no column has is absent. *)
Theorem normalizeRowKeys_first_non_empty (row : JsObject) (ck : jsstring) :
  normalizeRowKeys row !! ck = firstNonEmpty (cellsOf ck (entries row)).
Proof. apply normalize_fold. Qed.


(** *** Row objects *)

Lemma objSet_fresh (k v : jsstring) (o : JsObject) :
  k <> lit "__proto__" -> k ∉ List.map fst o -> objSet k v o = o ++ [(k, v)].
Proof.
  intros Hp. induction o as [|[k' v'] o IH]; intros Hk; simpl.
  - unfold streq. by rewrite bool_decide_eq_false_2.
  - simpl in Hk. apply not_elem_of_cons in Hk as [Hne Hk].
    unfold streq. rewrite bool_decide_eq_false_2 by done.
    fold (streq k' k). by rewrite IH.
Qed.

Lemma rowObject_fresh (header cols : list jsstring) (r : JsObject) :
  NoDup header -> lit "__proto__" ∉ header ->
  (forall k, k ∈ header -> k ∉ List.map fst r) ->
  rowObject header cols r
  = r ++ imap (fun j hd => (hd, trim (default [] (cols !! j)))) header.
Proof.
  revert cols r. induction header as [|hd header IH]; intros cols r Hnd Hp Hr.
  { simpl. by rewrite app_nil_r. }
  apply NoDup_cons in Hnd as [Hhd Hnd].
  apply not_elem_of_cons in Hp as [Hp1 Hp2].
  cbn [rowObject imap].
  rewrite objSet_fresh; [|done|apply Hr; left].
  rewrite IH; [|done|done|].
  - rewrite <- app_assoc. cbn [app]. do 2 f_equal.
    + by destruct cols.
    + apply imap_ext. intros j x _. cbn. by destruct cols.
  - intros k Hk. rewrite map_app. cbn [List.map fst].
    rewrite elem_of_app, list_elem_of_singleton.
    intros [Hin|Heq].
    + revert Hin. apply Hr. by right.
    + by subst.
Qed.

(** X19.  With distinct header labels the row object has one property for
    each label, with the trimmed cell of its column: a column that the row
    does not have reads as the empty text and the cells beyond the header
    are dropped.  [Object.entries] lists the labels that are array indices
    first, in ascending order of their numbers, and then the other labels
    in the order of the header; without such a label it lists the header in
    its order. *)
Theorem rowObject_cells (header cols : list jsstring) :
  NoDup header -> lit "__proto__" ∉ header ->
  let cell := fun (j : nat) hd => (hd, trim (default [] (cols !! j))) in
  let row := rowObject header cols [] in
  entries row ≡ₚ imap cell header
  /\ (exists indexed,
        entries row
        = indexed
          ++ List.filter (fun e => negb (isArrayIndex (fst e)))
               (imap cell header)
        /\ indexed
           ≡ₚ List.filter (fun e => isArrayIndex (fst e)) (imap cell header)
        /\ ascending (fun a b => Number (fst a) - Number (fst b)) indexed)
  /\ (Forall (fun hd => isArrayIndex hd = false) header ->
      entries row = imap cell header).
Proof.
  intros Hnd Hp cell row.
  assert (Hrow : row = imap cell header).
  { unfold row. rewrite rowObject_fresh; [done..|].
    intros k _ Hk. by apply elem_of_nil in Hk. }
  rewrite Hrow. unfold entries. split; [|split].
  - rewrite sort_perm. generalize (imap cell header). intros l.
    induction l as [|e l IH]; [done|]. cbn [List.filter].
    destruct (isArrayIndex (fst e)); cbn [negb app].
    + by rewrite IH.
    + rewrite <- Permutation_middle. by rewrite IH.
  - eexists. split; [reflexivity|]. split; [apply sort_perm|].
    apply sort_ascending; intros; lia.
  - intros Hh.
    assert (Hall : Forall (fun e => isArrayIndex (fst e) = false)
                     (imap cell header)).
    { apply Forall_forall. intros e He.
      apply elem_of_lookup_imap in He as (j & hd & -> & Hj).
      rewrite Forall_forall in Hh. apply Hh.
      by apply (list_elem_of_lookup_2 _ j). }
    assert (Hfilter : forall l : list (jsstring * jsstring),
              Forall (fun e => isArrayIndex (fst e) = false) l ->
              List.filter (fun e => isArrayIndex (fst e)) l = []
              /\ List.filter (fun e => negb (isArrayIndex (fst e))) l = l).
    { induction 1 as [|e l He _ [IH1 IH2]]; [done|].
      cbn [List.filter]. rewrite He. cbn [negb]. by rewrite IH1, IH2. }
    destruct (Hfilter _ Hall) as [-> ->]. done.
Qed.

(** *** Quoted cells *)

Lemma csvScan_quoted (c rest : jsstring) rows cur cell :
  head rest <> Some 34%N ->
  csvScan
    (flat_map (fun u => if (u =? 34)%N then [34; 34]%N else [u]) c
     ++ 34%N :: rest) rows cur cell true
  = csvScan rest rows cur (cell ++ c) false.
Proof.
  intros Hr. revert cell. induction c as [|u c IH]; intros cell.
  - cbn [flat_map app csvScan]. rewrite N.eqb_refl, app_nil_r.
    destruct rest as [|x rest]; [done|].
    destruct (decide (x = 34%N)) as [->|Hx]; [done|].
    destruct x as [|p]; [done|].
    repeat (destruct p as [p|p|]; try done).
  - cbn [flat_map]. destruct (u =? 34)%N eqn:E.
    + apply N.eqb_eq in E. subst u. cbn [app csvScan].
      rewrite N.eqb_refl, IH, <- app_assoc. done.
    + cbn [app csvScan]. rewrite E, IH, <- app_assoc. done.
Qed.

Lemma csvScan_quoteCell (c rest : jsstring) rows cur cell :
  head rest <> Some 34%N ->
  csvScan (quoteCell c ++ rest) rows cur cell false
  = csvScan rest rows cur (cell ++ c) false.
Proof.
  intros Hr. unfold quoteCell. cbn [app csvScan]. rewrite N.eqb_refl.
  rewrite <- app_assoc. cbn [app]. by apply csvScan_quoted.
Qed.

Lemma csvScan_csvLine (cells : list jsstring) (rest : jsstring) rows cur :
  cells <> [] ->
  csvScan (csvLine cells ++ rest) rows cur [] false
  = csvScan rest (rows ++ [cur ++ cells]) [] [] false.
Proof.
  revert cur. induction cells as [|c cells IH]; intros cur Hne; [done|].
  destruct cells as [|c2 cells].
  - cbn [csvLine]. rewrite <- app_assoc.
    rewrite csvScan_quoteCell by done. cbn [app csvScan]. done.
  - change (csvLine (c :: c2 :: cells))
      with (quoteCell c ++ 44%N :: csvLine (c2 :: cells)).
    rewrite <- app_assoc. rewrite csvScan_quoteCell by done.
    cbn [app csvScan]. change (44 =? 34)%N with false.
    change (44 =? 44)%N with true. cbn iota.
    rewrite IH by done. by rewrite <- app_assoc.
Qed.

Lemma csvScan_csvText (lines : list (list jsstring)) rows :
  Forall (fun cells => cells <> []) lines ->
  csvScan (csvText lines) rows [] [] false = (rows ++ lines, [], []).
Proof.
  intros Hall. revert rows.
  induction Hall as [|cells lines Hc _ IH]; intros rows.
  - by rewrite app_nil_r.
  - unfold csvText. cbn [flat_map]. fold (csvText lines).
    rewrite csvScan_csvLine by done. rewrite IH, <- app_assoc. done.
Qed.

(** X20.  A sheet written with every cell in double quotes (the quotes of a cell
    doubled, the cells of a line separated by commas, every line ended by
    a line feed) is read back cell for cell, whatever the cells contain:
    the first line gives the labels, every other line that is not blank
    gives a row object. *)
Theorem parseCSV_quoted (header : list jsstring) (lines : list (list jsstring)) :
  header <> [] -> Forall (fun cells => cells <> []) lines ->
  parseCSV (csvText (header :: lines))
  = List.map
      (fun r => rowObject (List.map (fun hd => trim (stripBOM hd)) header) r [])
      (List.filter (fun r => negb (forallb (fun x => isEmpty (trim x)) r))
         lines).
Proof.
  intros Hh Hl. unfold parseCSV.
  rewrite csvScan_csvText by (by constructor).
  cbn [app isEmpty List.length Nat.eqb negb orb]. done.
Qed.

End Rows.

Section Loading.
Import App Spec Behaviour.

(** *** What the shape test reads in the first row *)

Lemma firstNonEmpty_Some (vals : list jsstring) :
  is_Some (firstNonEmpty vals) <-> vals <> [].
Proof.
  unfold firstNonEmpty. destruct vals; [|split; [done|eauto]].
  split; [intros [? ?]; done|done].
Qed.

Lemma firstNonEmpty_shown (vals : list jsstring) :
  default [] (firstNonEmpty vals) <> [] <-> exists v, v ∈ vals /\ v <> [].
Proof.
  unfold firstNonEmpty. destruct vals as [|v0 vals].
  { split; [done|]. intros (v & Hv & _). by apply elem_of_nil in Hv. }
  cbn [default from_option id].
  set (l := v0 :: vals).
  destruct (List.filter (fun v => negb (isEmpty v)) l) as [|w ws] eqn:E.
  - split; [done|]. intros (v & Hv & Hne). exfalso.
    assert (Hin : In v (List.filter (fun v => negb (isEmpty v)) l)).
    { apply filter_In. split; [by apply list_elem_of_In|by destruct v]. }
    by rewrite E in Hin.
  - assert (Hin : In w (List.filter (fun v => negb (isEmpty v)) l))
      by (rewrite E; by left).
    apply filter_In in Hin as [Hin Hw]. cbn [head default from_option id].
    split; intros _.
    + exists w. split; [by apply list_elem_of_In|by destruct w].
    + by destruct w.
Qed.

Lemma elem_of_cellsOf (ck v : jsstring) (es : list (jsstring * jsstring)) :
  v ∈ cellsOf ck es
  <-> exists e, e ∈ es /\ canonicalKey (fst e) = ck /\ trim (snd e) = v.
Proof.
  unfold cellsOf. rewrite list_elem_of_fmap. split.
  - intros (e & -> & He). apply list_elem_of_In, filter_In in He as [He Hk].
    apply bool_decide_eq_true in Hk. exists e.
    split; [by apply list_elem_of_In|done].
  - intros (e & He & Hk & <-). exists e. split; [done|].
    apply list_elem_of_In, filter_In. split; [by apply list_elem_of_In|].
    by apply bool_decide_eq_true.
Qed.

(** A canonical key reads as non-empty exactly when a column with this key
    has a non-empty cell, and is present exactly when a column has it. *)
Lemma prop_shown (r : JsObject) (key : string) :
  prop (normalizeRowKeys r) key <> []
  <-> exists e, e ∈ entries r /\ canonicalKey (fst e) = lit key
                /\ trim (snd e) <> [].
Proof.
  unfold prop, normalizeRowKeys. rewrite normalize_fold, firstNonEmpty_shown.
  split.
  - intros (v & Hv & Hne). apply elem_of_cellsOf in Hv as (e & ? & ? & <-).
    eauto.
  - intros (e & ? & ? & ?). exists (trim (snd e)). split; [|done].
    apply elem_of_cellsOf. eauto.
Qed.

Lemma column_present (r : JsObject) (key : string) :
  is_Some (normalizeRowKeys r !! lit key)
  <-> exists e, e ∈ entries r /\ canonicalKey (fst e) = lit key.
Proof.
  unfold normalizeRowKeys. rewrite normalize_fold, firstNonEmpty_Some.
  split.
  - intros Hne. destruct (cellsOf (lit key) (entries r)) as [|v vs] eqn:E;
      [done|].
    assert (Hv : v ∈ cellsOf (lit key) (entries r)) by (rewrite E; left).
    apply elem_of_cellsOf in Hv as (e & ? & ? & _). eauto.
  - intros (e & He & Hk) Hnil.
    assert (Hv : trim (snd e) ∈ cellsOf (lit key) (entries r))
      by (apply elem_of_cellsOf; eauto).
    rewrite Hnil in Hv. by apply elem_of_nil in Hv.
Qed.

Lemma firstRowShaped_cells (rows : list JsObject) :
  firstRowShaped rows <-> firstRowCells rows.
Proof.
  unfold firstRowShaped, firstRowCells.
  split; intros (r0 & rest & -> & H1 & H2 & H3); exists r0, rest;
    (split; [done|]).
  - by rewrite <- !prop_shown, <- column_present.
  - by rewrite !prop_shown, column_present.
Qed.

(** *** Rows that offer nothing *)

Lemma flat_map_offering (h : Host) (src : jsstring) (l : list JsObject) :
  flat_map (candidates h src) (List.filter (offers h src) l)
  = flat_map (candidates h src) l.
Proof.
  induction l as [|a l IH]; [done|]. cbn [List.filter flat_map].
  unfold offers at 1. destruct (candidates h src a) as [|b bs] eqn:E.
  - exact IH.
  - cbn [flat_map]. by rewrite E, IH.
Qed.

Lemma candidates_of_row (h : Host) (src : jsstring) (r : JsObject)
    (x : FareRecord) :
  x ∈ candidates h src r ->
  producedBy h src r x
  /\ priceType x
     = (let pt := trim (prop (normalizeRowKeys r) "priceType") in
        if isEmpty pt then lit "通常" else pt).
Proof.
  unfold candidates, producedBy.
  destruct (isEmpty (trim (prop _ "from")) || isEmpty (trim (prop _ "to")))
    eqn:E; [intros H; by apply elem_of_nil in H|].
  apply orb_false_iff in E as [Ef Et].
  intros H. apply list_elem_of_omap in H as (p & Hp & Hx).
  destruct (alignToWholeRange _ _ _ _) as [[d1 d2]| ] eqn:Ea; [|done].
  injection Hx as <-. cbn.
  split; [|done].
  split; [done|]. split; [intros Hn; by rewrite Hn in Ef|].
  split; [done|]. split; [intros Hn; by rewrite Hn in Et|].
  split; [done|]. split; [done|]. eauto.
Qed.

(** C8 (as amended).  The rows of a loaded text are those of its TSV or of
    its CSV reading.  The load throws exactly when the first of these rows
    does not show an origin and a destination in its cells and a fare
    column (or when there is no row); it is the cells of the first row that
    are tested, not the labels alone.  Otherwise the load ends normally
    with the table built from the rows.  In that table malformed content is
    skipped or replaced: a row without origin, without destination or
    without period offers no record, the table is the one built from the
    rows that offer a record, every record comes from a row that offers it,
    with the tier "通常" when the row names none and with the fare 0 when
    the fare cell of the row holds no digit. *)
Theorem load_throws_exactly_on_shape
    (h : Host) (text fileName : jsstring) (aliasRows : list JsObject) :
  exists rows fmt,
    (rows = parseTSV text /\ fmt = tsv \/ rows = parseCSV text /\ fmt = csv)
    /\ ((exists message,
           parseFareRowsFromText text fileName = Throw message
           /\ loadDBFromLocalFile h text fileName aliasRows = Throw message)
        <-> ~ firstRowCells rows)
    /\ let src := lit "local:" ++ fileName in
       let db := buildDBFromRows h rows src [] aliasRows in
       (firstRowCells rows ->
        parseFareRowsFromText text fileName = Normal (rows, fmt)
        /\ loadDBFromLocalFile h text fileName aliasRows = Normal db)
       /\ (forall r,
             trim (prop (normalizeRowKeys r) "from") = []
             \/ trim (prop (normalizeRowKeys r) "to") = []
             \/ periodsOf h (normalizeRowKeys r)
                  (parseDateLoose h (prop (normalizeRowKeys r) "wholeFrom"))
                  (parseDateLoose h (prop (normalizeRowKeys r) "wholeTo"))
                = [] ->
             candidates h src r = [])
       /\ db
          = buildDBFromRows h (List.filter (offers h src) rows) src []
              aliasRows
       /\ (forall x, x ∈ faresRows db ->
             exists r, r ∈ rows /\ x ∈ candidates h src r
               /\ producedBy h src r x
               /\ (trim (prop (normalizeRowKeys r) "priceType") = [] ->
                   priceType x = lit "通常")
               /\ (forall cell,
                     normalizeRowKeys r !! lit "fare" = Some cell ->
                     Forall (fun c => isDigit c = false) cell ->
                     fare x = 0)).
Proof.
  unfold loadDBFromLocalFile, parseFareRowsFromText.
  set (isTSV := _ || _).
  set (rows := if isTSV then parseTSV text else parseCSV text).
  exists rows, (if isTSV then tsv else csv).
  split; [unfold rows; destruct isTSV; auto|].
  rewrite <- firstRowShaped_cells, <- hasFareShape_ok.
  split; [|cbv zeta; split; [|split; [|split]]].
  - destruct (ok (hasFareShape rows)); cbn [negb].
    + split; [intros (m & Hm & _); done|done].
    + split; [done|]. intros _. eexists. split; reflexivity.
  - destruct (ok (hasFareShape rows)); [done|]. intros H. done.
  - intros r Hr. unfold candidates.
    destruct Hr as [Hr|[Hr|Hr]]; rewrite Hr.
    + done.
    + by destruct (isEmpty (trim (prop (normalizeRowKeys r) "from"))).
    + by destruct (isEmpty _ || isEmpty _).
  - unfold buildDBFromRows.
    rewrite !addRows_offer, flat_map_offering. reflexivity.
  - intros x Hx.
    assert (Hoff : x ∈ flat_map (candidates h (lit "local:" ++ fileName)) rows).
    { unfold buildDBFromRows in Hx. cbn [faresRows] in Hx.
      rewrite addRows_offer, (offer_firstOfKey _ _ []) in Hx.
      - cbn [fares app] in Hx.
        apply elem_of_firstOfKey in Hx as (before & after & -> & _).
        apply elem_of_app. right. left.
      - intros k. cbn [seen]. rewrite elem_of_empty. split; [done|].
        intros H. by apply elem_of_nil in H. }
    apply list_elem_of_In, in_flat_map in Hoff as (r & Hr & Hxr).
    apply list_elem_of_In in Hr, Hxr.
    destruct (candidates_of_row _ _ _ _ Hxr) as [Hp Ht].
    exists r. split; [done|]. split; [done|]. split; [done|]. split.
    + intros He. rewrite Ht. cbv zeta. by rewrite He.
    + intros cell Hcell Hnd. destruct Hp as (_ & _ & _ & _ & -> & _).
      by apply (fareOf_no_digit _ cell).
Qed.

(** The sheet [noOriginFirst] has an origin, a destination, a fare and a
    period column, and its second row is complete; its first row has no
    origin, and the load throws.  The builder alone would skip that row:
    from the rows of this sheet it builds the record of the second row,
    and the same sheet with the rows exchanged loads.  The header alone,
    without any row, throws as well. *)
Lemma columns_detected_but_load_throws :
  List.map canonicalKey sheetLabels
  = [lit "from"; lit "to"; lit "fare"; lit "validRange"]
  /\ List.map (fun r => List.map fst (entries r)) (parseCSV noOriginFirst)
     = [sheetLabels; sheetLabels]
  /\ parseFareRowsFromText noOriginFirst (lit "fares.csv")
     = Throw
         (lit "データ形式が不正です（出発地/到着地/運賃が見つかりません）。"
          ++ lit "headers=出発地,到着地,運賃,価格適用期間")
  /\ (forall h aliasRows,
        loadDBFromLocalFile h noOriginFirst (lit "fares.csv") aliasRows
        = Throw
            (lit "データ形式が不正です（出発地/到着地/運賃が見つかりません）。"
             ++ lit "headers=出発地,到着地,運賃,価格適用期間"))
  /\ faresRows
       (buildDBFromRows sampleHost (parseCSV noOriginFirst)
          (lit "local:fares.csv") [] [])
     = [{| from := lit "東京"; to := lit "沖縄"; priceType := lit "通常";
           fare := 200; validFrom := newDate 2025 5 1;
           validTo := newDate 2025 5 30; source := lit "local:fares.csv" |}]
  /\ match
       loadDBFromLocalFile sampleHost noOriginSecond (lit "fares.csv") []
     with
     | Normal db =>
       faresRows db
       = [{| from := lit "東京"; to := lit "沖縄"; priceType := lit "通常";
             fare := 200; validFrom := newDate 2025 5 1;
             validTo := newDate 2025 5 30;
             source := lit "local:fares.csv" |}]
     | Throw _ => False
     end
  /\ parseFareRowsFromText labelsOnly (lit "fares.csv")
     = Throw
         (lit "データ形式が不正です（出発地/到着地/運賃が見つかりません）。"
          ++ lit "no rows").
Proof.
  split; [vm_compute; reflexivity|].
  split; [vm_compute; reflexivity|].
  split; [vm_compute; reflexivity|].
  split.
  { intros h aliasRows. unfold loadDBFromLocalFile.
    replace (parseFareRowsFromText noOriginFirst (lit "fares.csv"))
      with (@Throw (list JsObject * Format)
              (lit "データ形式が不正です（出発地/到着地/運賃が見つかりません）。"
               ++ lit "headers=出発地,到着地,運賃,価格適用期間"))
      by (vm_compute; reflexivity).
    reflexivity. }
  split; [vm_compute; reflexivity|].
  split; [vm_compute; reflexivity|].
  vm_compute; reflexivity.
Qed.

End Loading.

Section Years.
Import App Spec Behaviour.

Lemma marchStart_mono (a b : Z) : a < b -> marchStart (a + 1) <= marchStart b.
Proof. intros Hab. unfold marchStart. Z.div_mod_to_equations; lia. Qed.

(** Year and month of a March-based day. *)
Lemma fromMarch_year_month (y doy : Z) :
  0 <= doy <= 365 ->
  let mp := (5 * doy + 2) / 153 in
  fst (fst (fromMarch y doy)) = (if mp <? 10 then y else y + 1)
  /\ snd (fst (fromMarch y doy)) = (if mp <? 10 then mp + 3 else mp - 9)
  /\ 0 <= mp <= 11.
Proof.
  intros Hd mp. unfold fromMarch. cbv zeta. fold mp.
  assert (Hmp : 0 <= mp <= 11) by (unfold mp; Z.div_mod_to_equations; lia).
  destruct (mp <? 10) eqn:E;
    [apply Z.ltb_lt in E | apply Z.ltb_ge in E]; cbn [fst snd].
  - replace (mp + 3 <=? 2) with false by (symmetry; apply Z.leb_gt; lia). done.
  - replace (mp - 9 <=? 2) with true by (symmetry; apply Z.leb_le; lia). done.
Qed.

(** Within one calendar year the month does not decrease with the day. *)
Lemma getMonth_mono (d1 d2 : Date) :
  d1 <= d2 -> getFullYear d1 = getFullYear d2 -> getMonth d1 <= getMonth d2.
Proof.
  destruct (civilFromDays_fromMarch d1) as (y1 & doy1 & -> & Hd1 & Hc1).
  destruct (civilFromDays_fromMarch d2) as (y2 & doy2 & -> & Hd2 & Hc2).
  unfold getFullYear, getMonth. rewrite Hc1, Hc2.
  pose proof (marchStart_next y1) as Hn1.
  pose proof (marchStart_next y2) as Hn2.
  destruct (fromMarch_year_month y1 doy1) as (-> & -> & Hm1); [lia|].
  destruct (fromMarch_year_month y2 doy2) as (-> & -> & Hm2); [lia|].
  intros Hle.
  assert (Hyy : y1 <= y2).
  { destruct (Z.lt_ge_cases y2 y1) as [Hlt|]; [|done].
    pose proof (marchStart_mono y2 y1 Hlt). lia. }
  assert (Hmp : y1 = y2 -> (5 * doy1 + 2) / 153 <= (5 * doy2 + 2) / 153).
  { intros ->. apply Z.div_le_mono; lia. }
  revert Hm1 Hm2 Hmp.
  generalize ((5 * doy1 + 2) / 153) ((5 * doy2 + 2) / 153). intros m1 m2.
  destruct (m1 <? 10) eqn:E1; destruct (m2 <? 10) eqn:E2;
    rewrite ?Z.ltb_lt, ?Z.ltb_ge in *; lia.
Qed.

(** X22.  A period that lies within the boarding window is kept as it is: it is
    neither moved to another year nor cut. *)
Theorem alignToWholeRange_inside (pFrom pTo wholeFrom wholeTo : Date) :
  wholeFrom <= pFrom -> pFrom <= pTo -> pTo <= wholeTo ->
  alignToWholeRange (Some pFrom) (Some pTo) (Some wholeFrom) (Some wholeTo)
  = Some (pFrom, pTo).
Proof.
  intros H1 H2 H3.
  assert (Hearly : forall d, wholeFrom <= d -> beforeStart wholeFrom d = false).
  { intros d Hd. unfold beforeStart.
    destruct (getFullYear d =? getFullYear wholeFrom) eqn:E; [|done].
    apply Z.eqb_eq in E. simpl. apply Z.ltb_ge.
    apply getMonth_mono; [done|]. by symmetry. }
  destruct (Z.lt_ge_cases (getFullYear wholeFrom) (getFullYear wholeTo))
    as [Hc|Hc].
  - rewrite alignToWholeRange_crossing by done. unfold aligned.
    rewrite !Hearly by lia.
    replace (pTo <? wholeFrom) with false by (symmetry; apply Z.ltb_ge; lia).
    rewrite Z.max_l, Z.min_l by lia.
    replace (pTo <? pFrom) with false by (symmetry; apply Z.ltb_ge; lia).
    done.
  - rewrite alignToWholeRange_same_year by done. unfold clamped.
    rewrite Z.max_l, Z.min_l by lia.
    replace (pTo <? pFrom) with false by (symmetry; apply Z.ltb_ge; lia).
    done.
Qed.

(** X23.  [shiftYear d 1] is the same day of the same month one year later; the
    29th of February, which the next year does not have, becomes its 1st of
    March. *)
Theorem shiftYear_same_day (d : Date) :
  let s := shiftYear d 1 in
  getFullYear s = getFullYear d + 1
  /\ (getMonth s = getMonth d /\ getDate s = getDate d
      \/ getMonth d = 1 /\ getDate d = 29 /\ getMonth s = 2 /\ getDate s = 1).
Proof.
  intros s. split; [apply getFullYear_shiftYear|]. unfold s.
  destruct (civilFromDays_fromMarch d) as (y & doy & -> & Hd & Hc).
  rewrite shiftYear_marchStart by done.
  unfold getMonth, getDate. rewrite Hc.
  pose proof (marchStart_next y) as Hn.
  pose proof (marchStart_next (y + 1)) as Hn1.
  destruct (Z.lt_ge_cases doy (marchStart (y + 1 + 1) - marchStart (y + 1)))
    as [Hlt|Hge].
  - left. rewrite civilFromDays_marchStart by lia.
    unfold fromMarch. cbv zeta. cbn [fst snd]. done.
  - right. assert (doy = 365) as -> by lia.
    replace (marchStart (y + 1) + 365 - 719468)
      with (marchStart (y + 1 + 1) + 0 - 719468) by lia.
    rewrite civilFromDays_marchStart
      by (pose proof (marchStart_next (y + 1 + 1)); lia).
    unfold fromMarch. cbv zeta.
    change ((5 * 0 + 2) / 153) with 0. change ((5 * 365 + 2) / 153) with 11.
    cbn. repeat split; reflexivity.
Qed.

End Years.

Section MorePeriods.
Import App Spec Behaviour.

Local Arguments isDigit : simpl never.

(** *** A period column without hyphen *)

Lemma dropWhile_subset {A} (p : A -> bool) (l : list A) (x : A) :
  x ∈ dropWhile p l -> x ∈ l.
Proof.
  induction l as [|y l IH]; simpl; [done|].
  destruct (p y); [|done]. intros H. right. by apply IH.
Qed.

Lemma trim_subset (s : jsstring) (c : N) : c ∈ trim s -> c ∈ s.
Proof.
  unfold trim, trimEnd, trimStart. intros H.
  apply list_elem_of_In, in_rev, list_elem_of_In in H.
  apply dropWhile_subset in H.
  apply list_elem_of_In, in_rev, list_elem_of_In in H.
  by apply dropWhile_subset in H.
Qed.

Lemma splitOn_subset (sep : N) (s w : jsstring) (c : N) :
  w ∈ splitOn sep s -> c ∈ w -> c ∈ s.
Proof.
  revert w. induction s as [|x s IH]; intros w; simpl.
  - intros Hw Hc. apply list_elem_of_singleton in Hw. by subst.
  - destruct (x =? sep)%N.
    + intros Hw Hc. apply elem_of_cons in Hw as [->|Hw].
      * by apply elem_of_nil in Hc.
      * right. by apply (IH w).
    + destruct (splitOn sep s) as [|w0 ws] eqn:E.
      * intros Hw Hc. apply list_elem_of_singleton in Hw. subst.
        apply list_elem_of_singleton in Hc. subst. left.
      * intros Hw Hc. apply elem_of_cons in Hw as [->|Hw].
        -- apply elem_of_cons in Hc as [->|Hc]; [left|].
           right. apply (IH w0); [left|done].
        -- right. apply (IH w); [by right|done].
Qed.

Lemma dateToken_needs_separator (s : jsstring) :
  45%N ∉ s -> 47%N ∉ s -> dateToken s = None.
Proof.
  intros H45 H47. unfold dateToken.
  destruct (digits4 s) as [[y r]|] eqn:E; [|done]. simpl.
  unfold digits4 in E.
  destruct s as [|a [|b [|c [|d r']]]]; try done.
  destruct (isDigit a && isDigit b && isDigit c && isDigit d); [|done].
  injection E as <- <-.
  unfold oneOf. destruct r' as [|x r']; [done|].
  rewrite lit_slash_dash. unfold inClass. cbn [existsb].
  destruct (x =? 47)%N eqn:E1.
  { apply N.eqb_eq in E1. subst x. exfalso. apply H47.
    do 4 right. left. }
  destruct (x =? 45)%N eqn:E2.
  { apply N.eqb_eq in E2. subst x. exfalso. apply H45.
    do 4 right. left. }
  done.
Qed.

Lemma matchRange_needs_separator (p : jsstring) :
  45%N ∉ p -> 47%N ∉ p -> matchRange p = None.
Proof.
  induction p as [|c p IH]; intros H45 H47.
  - cbn [matchRange]. unfold matchRangeAt.
    by rewrite dateToken_needs_separator.
  - cbn [matchRange]. unfold matchRangeAt.
    rewrite dateToken_needs_separator by done. cbn.
    apply not_elem_of_cons in H45 as [_ H45].
    apply not_elem_of_cons in H47 as [_ H47]. by apply IH.
Qed.

Lemma fold_no_ranges (h : Host) (parts : list jsstring)
    (acc : list (Date * Date)) :
  Forall (fun p => matchRange p = None) parts ->
  fold_left
    (fun ranges p =>
       match matchRange p with
       | None => ranges
       | Some (m1, m2) =>
         match parseDateLoose h m1, parseDateLoose h m2 with
         | Some a, Some b => ranges ++ [(a, b)]
         | _, _ => ranges
         end
       end)
    parts acc
  = acc.
Proof.
  intros Hall. revert acc.
  induction Hall as [|p parts Hp _ IH]; intros acc; simpl; [done|].
  by rewrite Hp, IH.
Qed.

(** X3.  The period column is cut at every slash before its ranges are looked
    for, so a range is only found where its dates are written with hyphens:
    a column without any hyphen yields no period, although the range pattern
    admits the slash as a date separator. *)
Theorem parsePeriodRanges_needs_hyphen (h : Host) (s : jsstring) :
  45%N ∉ s -> parsePeriodRanges h s = [].
Proof.
  intros H45. unfold parsePeriodRanges.
  destruct (isEmpty (trim s)); [done|].
  apply fold_no_ranges. apply Forall_forall. intros p Hp.
  apply list_elem_of_In, filter_In in Hp as [Hp _].
  apply in_map_iff in Hp as (w & <- & Hw). apply list_elem_of_In in Hw.
  apply matchRange_needs_separator.
  - intros Hc. apply H45. apply trim_subset in Hc.
    apply (splitOn_subset _ _ _ _ Hw) in Hc. by apply trim_subset in Hc.
  - intros Hc. apply trim_subset in Hc.
    revert w Hw Hc.
    generalize (trim s). intros t.
    induction t as [|x t IH]; intros w; simpl.
    + intros Hw Hc. apply list_elem_of_singleton in Hw. subst.
      by apply elem_of_nil in Hc.
    + destruct (x =? 47)%N eqn:E.
      * intros Hw Hc. apply elem_of_cons in Hw as [->|Hw].
        -- by apply elem_of_nil in Hc.
        -- by apply (IH w).
      * destruct (splitOn 47 t) as [|w0 ws] eqn:Es.
        -- intros Hw Hc. apply list_elem_of_singleton in Hw. subst.
           apply list_elem_of_singleton in Hc. subst. done.
        -- intros Hw Hc. apply elem_of_cons in Hw as [->|Hw].
           ++ apply elem_of_cons in Hc as [Hc|Hc].
              ** subst x. done.
              ** apply (IH w0); [left|done].
           ++ apply (IH w); [by right|done].
Qed.

End MorePeriods.

Section Variants.
Import App Spec Behaviour.

(** *** Inferred aliases *)

Lemma fold_present {B}
    (step : gmap jsstring jsstring -> B -> gmap jsstring jsstring)
    (l : list B) (m : gmap jsstring jsstring) (k : jsstring) :
  (forall m b, is_Some (m !! k) -> is_Some (step m b !! k)) ->
  is_Some (m !! k) -> is_Some (fold_left step l m !! k).
Proof.
  intros Hstep. revert m. induction l as [|b l IH]; intros m Hm; simpl;
    [done|]. by apply IH, Hstep.
Qed.

Lemma insert_present (m : gmap jsstring jsstring) (k k' v' : jsstring) :
  is_Some (m !! k) -> is_Some (<[k' := v']> m !! k).
Proof.
  intros Hm. destruct (decide (k' = k)) as [->|Hne].
  - rewrite lookup_insert_eq. eauto.
  - by rewrite lookup_insert_ne.
Qed.

Lemma variant_step_present (p : jsstring) (vs : list jsstring)
    (m : gmap jsstring jsstring) (k : jsstring) :
  is_Some (m !! k) ->
  is_Some
    (fold_left
       (fun m v =>
          let k := normKey v in
          if bool_decide (is_Some (m !! k)) then m else <[k := p]> m)
       vs m !! k).
Proof.
  apply fold_present. intros m' v Hm'. cbv zeta.
  case_bool_decide; [done|]. by apply insert_present.
Qed.

Lemma variant_step_adds (p v : jsstring) (vs : list jsstring)
    (m : gmap jsstring jsstring) :
  v ∈ vs ->
  is_Some
    (fold_left
       (fun m v =>
          let k := normKey v in
          if bool_decide (is_Some (m !! k)) then m else <[k := p]> m)
       vs m !! normKey v).
Proof.
  revert m. induction vs as [|x vs IH]; intros m Hv.
  { by apply elem_of_nil in Hv. }
  cbn [fold_left]. apply elem_of_cons in Hv as [->|Hv]; [|by apply IH].
  apply variant_step_present. cbv zeta.
  case_bool_decide; [done|]. rewrite lookup_insert_eq. eauto.
Qed.

(** X17.  The name of a place without its prefecture or airport suffix is a key of
    the default alias table and leads to a place of the list; it leads to
    the place itself when no other place has this key, either by its own
    name or by one of its two shortened names. *)
Theorem shortened_name_resolves (places : list jsstring) (p v : jsstring) :
  p ∈ places -> v = stripPrefecture p \/ v = stripAirport p -> v <> [] ->
  exists q,
    buildAliasDefaultsFromPlaces places !! normKey v = Some q
    /\ q ∈ places
    /\ ((forall q', q' ∈ places -> q' <> p ->
           normKey q' <> normKey v
           /\ normKey (stripPrefecture q') <> normKey v
           /\ normKey (stripAirport q') <> normKey v) ->
        q = p).
Proof.
  intros Hp Hv Hne. set (k := normKey v).
  unfold buildAliasDefaultsFromPlaces.
  set (m1 := fold_left (fun m p => <[normKey p := p]> m) places ∅).
  set (step2 := fun (m : gmap jsstring jsstring) (p : jsstring) =>
         let variants :=
           List.filter (fun v => negb (isEmpty v) && negb (streq v p))
             [stripPrefecture p; stripAirport p] in
         fold_left
           (fun m v =>
              let k := normKey v in
              if bool_decide (is_Some (m !! k)) then m else <[k := p]> m)
           variants m).
  set (m2 := fold_left step2 places m1).
  (* the key is present after the second layer *)
  assert (Hpres : is_Some (m2 !! k)).
  { apply list_elem_of_split in Hp as (pre & post & ->).
    unfold m2. rewrite fold_left_app. cbn [fold_left].
    apply fold_present.
    { intros m b. apply variant_step_present. }
    destruct (decide (v = p)) as [Hvp|Hvp].
    - (* the shortened name is the name itself *)
      unfold step2. apply variant_step_present.
      apply fold_present.
      { intros m b. apply variant_step_present. }
      unfold m1. rewrite fold_left_app. cbn [fold_left].
      apply fold_present.
      { intros m b. apply insert_present. }
      unfold k. rewrite Hvp, lookup_insert_eq. eauto.
    - unfold step2. apply variant_step_adds.
      apply list_elem_of_In, filter_In. split.
      + destruct Hv as [->| ->]; simpl; auto.
      + apply andb_true_iff. split.
        * destruct v; [done|reflexivity].
        * unfold streq. by rewrite bool_decide_eq_false_2. }
  destruct Hpres as [q Hq].
  (* the third layer keeps the entry *)
  assert (Hfinal :
    fold_left
      (fun m '(alias, canon) =>
         if bool_decide (lit canon ∈ places)
            && negb (bool_decide (is_Some (m !! normKey (lit alias))))
         then <[normKey (lit alias) := lit canon]> m else m)
      common m2 !! k = Some q).
  { apply (fold_keeps _ common); [|done].
    intros [alias canon] _ m Hm.
    destruct (bool_decide (lit canon ∈ places)); simpl; [|done].
    case_bool_decide as Hd; simpl; [done|].
    rewrite lookup_insert_ne; [done|].
    intros Hk. apply Hd. rewrite Hk, Hm. done. }
  exists q. split; [exact Hfinal|]. split.
  { eapply buildAliasDefaultsFromPlaces_places. exact Hfinal. }
  intros Huniq.
  assert (HJ : forall k' v', m2 !! k' = Some v' -> k' = k -> v' = p);
    [|by eapply HJ].
  apply (fold_values (fun k' v' => k' = k -> v' = p)).
  { intros m q' Hq' Hm. unfold step2.
    apply (fold_values (fun k' v' => k' = k -> v' = p)); [|done].
    intros m' x Hx Hm' k' v'. cbv zeta. case_bool_decide; [apply Hm'|].
    apply (insert_value (fun k' v' => k' = k -> v' = p)); [|done].
    intros Hk. destruct (decide (q' = p)) as [|Hqp]; [done|]. exfalso.
    destruct (Huniq q' Hq' Hqp) as (_ & H1 & H2).
    apply list_elem_of_In, filter_In in Hx as [Hx _].
    destruct Hx as [<-|[<-|[]]]; done. }
  apply (fold_values (fun k' v' => k' = k -> v' = p)).
  { intros m q' Hq' Hm.
    apply (insert_value (fun k' v' => k' = k -> v' = p)); [|done].
    intros Hk. destruct (decide (q' = p)) as [|Hqp]; [done|]. exfalso.
    by destruct (Huniq q' Hq' Hqp) as (H0 & _). }
  intros k' v'. by rewrite lookup_empty.
Qed.

End Variants.

Section Found.
Import App Spec Behaviour.

(** X12.  A record of a built table whose two place names resolve to names with
    their own place keys is found by a query for its route, asked in either
    direction, on every date of its validity window. *)
Theorem record_is_found
    (h : Host) (rows : list JsObject) (src url : jsstring)
    (aliasRows : list JsObject) (x : FareRecord) (d : Date) :
  let db := buildDBFromRows h rows src url aliasRows in
  x ∈ faresRows db ->
  normKey (resolvePlace db (from x)) = normKey (from x) ->
  normKey (resolvePlace db (to x)) = normKey (to x) ->
  validFrom x <= d <= validTo x ->
  MatchResult.hit (findFare db d (from x) (to x)) = true
  /\ MatchResult.hit (findFare db d (to x) (from x)) = true.
Proof.
  intros db Hx Hf Ht Hcov.
  assert (Hk : routeKey x = queryKey db (from x) (to x)).
  { unfold routeKey, queryKey. by rewrite Hf, Ht. }
  assert (Hsome :
    is_Some (pickBest (default [] (routeMap db !! queryKey db (from x) (to x))) d)).
  { apply pickBest_is_Some. exists x. split; [|done].
    by apply routeMap_list. }
  split; apply findFare_hit_is_Some; auto.
Qed.

End Found.

Section Tabs.
Import App Spec Behaviour.

Lemma elem_of_joinWith (sep c : N) (l : list jsstring) :
  c ∈ joinWith sep l -> c = sep \/ exists x, x ∈ l /\ c ∈ x.
Proof.
  induction l as [|x l IH]; [intros H; by apply elem_of_nil in H|].
  destruct l as [|y l].
  - cbn [joinWith]. intros H. right. exists x. split; [left|done].
  - change (joinWith sep (x :: y :: l)) with (x ++ sep :: joinWith sep (y :: l)).
    rewrite elem_of_app, elem_of_cons. intros [H|[H|H]].
    + right. exists x. split; [left|done].
    + by left.
    + apply IH in H as [H|(z & Hz & Hc)]; [by left|].
      right. exists z. split; [by right|done].
Qed.

Lemma splitOn_joinWith (sep : N) (l : list jsstring) :
  l <> [] -> Forall (fun x => sep ∉ x) l ->
  splitOn sep (joinWith sep l) = l.
Proof.
  intros Hne Hall. induction Hall as [|x l Hx Hl IH]; [done|].
  destruct l as [|y l].
  - cbn [joinWith]. by apply splitOn_none.
  - change (joinWith sep (x :: y :: l)) with (x ++ sep :: joinWith sep (y :: l)).
    rewrite splitOn_app by done. by rewrite IH.
Qed.

Lemma removeAll_none (p : N -> bool) (s : jsstring) :
  Forall (fun c => p c = false) s -> removeAll p s = s.
Proof.
  unfold removeAll. induction 1 as [|c s Hc _ IH]; simpl; [done|].
  by rewrite Hc, IH.
Qed.

Lemma line_units (r : list jsstring) (c : N) :
  Forall plainCell r -> c ∈ joinWith 9 r -> c <> 10%N /\ c <> 13%N.
Proof.
  intros Hr Hc. apply elem_of_joinWith in Hc as [->|(x & Hx & Hc)]; [done|].
  rewrite Forall_forall in Hr. destruct (Hr x Hx) as (_ & H10 & H13).
  split; intros ->; done.
Qed.

(** X21.  A sheet written with tabs between the cells and line feeds between the
    lines, whose cells hold no tab, line feed or carriage return, is read
    back cell for cell: the first line gives the labels (it must not be
    blank), every other line that is not blank gives a row object. *)
Theorem parseTSV_tabbed (header : list jsstring) (lines : list (list jsstring)) :
  Forall (Forall plainCell) (header :: lines) ->
  isEmpty (trim (joinWith 9 header)) = false ->
  parseTSV (tsvText (header :: lines))
  = List.map (fun r => rowObject (List.map trim header) r [])
      (List.filter (fun r => negb (isEmpty (trim (joinWith 9 r)))) lines).
Proof.
  intros Hall Hh. unfold parseTSV, tsvText.
  assert (Hhne : header <> []) by (intros ->; done).
  rewrite removeAll_none.
  2:{ apply Forall_forall. intros c Hc.
      apply elem_of_joinWith in Hc as [->|(x & Hx & Hc)]; [done|].
      apply list_elem_of_fmap in Hx as (r & -> & Hr).
      rewrite Forall_forall in Hall.
      destruct (line_units r c (Hall r Hr) Hc) as [_ H13].
      by apply N.eqb_neq. }
  rewrite splitOn_joinWith.
  2:{ done. }
  2:{ apply Forall_forall. intros x Hx Hc.
      apply list_elem_of_fmap in Hx as (r & -> & Hr).
      rewrite Forall_forall in Hall.
      by destruct (line_units r 10%N (Hall r Hr) Hc). }
  cbn [List.map List.filter]. rewrite Hh. cbn [negb].
  apply Forall_cons in Hall as [Hhd Hlines].
  rewrite splitOn_joinWith;
    [|done|eapply Forall_impl; [exact Hhd|]; by intros c (? & _)].
  clear Hh Hhd Hhne.
  induction Hlines as [|r lines Hr _ IH]; [done|].
  cbn [List.map List.filter].
  destruct (isEmpty (trim (joinWith 9 r))) eqn:E; cbn [negb]; [exact IH|].
  cbn [List.map]. rewrite IH. f_equal.
  rewrite splitOn_joinWith; [done| |].
  - intros ->. done.
  - eapply Forall_impl; [exact Hr|]. by intros c (? & _).
Qed.

End Tabs.

Section Itinerary.
Import App Spec Behaviour.

(** X24.  The legs that the form adds keep the legs already listed and all bear
    the date of the form.  Without a via place one leg is added; with via
    places, a direct candidate and then a chain of legs from the origin to
    the destination whose stops are the via places that are given, in their
    order: each leg starts where the one before it ends, the legs end at
    the first via place, at the second and at the destination, and there
    is one leg more than there are via places. *)
Theorem addLeg_chain (h : Host) (legs : list Ui.Leg)
    (legDate from to via1 via2 : jsstring) (d : Date) :
  legDate <> [] -> parseDateLoose h legDate = Some d ->
  from <> [] -> to <> [] ->
  exists direct vias,
    Ui.addLeg h legs legDate from to via1 via2 = legs ++ direct :: vias
    /\ Forall (fun l => Ui.date l = d) (direct :: vias)
    /\ Ui.from direct = from /\ Ui.to direct = to
    /\ (via1 = [] /\ via2 = [] -> vias = [])
    /\ (via1 <> [] \/ via2 <> [] ->
        chain from to vias
        /\ List.map Ui.to vias
           = List.filter (fun v => negb (isEmpty v)) [via1; via2] ++ [to]
        /\ List.length vias
           = S (List.length
                  (List.filter (fun v => negb (isEmpty v)) [via1; via2]))
        /\ Forall (fun l => Ui.tag l = Some (lit "via")) vias
        /\ Ui.tag direct = Some (lit "direct")).
Proof.
  intros Hd Hp Hf Ht. unfold Ui.addLeg.
  destruct legDate as [|c0 legDate]; [done|]. cbn [isEmpty]. rewrite Hp.
  destruct from as [|f0 from]; [done|]. destruct to as [|t0 to]; [done|].
  cbn [isEmpty orb].
  destruct via1 as [|a0 via1], via2 as [|b0 via2]; cbn [isEmpty negb orb andb];
    eexists _, _; (split; [reflexivity|]);
    (split; [repeat constructor|]); (split; [reflexivity|]);
    (split; [reflexivity|]);
    (split; [intros [? ?]; done|]);
    intros Hv; try (destruct Hv; done);
    repeat split; repeat constructor.
Qed.

(** *** The buttons of a leg *)

Lemma insert_perm (legs : list Ui.Leg) (j : nat) (x y : Ui.Leg) :
  legs !! j = Some y -> y :: <[j := x]> legs ≡ₚ x :: legs.
Proof.
  revert j. induction legs as [|l legs IH]; intros j Hj; [done|].
  destruct j as [|j]; simpl in *; simplify_eq.
  - apply Permutation_swap.
  - etrans; [apply Permutation_swap|].
    etrans; [|apply Permutation_swap].
    apply Permutation_skip. by apply IH.
Qed.

Lemma swap_perm (legs : list Ui.Leg) (i j : nat) (x y : Ui.Leg) :
  legs !! i = Some x -> legs !! j = Some y -> i <> j ->
  <[j := x]> (<[i := y]> legs) ≡ₚ legs.
Proof.
  revert i j. induction legs as [|l legs IH]; intros i j Hi Hj Hne; [done|].
  destruct i as [|i], j as [|j]; try done; simpl in *; simplify_eq.
  - by apply insert_perm.
  - by apply insert_perm.
  - apply Permutation_skip. apply IH; [done..|]. congruence.
Qed.

Lemma swap_back (legs : list Ui.Leg) (i j : nat) (x t : Ui.Leg) :
  legs !! i = Some x -> legs !! j = Some t -> i <> j ->
  <[j := t]> (<[i := x]> (<[i := t]> (<[j := x]> legs))) = legs.
Proof.
  intros Hi Hj Hne.
  rewrite list_insert_insert_eq.
  rewrite (list_insert_insert_ne _ i j) by done.
  rewrite list_insert_insert_eq.
  rewrite (list_insert_id _ i) by done.
  by rewrite list_insert_id.
Qed.

(** X25.  The arrow buttons only change the order of the legs: the list after
    [up] or [down] is a rearrangement of the list before; the first leg
    cannot go up and the last cannot go down; and [down] on the place that a
    leg has reached by [up] puts the list back as it was. *)
Theorem legAct_reorders (legs : list Ui.Leg) (idx : nat) :
  (idx < List.length legs)%nat ->
  (exists moved,
     Ui.legAct Ui.up idx legs = Some moved /\ moved ≡ₚ legs
     /\ (idx = 0%nat -> moved = legs)
     /\ (0 < idx -> Ui.legAct Ui.down (idx - 1) moved = Some legs)%nat)
  /\ (exists moved,
        Ui.legAct Ui.down idx legs = Some moved /\ moved ≡ₚ legs
        /\ (idx = (List.length legs - 1)%nat -> moved = legs)).
Proof.
  intros Hidx.
  destruct (lookup_lt_is_Some_2 legs idx Hidx) as [x Hx].
  split.
  - unfold Ui.legAct at 1. destruct (0 <? idx)%nat eqn:E.
    + apply Nat.ltb_lt in E.
      destruct (lookup_lt_is_Some_2 legs (idx - 1)) as [t Ht]; [lia|].
      rewrite Ht, Hx. eexists. split; [reflexivity|].
      split; [apply (swap_perm legs (idx - 1) idx t x); (done || lia)|].
      split; [lia|]. intros _. unfold Ui.legAct.
      rewrite !length_insert.
      replace (idx - 1 <? List.length legs - 1)%nat with true
        by (symmetry; apply Nat.ltb_lt; lia).
      replace (idx - 1 + 1)%nat with idx by lia.
      rewrite list_lookup_insert_eq by (rewrite length_insert; lia).
      rewrite list_lookup_insert_ne by lia.
      rewrite list_lookup_insert_eq by lia.
      f_equal. apply swap_back; (done || lia).
    + apply Nat.ltb_ge in E. exists legs.
      split; [done|]. split; [done|]. split; [done|lia].
  - unfold Ui.legAct. destruct (idx <? List.length legs - 1)%nat eqn:E.
    + apply Nat.ltb_lt in E.
      destruct (lookup_lt_is_Some_2 legs (idx + 1)) as [t Ht]; [lia|].
      rewrite Ht, Hx. eexists. split; [reflexivity|].
      split; [apply (swap_perm legs (idx + 1) idx t x); (done || lia)|]. lia.
    + exists legs. done.
Qed.

(** *** The result table *)

Lemma findFare_hit_row (db : DB) (d : Date) (a b : jsstring) :
  MatchResult.hit (findFare db d a b)
  = match MatchResult.row (findFare db d a b) with
    | Some _ => true
    | None => false
    end.
Proof.
  unfold findFare. destruct (pickBest _ d); [done|].
  destruct (pickBest _ d); done.
Qed.

Lemma runSearch_fold (db : DB) (legs : list Ui.Leg)
    (results misses : list Ui.SearchRow) :
  let row leg :=
    {| Ui.res := findFare db (Ui.date leg) (Ui.from leg) (Ui.to leg);
       Ui.leg := leg |} in
  fold_left
    (fun '(results, misses) leg =>
       let res := findFare db (Ui.date leg) (Ui.from leg) (Ui.to leg) in
       let row := {| Ui.res := res; Ui.leg := leg |} in
       (results ++ [row],
        if negb (MatchResult.hit res) then misses ++ [row] else misses))
    legs (results, misses)
  = (results ++ List.map row legs,
     misses
     ++ List.filter (fun r => negb (MatchResult.hit (Ui.res r)))
          (List.map row legs)).
Proof.
  intros row. revert results misses.
  induction legs as [|l legs IH]; intros results misses.
  { cbn. by rewrite !app_nil_r. }
  cbn [fold_left List.map List.filter]. rewrite IH. cbn [Ui.res].
  rewrite <- app_assoc. cbn [app]. f_equal.
  destruct (negb _); [by rewrite <- app_assoc|done].
Qed.

(** X26.  [runSearch] gives one result row per leg, in the order of the legs,
    unless the table is empty, when it gives none; its misses are the rows
    without hit, in the same order; and the counters of the summary agree
    with them: the misses counted are the misses listed and the hits are the
    other rows. *)
Theorem runSearch_counts (db : DB) (legs : list Ui.Leg) :
  let results := fst (Ui.runSearch db legs) in
  let misses := snd (Ui.runSearch db legs) in
  results
  = List.map
      (fun leg =>
         {| Ui.res := findFare db (Ui.date leg) (Ui.from leg) (Ui.to leg);
            Ui.leg := leg |})
      (if Nat.eqb (List.length (faresRows db)) 0 then [] else legs)
  /\ misses
     = List.filter (fun r => negb (MatchResult.hit (Ui.res r))) results
  /\ Ui.resultMeta results
     = ((List.length results - List.length misses)%nat, List.length misses).
Proof.
  intros results misses.
  set (row := fun leg =>
         {| Ui.res := findFare db (Ui.date leg) (Ui.from leg) (Ui.to leg);
            Ui.leg := leg |}).
  assert (Hrun : Ui.runSearch db legs
                 = (List.map row
                      (if Nat.eqb (List.length (faresRows db)) 0 then []
                       else legs),
                    List.filter (fun r => negb (MatchResult.hit (Ui.res r)))
                      (List.map row
                         (if Nat.eqb (List.length (faresRows db)) 0 then []
                          else legs)))).
  { unfold Ui.runSearch. destruct (Nat.eqb (List.length (faresRows db)) 0);
      [done|].
    destruct legs as [|l legs]; [done|]. cbn [List.length Nat.eqb].
    apply (runSearch_fold db (l :: legs) [] []). }
  unfold results, misses. rewrite Hrun. cbn [fst snd].
  split; [done|]. split; [done|].
  generalize (if Nat.eqb (List.length (faresRows db)) 0 then [] else legs).
  intros ls. unfold Ui.resultMeta.
  assert (Hlen : forall rs : list Ui.SearchRow,
            Forall (fun r => MatchResult.hit (Ui.res r) = Ui.finiteFare r) rs ->
            (List.length
               (List.filter
                  (fun r => MatchResult.hit (Ui.res r) && Ui.finiteFare r) rs)
             + List.length
                 (List.filter (fun r => negb (MatchResult.hit (Ui.res r))) rs)
             = List.length rs)%nat).
  { induction 1 as [|r rs Hr _ IH]; [done|]. cbn [List.filter].
    rewrite <- Hr. destruct (MatchResult.hit (Ui.res r)); cbn; lia. }
  assert (Hall : Forall (fun r => MatchResult.hit (Ui.res r) = Ui.finiteFare r)
                   (List.map row ls)).
  { apply Forall_forall. intros r Hr.
    apply list_elem_of_fmap in Hr as (l & -> & _).
    unfold Ui.finiteFare, row. cbn [Ui.res]. apply findFare_hit_row. }
  specialize (Hlen _ Hall). f_equal; lia.
Qed.

End Itinerary.

Section Matcher.
Import Regex.

Context {A : Type}.

(** A greedy repetition that can take all of [a] and no more goes on with
    the rest, when the continuation accepts it. *)
Lemma rep_greedy_first (p : N -> bool) (min : nat) (max : option nat)
    (a rest : jsstring) (k : jsstring -> option A) (x : A) :
  Forall (fun c => p c = true) a -> (min <= List.length a)%nat ->
  match max with Some m => (List.length a <= m)%nat | None => True end ->
  max = Some (List.length a)
  \/ match rest with [] => True | c :: _ => p c = false end ->
  k rest = Some x ->
  rep p true min max (a ++ rest) k = Some x.
Proof.
  intros Ha. revert min max.
  induction Ha as [|c a Hc Ha IH]; intros min max Hmin Hmax Hend Hk.
  - simpl in Hmin. assert (min = 0%nat) as -> by lia.
    destruct rest as [|c rest]; cbn [rep app]; [by rewrite Hk|].
    destruct Hend as [->|Hp]; [by rewrite andb_false_r, Hk|].
    by rewrite Hp, Hk.
  - cbn [rep app]. rewrite Hc.
    assert (Hal : match max with Some 0%nat => false | _ => true end = true).
    { destruct max as [[|m]|]; simpl in Hmax; [lia|done|done]. }
    rewrite Hal. cbn [andb].
    rewrite IH; [done| | | |done].
    + simpl in Hmin. lia.
    + destruct max as [m|]; simpl in *; [lia|done].
    + destruct Hend as [->|Hp]; [left; reflexivity|by right].
Qed.

(** A lazy repetition stops at the first place where the continuation
    accepts. *)
Lemma rep_lazy_first (p : N -> bool) (b rest : jsstring)
    (k : jsstring -> option A) (x : A) :
  Forall (fun c => p c = true) b ->
  (forall a' b', b = a' ++ b' -> b' <> [] -> k (b' ++ rest) = None) ->
  k rest = Some x ->
  rep p false 0 None (b ++ rest) k = Some x.
Proof.
  intros Hb. induction Hb as [|c b Hc Hb IH]; intros Hno Hk.
  - destruct rest; cbn [rep app]; by rewrite Hk.
  - cbn [rep app].
    assert (H0 : k (c :: b ++ rest) = None) by (by apply (Hno [] (c :: b))).
    rewrite H0, Hc. cbn [andb pred fmap option_fmap option_map].
    apply IH; [|done].
    intros a' b' -> Hb'. apply (Hno (c :: a') b'); done.
Qed.

(** A repetition fails when the continuation refuses every place it can
    stop at. *)
Lemma rep_none (p : N -> bool) (s : jsstring) (k : jsstring -> option A) :
  (forall a b, s = a ++ b -> Forall (fun c => p c = true) a -> k b = None) ->
  rep p true 0 None s k = None.
Proof.
  induction s as [|c s IH]; intros Hno; cbn [rep].
  - by rewrite (Hno [] []).
  - rewrite (Hno [] (c :: s)) by done.
    destruct (p c) eqn:Hc; cbn [andb pred fmap option_fmap option_map]; [|done].
    rewrite IH; [done|].
    intros a b -> Ha. apply (Hno (c :: a) b); [done|]. by constructor.
Qed.

End Matcher.

Section ItineraryText.
Import App Spec Behaviour Regex.

Local Arguments isDigit : simpl never.
Local Arguments isWhiteSpace : simpl never.
Local Arguments Ui.dot : simpl never.

Lemma take_consumed (a rest : jsstring) :
  take (List.length (a ++ rest) - List.length rest) (a ++ rest) = a.
Proof.
  rewrite length_app. replace (_ + _ - _)%nat with (List.length a) by lia.
  by rewrite take_app_length.
Qed.

(** The line pattern on a line that starts with the text of a date. *)
Lemma lineRe_ymd (d : Date) (r : jsstring) :
  1000 <= getFullYear d <= 9999 ->
  r <> [] -> Forall (fun c => Ui.dot c = true) r ->
  (forall c, head r = Some c -> isWhiteSpace c = false) ->
  exec Ui.lineRe (ymd d ++ 32%N :: r)
  = Some (<[2%nat := r]> (<[1%nat := ymd d]> ∅)).
Proof.
  intros Hy Hne Hdot Hhead.
  pose proof (take_consumed (ymd d) (32%N :: r)) as Htake.
  destruct (ymd_shape d Hy) as (y & m & dd & E & Hy4 & Hm2 & Hd2 & _).
  apply digitRun_44 in Hy4 as (a & b & c & e & -> & Ha & Hb & Hc & He).
  apply digitRun_22 in Hm2 as (m1 & m2 & -> & Hm1 & Hm2).
  apply digitRun_22 in Hd2 as (d1 & d2 & -> & Hd1 & Hd2).
  unfold exec, Ui.lineRe. cbv zeta. cbn [run].
  set (final := fun (_ : jsstring) (caps : gmap nat jsstring) => Some caps).
  set (line := ymd d ++ 32%N :: r) in *.
  assert (Hline : line = [a; b; c; e] ++ 45%N :: [m1; m2] ++ 45%N :: [d1; d2]
                         ++ 32%N :: r).
  { unfold line. rewrite E. cbn. reflexivity. }
  set (k1 := fun (s' : jsstring) (caps' : gmap nat jsstring) =>
               rep isWhiteSpace true 0 None s'
                 (fun s'0 : jsstring =>
                    rep Ui.dot true 1 None s'0
                      (fun s'1 : jsstring =>
                         match s'1 with
                         | [] =>
                           final s'1
                             (<[2%nat := take (List.length s'0 - List.length s'1) s'0]>
                                (<[1%nat := take (List.length line - List.length s') line]>
                                   caps'))
                         | _ :: _ => None
                         end))).
  assert (Hk1 : k1 (32%N :: r) ∅ = Some (<[2%nat := r]> (<[1%nat := ymd d]> ∅))).
  { unfold k1.
    apply (rep_greedy_first _ _ _ [32%N] r); [by repeat constructor|simpl; lia|done| |].
    { right. destruct r as [|c0 r]; [done|]. by apply Hhead. }
    rewrite <- (app_nil_r r) at 1.
    apply (rep_greedy_first _ _ _ r []); [done| |done|by right|].
    { destruct r; [done|simpl; lia]. }
    unfold final. rewrite Htake.
    replace (List.length r - List.length (@nil N))%nat with (List.length r)
      by (simpl; lia).
    by rewrite firstn_all. }
  rewrite Hline at 1.
  erewrite (rep_greedy_first _ _ _ [a; b; c; e]); [reflexivity| | | | |].
  - by repeat constructor.
  - simpl; lia.
  - simpl; lia.
  - by left.
  - assert (Hs : inClass (lit "/-") 45%N = true) by reflexivity.
    rewrite Hs.
    apply (rep_greedy_first _ _ _ [m1; m2]);
      [by repeat constructor|simpl; lia|simpl; lia|by left|].
    rewrite Hs.
    apply (rep_greedy_first _ _ _ [d1; d2]);
      [by repeat constructor|simpl; lia|simpl; lia|by left|].
    exact Hk1.
Qed.


Lemma space_run_inside (b' rest pre suf : jsstring) :
  b' <> [] -> (forall c, last b' = Some c -> isWhiteSpace c = false) ->
  b' ++ rest = pre ++ suf -> Forall (fun c => isWhiteSpace c = true) pre ->
  exists c suf', suf = c :: suf' /\ c ∈ b'.
Proof.
  revert b'. induction pre as [|p0 pre IH]; intros b' Hne Hlast Heq Hpre.
  - destruct b' as [|c b']; [done|]. simpl in Heq. subst suf.
    eexists _, _. split; [reflexivity|left].
  - destruct b' as [|c b']; [done|]. simpl in Heq. simplify_eq.
    apply Forall_cons in Hpre as [Hp0 Hpre].
    destruct b' as [|c' b'].
    { rewrite (Hlast p0) in Hp0; done. }
    destruct (IH (c' :: b')) as (x & suf' & -> & Hx); [done| |done|done|].
    + intros y Hy. apply Hlast. by rewrite last_cons_cons.
    + eexists _, _. split; [reflexivity|by right].
Qed.

(** The route pattern on an origin without arrow unit, ["->"] and a
    destination. *)
Lemma routeRe_arrow (a b : jsstring) :
  plainName a -> plainName b ->
  Forall (fun c => c <> 45%N /\ c <> 126%N /\ c <> 12316%N) a ->
  exec Ui.routeRe (a ++ 45%N :: 62%N :: b)
  = Some (<[2%nat := b]> (<[1%nat := a]> ∅)).
Proof.
  intros (Hane & Hah & Hal & Had) (Hbne & Hbh & Hbl & Hbd) Hsep.
  unfold exec, Ui.routeRe. cbn [run].
  change (lit "->") with [45; 62]%N. change (lit "〜") with [12316%N].
  change (lit "~") with [126%N]. change (lit "-") with [45%N].
  set (line := a ++ 45%N :: 62%N :: b).
  set (final := fun (_ : jsstring) (caps : gmap nat jsstring) => Some caps).
  match goal with |- rep _ _ _ _ _ ?K = _ => set (k := K) end.
  (* the continuation refuses every place inside the origin *)
  assert (Hno : forall a' b', a = a' ++ b' -> a' <> [] -> b' <> [] ->
                  k (b' ++ 45%N :: 62%N :: b) = None).
  { intros a' b' Ea Ha' Hb'. unfold k. apply rep_none.
    intros pre suf Heq Hpre.
    destruct (space_run_inside b' (45%N :: 62%N :: b) pre suf Hb')
      as (c & suf' & -> & Hc);
      [|done|done|].
    { intros y Hy. apply Hal. rewrite Ea.
      destruct b' as [|z b'] using rev_ind; [done|].
      rewrite last_snoc in Hy. by rewrite app_assoc, last_snoc. }
    assert (Hca : c ∈ a) by (rewrite Ea; apply elem_of_app; by right).
    rewrite Forall_forall in Hsep. destruct (Hsep c Hca) as (H45 & H126 & H12316).
    cbn [startsWith].
    rewrite (proj2 (N.eqb_neq 45 c)) by congruence.
    rewrite (proj2 (N.eqb_neq 12316 c)) by congruence.
    rewrite (proj2 (N.eqb_neq 126 c)) by congruence.
    reflexivity. }
  (* and accepts the place after it *)
  assert (Hyes : k (45%N :: 62%N :: b)
                 = Some (<[2%nat := b]> (<[1%nat := a]> ∅))).
  { unfold k.
    apply (rep_greedy_first _ _ _ [] (45%N :: 62%N :: b));
      [done|simpl; lia|done|by right|].
    cbn [startsWith]. rewrite !N.eqb_refl. cbn [andb List.length drop].
    replace (startsWith b []) with true by (by destruct b).
    rewrite drop_0.
    match goal with
    | |- context [rep isWhiteSpace true 0%nat None b ?K] =>
      assert (HX : rep isWhiteSpace true 0%nat None b K
                   = Some (<[2%nat := b]> (<[1%nat := a]> ∅)))
    end.
    { apply (rep_greedy_first _ _ _ [] b); [done|simpl; lia|done| |].
      { right. destruct b as [|c0 b]; [done|]. by apply Hbh. }
      rewrite <- (app_nil_r b) at 1.
      apply (rep_greedy_first _ _ _ b []); [done| |done|by right|].
      { destruct b; [done|simpl; lia]. }
      unfold line.
      replace (List.length (a ++ 45%N :: 62%N :: b)
               - S (S (List.length b)))%nat
        with (List.length a) by (rewrite length_app; simpl; lia).
      rewrite take_app_length.
      replace (List.length b - List.length (@nil N))%nat with (List.length b)
        by (simpl; lia).
      by rewrite firstn_all. }
    by rewrite HX. }
  destruct a as [|c0 a']; [done|].
  unfold line. cbn [rep app].
  apply Forall_cons in Had as [Hc0 Had]. rewrite Hc0.
  cbn [andb pred fmap option_fmap option_map].
  apply rep_lazy_first; [done| |done].
  intros a'' b' Ea Hb'. apply (Hno (c0 :: a'') b'); [by rewrite Ea|done|done].
Qed.


Lemma splitLines_single (s : jsstring) :
  10%N ∉ s -> Ui.splitLines s = [s].
Proof.
  induction s as [|c s IH]; intros Hs; [done|].
  apply not_elem_of_cons in Hs as [Hc Hs].
  cbn [Ui.splitLines].
  rewrite (proj2 (N.eqb_neq c 10)) by done.
  rewrite IH by done.
  destruct (c =? 13)%N; [|done].
  destruct s as [|d s]; [done|].
  apply not_elem_of_cons in Hs as [Hd _].
  by rewrite (proj2 (N.eqb_neq d 10)) by done.
Qed.

Lemma replaceUnit_none (c : N) (by_ s : jsstring) :
  c ∉ s -> Ui.replaceUnit c by_ s = s.
Proof.
  unfold Ui.replaceUnit. induction s as [|u s IH]; intros Hs; [done|].
  apply not_elem_of_cons in Hs as [Hu Hs]. cbn [flat_map].
  rewrite (proj2 (N.eqb_neq u c)) by done. by rewrite IH.
Qed.

Lemma replaceUnit_app (c : N) (by_ a b : jsstring) :
  Ui.replaceUnit c by_ (a ++ b)
  = Ui.replaceUnit c by_ a ++ Ui.replaceUnit c by_ b.
Proof. unfold Ui.replaceUnit. apply flat_map_app. Qed.

Lemma replaceUnit_hit (c : N) (by_ s : jsstring) :
  Ui.replaceUnit c by_ (c :: s) = by_ ++ Ui.replaceUnit c by_ s.
Proof. unfold Ui.replaceUnit. cbn [flat_map]. by rewrite N.eqb_refl. Qed.

Lemma dot_not_feed (c : N) : Ui.dot c = true -> c <> 10%N.
Proof. intros H ->. done. Qed.

(** X27.  A line made of the text of a date, a space, an origin, the arrow [→]
    and a destination (the text that the form writes for a leg without via
    place) is read back as that leg, when the year has four digits, the two
    names are plain, the origin holds no unit that can be read as an arrow
    and the destination none that is rewritten. *)
Theorem parseItineraryLines_leg (h : Host) (d : Date) (a b : jsstring) :
  1000 <= getFullYear d <= 9999 ->
  plainName a -> plainName b ->
  Forall (fun c => c ∉ arrowUnits) a ->
  Forall (fun c => c ∉ rewrittenUnits) b ->
  Ui.parseItineraryLines h (Ui.legText d a b EmptyString)
  = {| Ui.legs :=
         [{| Ui.date := d; Ui.from := a; Ui.to := b;
             Ui.raw := Ui.legText d a b EmptyString; Ui.tag := None |}];
       Ui.errors := [] |}.
Proof.
  intros Hy Ha Hb Harrow Hrew.
  pose proof Ha as (Hane & Hah & Hal & Had).
  pose proof Hb as (Hbne & Hbh & Hbl & Hbd).
  set (line := Ui.legText d a b EmptyString).
  assert (Hline : line = ymd d ++ 32%N :: (a ++ 8594%N :: b)).
  { unfold line, Ui.legText. change (lit " ") with [32%N].
    change (lit "→") with [8594%N]. change (lit EmptyString) with (@nil N).
    by rewrite app_nil_r. }
  assert (Ha6 : forall c, c ∈ a ->
            c <> 45%N /\ c <> 126%N /\ c <> 12316%N
            /\ c <> 8594%N /\ c <> 8658%N /\ c <> 65374%N).
  { intros c Hc. rewrite Forall_forall in Harrow. specialize (Harrow c Hc).
    unfold arrowUnits in Harrow.
    repeat split; intros ->; apply Harrow;
      repeat (first [left|right]). }
  assert (Hb3 : forall c, c ∈ b ->
            c <> 8594%N /\ c <> 8658%N /\ c <> 65374%N).
  { intros c Hc. rewrite Forall_forall in Hrew. specialize (Hrew c Hc).
    unfold rewrittenUnits in Hrew.
    repeat split; intros ->; apply Hrew; repeat (first [left|right]). }
  set (r := a ++ 8594%N :: b) in *.
  assert (Hrne : r <> []) by (unfold r; by destruct a).
  assert (Hrdot : Forall (fun c => Ui.dot c = true) r).
  { unfold r. apply Forall_app. split; [done|]. by constructor. }
  assert (Hrhead : forall c, head r = Some c -> isWhiteSpace c = false).
  { unfold r. destruct a as [|c0 a]; [done|]. exact Hah. }
  assert (Hrlast : forall c, last r = Some c -> isWhiteSpace c = false).
  { unfold r. intros c Hc. apply Hbl.
    destruct b as [|z b] using rev_ind; [done|].
    rewrite app_comm_cons, app_assoc, last_snoc in Hc.
    by rewrite last_snoc. }
  (* the text is one line, which is its own trim *)
  assert (Hsplit : Ui.splitLines line = [line]).
  { apply splitLines_single. rewrite Hline.
    rewrite elem_of_app, elem_of_cons. intros [Hin|[Hin|Hin]]; [| done |].
    - pose proof (ymd_units d Hy) as Hu. rewrite Forall_forall in Hu.
      by destruct (Hu _ Hin) as [?| ?].
    - rewrite Forall_forall in Hrdot. by apply (dot_not_feed _ (Hrdot _ Hin)). }
  assert (Htrim : trim line = line).
  { rewrite Hline. apply trim_fixed.
    - destruct (ymd_shape d Hy) as (y & m & dd & -> & Hy4 & _).
      apply digitRun_44 in Hy4 as (c1 & c2 & c3 & c4 & -> & H1 & _).
      intros x [= <-]. by apply digit_not_space.
    - intros c Hc. apply Hrlast.
      destruct r as [|z r'] using rev_ind; [done|].
      rewrite app_comm_cons, app_assoc, last_snoc in Hc.
      by rewrite last_snoc. }
  (* the line gives the leg *)
  assert (Hparse : Ui.parseLine h line
                   = inl {| Ui.date := d; Ui.from := a; Ui.to := b;
                            Ui.raw := line; Ui.tag := None |}).
  { unfold Ui.parseLine. rewrite Hline at 1.
    rewrite lineRe_ymd by done.
    unfold group. rewrite lookup_insert_ne, !lookup_insert_eq by done.
    cbn [from_option id]. rewrite (proj1 (ymd_read_back h d Hy)).
    rewrite (trim_fixed r) by done.
    assert (Hs : Ui.replaceUnit 65374 (lit "〜")
                   (Ui.replaceUnit 8658 (lit "->")
                      (Ui.replaceUnit 8594 (lit "->") r))
                 = a ++ 45%N :: 62%N :: b).
    { unfold r. rewrite replaceUnit_app.
      rewrite (replaceUnit_none 8594 _ a) by (intros Hc; by destruct (Ha6 _ Hc) as (_&_&_&?&_)).
      rewrite replaceUnit_hit.
      rewrite (replaceUnit_none 8594 _ b) by (intros Hc; by destruct (Hb3 _ Hc) as (?&_)).
      change (lit "->") with [45; 62]%N. cbn [app].
      rewrite (replaceUnit_none 8658).
      2:{ rewrite elem_of_app, !elem_of_cons.
          intros [Hc|[Hc|[Hc|Hc]]]; [|done|done|].
          - by destruct (Ha6 _ Hc) as (_&_&_&_&?&_).
          - by destruct (Hb3 _ Hc) as (_&?&_). }
      rewrite replaceUnit_none; [done|].
      rewrite elem_of_app, !elem_of_cons.
      intros [Hc|[Hc|[Hc|Hc]]]; [|done|done|].
      - by destruct (Ha6 _ Hc) as (_&_&_&_&_&?).
      - by destruct (Hb3 _ Hc) as (_&_&?). }
    rewrite Hs. rewrite routeRe_arrow; [|done|done|].
    2:{ apply Forall_forall. intros c Hc.
        destruct (Ha6 _ Hc) as (?&?&?&_). done. }
    rewrite lookup_insert_ne, !lookup_insert_eq by done. cbn [from_option id].
    rewrite (trim_fixed a), (trim_fixed b) by done.
    destruct a; [done|]. destruct b; [done|]. reflexivity. }
  unfold Ui.parseItineraryLines. rewrite Hsplit.
  cbn [List.map List.filter]. rewrite Htrim.
  assert (Hn : isEmpty line = false).
  { rewrite Hline. destruct (ymd_shape d Hy) as (y & m & dd & -> & Hy4 & _).
    apply digitRun_44 in Hy4 as (c1 & c2 & c3 & c4 & -> & _). done. }
  rewrite Hn. cbn [negb fold_left]. rewrite Hparse. reflexivity.
Qed.

Lemma parseLine_leg (h : Host) (line : jsstring) (l : Ui.Leg) :
  Ui.parseLine h line = inl l ->
  Ui.raw l = line
  /\ Ui.from l <> [] /\ Ui.to l <> []
  /\ trim (Ui.from l) = Ui.from l /\ trim (Ui.to l) = Ui.to l
  /\ Ui.tag l = None.
Proof.
  unfold Ui.parseLine.
  destruct (exec Ui.lineRe line) as [m|]; [|done].
  destruct (parseDateLoose h _) as [d|]; [|done].
  destruct (exec Ui.routeRe _) as [m2|]; [|done].
  destruct (isEmpty (trim (group m2 1)) || isEmpty (trim (group m2 2))) eqn:E;
    [done|].
  apply orb_false_iff in E as [E1 E2].
  intros [= <-]. cbn [Ui.raw Ui.from Ui.to Ui.tag].
  split; [done|]. split; [intros Hn; by rewrite Hn in E1|].
  split; [intros Hn; by rewrite Hn in E2|].
  split; [apply trim_trim|]. split; [apply trim_trim|done].
Qed.

Lemma parse_fold (h : Host) (lines : list jsstring) (acc : Ui.Itinerary) :
  let r :=
    fold_left
      (fun acc line =>
         match Ui.parseLine h line with
         | inl leg =>
           {| Ui.legs := Ui.legs acc ++ [leg]; Ui.errors := Ui.errors acc |}
         | inr e =>
           {| Ui.legs := Ui.legs acc; Ui.errors := Ui.errors acc ++ [e] |}
         end)
      lines acc in
  exists new errs,
    Ui.legs r = Ui.legs acc ++ new /\ Ui.errors r = Ui.errors acc ++ errs
    /\ (List.length new + List.length errs)%nat = List.length lines
    /\ List.map Ui.raw new `sublist_of` lines
    /\ Forall (fun l => exists line, Ui.parseLine h line = inl l) new.
Proof.
  revert acc. induction lines as [|line lines IH]; intros acc; cbn [fold_left].
  { exists [], []. rewrite !app_nil_r. repeat split; done. }
  destruct (Ui.parseLine h line) as [l|e] eqn:E.
  - destruct (IH {| Ui.legs := Ui.legs acc ++ [l]; Ui.errors := Ui.errors acc |})
      as (new & errs & H1 & H2 & H3 & H4 & H5).
    cbn [Ui.legs Ui.errors] in *.
    exists (l :: new), errs. rewrite H1, H2, <- app_assoc.
    split; [done|]. split; [done|]. split; [simpl; lia|]. split.
    + cbn [List.map]. destruct (parseLine_leg h line l E) as (-> & _).
      by apply sublist_skip.
    + constructor; [eauto|done].
  - destruct (IH {| Ui.legs := Ui.legs acc; Ui.errors := Ui.errors acc ++ [e] |})
      as (new & errs & H1 & H2 & H3 & H4 & H5).
    cbn [Ui.legs Ui.errors] in *.
    exists new, (e :: errs). rewrite H1, H2, <- app_assoc.
    split; [done|]. split; [done|]. split; [simpl; lia|]. split; [|done].
    by apply sublist_cons.
Qed.

(** X28.  Every line of the text that is not blank gives one leg or one error
    message; the legs come in the order of their lines, each with its
    trimmed line as [raw], with a non-empty origin and destination without
    white space at either end, and without tag. *)
Theorem parseItineraryLines_accounts (h : Host) (text : jsstring) :
  let lines :=
    List.filter (fun l => negb (isEmpty l))
      (List.map trim (Ui.splitLines text)) in
  let r := Ui.parseItineraryLines h text in
  (List.length (Ui.legs r) + List.length (Ui.errors r))%nat = List.length lines
  /\ List.map Ui.raw (Ui.legs r) `sublist_of` lines
  /\ Forall
       (fun l =>
          Ui.from l <> [] /\ Ui.to l <> []
          /\ trim (Ui.from l) = Ui.from l /\ trim (Ui.to l) = Ui.to l
          /\ Ui.tag l = None)
       (Ui.legs r).
Proof.
  intros lines r.
  destruct (parse_fold h lines {| Ui.legs := []; Ui.errors := [] |})
    as (new & errs & H1 & H2 & H3 & H4 & H5).
  cbn [Ui.legs Ui.errors app] in H1, H2.
  unfold r, Ui.parseItineraryLines. fold lines. rewrite H1, H2.
  split; [done|]. split; [done|].
  eapply Forall_impl; [exact H5|].
  intros l (line & Hl). by destruct (parseLine_leg h line l Hl) as (_ & ?).
Qed.

End ItineraryText.

Section Windows.
Import App Spec Behaviour.

(** X29.  Every record of a built table comes from a row of the sheet, and when
    that row has a boarding window the validity of the record lies within
    the window and is not inverted. *)
Theorem records_within_window
    (h : Host) (rows : list JsObject) (src url : jsstring)
    (aliasRows : list JsObject) (x : FareRecord) :
  x ∈ faresRows (buildDBFromRows h rows src url aliasRows) ->
  exists r, r ∈ rows /\ producedBy h src r x
    /\ forall wf wt,
         parseDateLoose h (prop (normalizeRowKeys r) "wholeFrom") = Some wf ->
         parseDateLoose h (prop (normalizeRowKeys r) "wholeTo") = Some wt ->
         wf <= validFrom x /\ validFrom x <= validTo x /\ validTo x <= wt.
Proof.
  intros Hx. apply faresRows_producedBy in Hx as (r & Hr & Hp).
  exists r. split; [done|]. split; [done|]. intros wf wt Hwf Hwt.
  destruct Hp as (_ & _ & _ & _ & _ & _ & p & _ & Ha).
  rewrite Hwf, Hwt in Ha.
  by apply alignToWholeRange_within in Ha.
Qed.

(** *** The last line of a sheet *)

(** A line of quoted cells without the line feed at its end. *)
Lemma csvLine_open (cells : list jsstring) :
  cells <> [] ->
  exists body, csvLine cells = body ++ [10%N]
    /\ forall rest rows cur,
         head rest <> Some 34%N ->
         csvScan (body ++ rest) rows cur [] false
         = csvScan rest rows (cur ++ removelast cells)
             (List.last cells []) false.
Proof.
  induction cells as [|c cells IH]; intros Hne; [done|].
  destruct cells as [|c2 cells].
  - exists (quoteCell c). split; [done|]. intros rest rows cur Hrest.
    rewrite csvScan_quoteCell by done. cbn. by rewrite app_nil_r.
  - destruct IH as (body & Hbody & Hscan); [done|].
    exists (quoteCell c ++ 44%N :: body). split.
    + change (csvLine (c :: c2 :: cells))
        with (quoteCell c ++ 44%N :: csvLine (c2 :: cells)).
      rewrite Hbody. by rewrite <- app_assoc.
    + intros rest rows cur Hrest. rewrite <- app_assoc.
      rewrite csvScan_quoteCell by done. cbn [app csvScan].
      change (44 =? 34)%N with false. change (44 =? 44)%N with true.
      cbn iota. rewrite Hscan by done.
      change (removelast (c :: c2 :: cells))
        with (c :: removelast (c2 :: cells)).
      change (List.last (c :: c2 :: cells) [])
        with (List.last (c2 :: cells) []).
      by rewrite <- app_assoc.
Qed.


Lemma csvScan_csvText_app (lines : list (list jsstring)) (rest : jsstring) rows :
  Forall (fun cells => cells <> []) lines ->
  csvScan (csvText lines ++ rest) rows [] [] false
  = csvScan rest (rows ++ lines) [] [] false.
Proof.
  intros Hall. revert rows.
  induction Hall as [|cells lines Hc _ IH]; intros rows.
  - by rewrite app_nil_r.
  - unfold csvText. cbn [flat_map]. fold (csvText lines).
    rewrite <- app_assoc, csvScan_csvLine by done.
    rewrite IH, <- app_assoc. done.
Qed.

Lemma csvText_snoc (lines : list (list jsstring)) (last : list jsstring) :
  csvText (lines ++ [last]) = csvText lines ++ csvLine last.
Proof. unfold csvText. rewrite flat_map_app. cbn. by rewrite app_nil_r. Qed.

(** X30.  The line feed at the end of a sheet is optional: a sheet of quoted
    cells is read the same with and without the line feed after its last
    line. *)
Theorem parseCSV_last_line_feed
    (lines : list (list jsstring)) (last : list jsstring) :
  Forall (fun cells => cells <> []) lines -> last <> [] ->
  parseCSV (removelast (csvText (lines ++ [last])))
  = parseCSV (csvText (lines ++ [last])).
Proof.
  intros Hall Hlast.
  destruct (csvLine_open last Hlast) as (body & Hbody & Hscan).
  destruct last as [|c init _] using rev_ind; [done|]. clear Hlast.
  rewrite removelast_last in Hscan.
  assert (Hc : List.last (init ++ [c]) [] = c) by apply last_last.
  rewrite Hc in Hscan. clear Hc.
  assert (Hwith : csvScan (csvText (lines ++ [init ++ [c]])) [] [] [] false
                  = (lines ++ [init ++ [c]], [], [])).
  { apply (csvScan_csvText (lines ++ [init ++ [c]]) []).
    apply Forall_app. split; [done|]. constructor; [|done]. by destruct init. }
  assert (Hwithout :
    csvScan (removelast (csvText (lines ++ [init ++ [c]]))) [] [] [] false
    = (lines, init, c)).
  { rewrite csvText_snoc, Hbody, app_assoc, removelast_last.
    rewrite csvScan_csvText_app by done.
    rewrite <- (app_nil_r body) at 1. rewrite Hscan by done. reflexivity. }
  unfold parseCSV. rewrite Hwith, Hwithout.
  cbn [isEmpty List.length Nat.eqb negb orb].
  destruct c as [|u c]; [destruct init as [|c0 init]|];
    cbn [isEmpty negb orb List.length Nat.eqb]; try done.
  destruct lines as [|l0 ls]; [done|].
  cbn [app]. f_equal. rewrite List.filter_app. cbn. by rewrite app_nil_r.
Qed.

End Windows.

(** *** The theorems at sample inputs *)

Lemma parseDateLoose_ymd_witness :
  1000 <= getFullYear (newDate 2025 5 15) <= 9999
  /\ (App.parseDateLoose sampleHost (App.ymd (newDate 2025 5 15))
      = Some (newDate 2025 5 15)
      /\ Legacy.parseDateLoose sampleHost (App.ymd (newDate 2025 5 15))
         = Some (newDate 2025 5 15)).
Proof.
  assert (H : 1000 <= getFullYear (newDate 2025 5 15) <= 9999)
    by (vm_compute; split; discriminate).
  split; [exact H|].
  exact (parseDateLoose_ymd sampleHost (newDate 2025 5 15) H).
Defined.

Lemma parsePeriodRanges_periodText_witness :
  Forall Behaviour.fourDigitYears twoPeriods
  /\ App.parsePeriodRanges sampleHost (Behaviour.periodText twoPeriods)
     = twoPeriods.
Proof.
  assert (H : Forall Behaviour.fourDigitYears twoPeriods)
    by (repeat constructor; vm_compute; discriminate).
  split; [exact H|].
  exact (parsePeriodRanges_periodText sampleHost twoPeriods H).
Defined.

Lemma parsePeriodRanges_needs_hyphen_witness :
  (45%N ∉ lit "2025/06/01〜2025/06/30")
  /\ App.parsePeriodRanges sampleHost (lit "2025/06/01〜2025/06/30") = [].
Proof.
  assert (H : 45%N ∉ lit "2025/06/01〜2025/06/30")
    by (apply (bool_decide_unpack _); vm_compute; exact I).
  split; [exact H|].
  exact (parsePeriodRanges_needs_hyphen sampleHost _ H).
Defined.

Lemma faresRows_distinct_witness :
  let rows := [tokyoRow; tokyoDiscountRow; hanedaRow] in
  let db := App.buildDBFromRows sampleHost rows sampleSource [] [] in
  let offered :=
    flat_map (Behaviour.candidates sampleHost sampleSource) rows in
  (offered = [tokyoJune; tokyoDiscount; hanedaJune]
   /\ Behaviour.uniqKey tokyoDiscount = Behaviour.uniqKey tokyoJune
   /\ App.faresRows db = [tokyoJune; hanedaJune])
  /\ App.faresRows db = Behaviour.firstOfKey [] offered
  /\ (forall x,
        x ∈ App.faresRows db
        <-> exists before after,
              offered = before ++ x :: after
              /\ forall z, z ∈ before ->
                   Behaviour.uniqKey z <> Behaviour.uniqKey x)
  /\ (forall i j x y,
        App.faresRows db !! i = Some x -> App.faresRows db !! j = Some y ->
        i <> j ->
        Behaviour.uniqKey x <> Behaviour.uniqKey y
        /\ ~ (App.from x = App.from y /\ App.to x = App.to y
              /\ App.priceType x = App.priceType y
              /\ App.validFrom x = App.validFrom y
              /\ App.validTo x = App.validTo y)).
Proof.
  intros rows db offered.
  split; [repeat split; vm_compute; reflexivity|].
  exact (faresRows_distinct sampleHost rows sampleSource [] []).
Defined.

Lemma faresRows_fields_witness :
  tokyoJune
  ∈ App.faresRows (App.buildDBFromRows sampleHost [tokyoRow] sampleSource [] [])
  /\ ((App.from tokyoJune <> [] /\ trim (App.from tokyoJune) = App.from tokyoJune)
      /\ (App.to tokyoJune <> [] /\ trim (App.to tokyoJune) = App.to tokyoJune)
      /\ (App.priceType tokyoJune <> []
          /\ trim (App.priceType tokyoJune) = App.priceType tokyoJune)
      /\ App.source tokyoJune = sampleSource).
Proof.
  assert (Hin : tokyoJune
    ∈ App.faresRows
        (App.buildDBFromRows sampleHost [tokyoRow] sampleSource [] []))
    by (apply list_elem_of_In; vm_compute; left; reflexivity).
  split; [exact Hin|].
  exact (faresRows_fields sampleHost [tokyoRow] sampleSource [] [] _ Hin).
Defined.

Lemma findFare_row_of_table_witness :
  let db := App.buildDBFromRows sampleHost [tokyoRow] sampleSource [] [] in
  let res := App.findFare db (newDate 2025 5 15) (lit "沖縄") (lit "東京") in
  App.MatchResult.row res = Some tokyoJune
  /\ (tokyoJune ∈ App.faresRows db
      /\ Spec.covers tokyoJune (newDate 2025 5 15)
      /\ exists k,
           (App.MatchResult.usedReverse res = Some false
            /\ k = Behaviour.queryKey db (lit "沖縄") (lit "東京")
            \/ App.MatchResult.usedReverse res = Some true
               /\ k = Behaviour.queryKey db (lit "東京") (lit "沖縄"))
           /\ App.routeKey tokyoJune = k
           /\ forall c, c ∈ App.faresRows db -> App.routeKey c = k ->
                Spec.covers c (newDate 2025 5 15) ->
                Spec.atLeastAsGood tokyoJune c).
Proof.
  intros db res.
  assert (H : App.MatchResult.row res = Some tokyoJune)
    by (vm_compute; reflexivity).
  split; [exact H|].
  exact (findFare_row_of_table sampleHost [tokyoRow] sampleSource [] []
           (newDate 2025 5 15) (lit "沖縄") (lit "東京") tokyoJune H).
Defined.

Lemma record_is_found_witness :
  let db := App.buildDBFromRows sampleHost [tokyoRow] sampleSource [] [] in
  (tokyoJune ∈ App.faresRows db
   /\ App.normKey (App.resolvePlace db (App.from tokyoJune))
      = App.normKey (App.from tokyoJune)
   /\ App.normKey (App.resolvePlace db (App.to tokyoJune))
      = App.normKey (App.to tokyoJune)
   /\ App.validFrom tokyoJune <= newDate 2025 5 15 <= App.validTo tokyoJune)
  /\ (App.MatchResult.hit
        (App.findFare db (newDate 2025 5 15) (App.from tokyoJune)
           (App.to tokyoJune)) = true
      /\ App.MatchResult.hit
           (App.findFare db (newDate 2025 5 15) (App.to tokyoJune)
              (App.from tokyoJune)) = true).
Proof.
  intros db.
  assert (Hin : tokyoJune ∈ App.faresRows db)
    by (apply list_elem_of_In; vm_compute; left; reflexivity).
  assert (Hf : App.normKey (App.resolvePlace db (App.from tokyoJune))
               = App.normKey (App.from tokyoJune))
    by (vm_compute; reflexivity).
  assert (Ht : App.normKey (App.resolvePlace db (App.to tokyoJune))
               = App.normKey (App.to tokyoJune))
    by (vm_compute; reflexivity).
  assert (Hd : App.validFrom tokyoJune <= newDate 2025 5 15
               <= App.validTo tokyoJune)
    by (vm_compute; split; discriminate).
  split; [auto|].
  exact (record_is_found sampleHost [tokyoRow] sampleSource [] [] tokyoJune
           (newDate 2025 5 15) Hin Hf Ht Hd).
Defined.

Lemma alias_row_takes_effect_witness :
  let db :=
    App.buildDBFromRows sampleHost [tokyoRow] sampleSource []
      ([] ++ hanedaAlias :: [tokyoAlias]) in
  (Spec.effective hanedaAlias (lit "羽田") (lit "東京")
   /\ App.normKey (lit " 羽田 ") = App.normKey (lit "羽田")
   /\ App.normKey (lit " 羽田 ") <> [])
  /\ App.resolvePlace db (lit " 羽田 ") = lit "東京".
Proof.
  intros db.
  assert (He : Spec.effective hanedaAlias (lit "羽田") (lit "東京")).
  { repeat split; vm_compute; (reflexivity || discriminate). }
  assert (Hk : App.normKey (lit " 羽田 ") = App.normKey (lit "羽田"))
    by (vm_compute; reflexivity).
  assert (Hn : App.normKey (lit " 羽田 ") <> [])
    by (vm_compute; discriminate).
  split; [auto|].
  apply (alias_row_takes_effect sampleHost [tokyoRow] sampleSource []
           [] [tokyoAlias] hanedaAlias (lit "羽田") (lit "東京") (lit " 羽田 ")
           He); [|exact Hk|exact Hn].
  intros a' alias' canon' Ha' (-> & -> & _ & _) Hkey.
  apply list_elem_of_singleton in Ha'. subst a'.
  vm_compute in Hkey. discriminate Hkey.
Defined.

Lemma shortened_name_resolves_witness :
  (lit "東京都" ∈ [lit "沖縄"; lit "東京都"]
   /\ (lit "東京" = App.stripPrefecture (lit "東京都")
       \/ lit "東京" = App.stripAirport (lit "東京都"))
   /\ lit "東京" <> [])
  /\ exists q,
       App.buildAliasDefaultsFromPlaces [lit "沖縄"; lit "東京都"]
         !! App.normKey (lit "東京") = Some q
       /\ q ∈ [lit "沖縄"; lit "東京都"]
       /\ ((forall q', q' ∈ [lit "沖縄"; lit "東京都"] -> q' <> lit "東京都" ->
              App.normKey q' <> App.normKey (lit "東京")
              /\ App.normKey (App.stripPrefecture q') <> App.normKey (lit "東京")
              /\ App.normKey (App.stripAirport q') <> App.normKey (lit "東京")) ->
           q = lit "東京都").
Proof.
  assert (Hin : lit "東京都" ∈ [lit "沖縄"; lit "東京都"])
    by (apply list_elem_of_In; vm_compute; auto).
  assert (Hv : lit "東京" = App.stripPrefecture (lit "東京都")
               \/ lit "東京" = App.stripAirport (lit "東京都"))
    by (left; vm_compute; reflexivity).
  assert (Hne : lit "東京" <> []) by (vm_compute; discriminate).
  split; [auto|].
  exact (shortened_name_resolves [lit "沖縄"; lit "東京都"] (lit "東京都")
           (lit "東京") Hin Hv Hne).
Defined.

Lemma normKey_insensitive_witness :
  (Forall (fun u => sheetUnit u = true) (lit "ŌSAKA（関西）")
   /\ Forall (fun u => sheetUnit u = true) (lit "Airport")
   /\ (isWhiteSpace 12288 = true \/ inClass App.brackets 12288 = true
       \/ inClass (lit "・･") 12288 = true))
  /\ App.normKey (lit "ŌSAKA（関西）" ++ lit "Airport")
     = App.normKey (lit "ŌSAKA（関西）") ++ App.normKey (lit "Airport")
  /\ App.normKey (lit "ŌSAKA（関西）" ++ 12288%N :: lit "Airport")
     = App.normKey (lit "ŌSAKA（関西）" ++ lit "Airport")
  /\ App.normKey (toLowerCase (lit "ŌSAKA（関西）"))
     = App.normKey (lit "ŌSAKA（関西）")
  /\ App.normKey (App.normKey (lit "ŌSAKA（関西）"))
     = App.normKey (lit "ŌSAKA（関西）")
  /\ Forall (fun u => sheetUnit u = true) (App.normKey (lit "ŌSAKA（関西）")).
Proof.
  assert (Ha : Forall (fun u => sheetUnit u = true) (lit "ŌSAKA（関西）"))
    by (apply (bool_decide_unpack _); vm_compute; exact I).
  assert (Hb : Forall (fun u => sheetUnit u = true) (lit "Airport"))
    by (apply (bool_decide_unpack _); vm_compute; exact I).
  assert (Hc : isWhiteSpace 12288 = true \/ inClass App.brackets 12288 = true
               \/ inClass (lit "・･") 12288 = true)
    by (left; reflexivity).
  split; [auto|].
  exact (normKey_insensitive (lit "ŌSAKA（関西）") (lit "Airport") 12288
           Ha Hb Hc).
Defined.

Lemma rowObject_cells_witness :
  let header := [lit "到着地"; lit "1"; lit "出発地"; lit "0"] in
  let cols := [lit " 沖縄 "; lit "b"; lit "東京"] in
  (NoDup header /\ (lit "__proto__" ∉ header)
   /\ entries (App.rowObject header cols [])
      = [(lit "0", []); (lit "1", lit "b"); (lit "到着地", lit "沖縄");
         (lit "出発地", lit "東京")])
  /\ let cell := fun (j : nat) hd => (hd, trim (default [] (cols !! j))) in
     let row := App.rowObject header cols [] in
     entries row ≡ₚ imap cell header
     /\ (exists indexed,
           entries row
           = indexed
             ++ List.filter (fun e => negb (isArrayIndex (fst e)))
                  (imap cell header)
           /\ indexed
              ≡ₚ List.filter (fun e => isArrayIndex (fst e))
                   (imap cell header)
           /\ Spec.ascending (fun a b => Number (fst a) - Number (fst b))
                indexed)
     /\ (Forall (fun hd => isArrayIndex hd = false) header ->
         entries row = imap cell header).
Proof.
  intros header cols.
  assert (Hnd : NoDup header)
    by (apply (bool_decide_unpack _); vm_compute; exact I).
  assert (Hp : lit "__proto__" ∉ header)
    by (apply (bool_decide_unpack _); vm_compute; exact I).
  split; [split; [exact Hnd|split; [exact Hp|vm_compute; reflexivity]]|].
  exact (rowObject_cells header cols Hnd Hp).
Defined.

Lemma parseCSV_quoted_witness :
  (sheetHeader <> [] /\ Forall (fun cells => cells <> []) [sheetLine])
  /\ App.parseCSV (Behaviour.csvText (sheetHeader :: [sheetLine]))
     = List.map
         (fun r =>
            App.rowObject
              (List.map (fun hd => trim (App.stripBOM hd)) sheetHeader) r [])
         (List.filter
            (fun r => negb (forallb (fun x => isEmpty (trim x)) r))
            [sheetLine]).
Proof.
  assert (Hh : sheetHeader <> []) by discriminate.
  assert (Hl : Forall (fun cells : list jsstring => cells <> []) [sheetLine])
    by (repeat constructor; discriminate).
  split; [auto|].
  exact (parseCSV_quoted sheetHeader [sheetLine] Hh Hl).
Defined.

Lemma parseTSV_tabbed_witness :
  (Forall (Forall Behaviour.plainCell) (sheetHeader :: [plainLine])
   /\ isEmpty (trim (Behaviour.joinWith 9 sheetHeader)) = false)
  /\ App.parseTSV (Behaviour.tsvText (sheetHeader :: [plainLine]))
     = List.map (fun r => App.rowObject (List.map trim sheetHeader) r [])
         (List.filter
            (fun r => negb (isEmpty (trim (Behaviour.joinWith 9 r))))
            [plainLine]).
Proof.
  assert (Hall : Forall (Forall Behaviour.plainCell)
                   (sheetHeader :: [plainLine])).
  { repeat constructor; apply (bool_decide_unpack _); vm_compute; exact I. }
  assert (Hh : isEmpty (trim (Behaviour.joinWith 9 sheetHeader)) = false)
    by (vm_compute; reflexivity).
  split; [auto|].
  exact (parseTSV_tabbed sheetHeader [plainLine] Hall Hh).
Defined.

Lemma alignToWholeRange_inside_witness :
  (newDate 2025 9 26 <= newDate 2026 0 5
   /\ newDate 2026 0 5 <= newDate 2026 0 20
   /\ newDate 2026 0 20 <= newDate 2026 2 28)
  /\ App.alignToWholeRange
       (Some (newDate 2026 0 5)) (Some (newDate 2026 0 20))
       (Some (newDate 2025 9 26)) (Some (newDate 2026 2 28))
     = Some (newDate 2026 0 5, newDate 2026 0 20).
Proof.
  assert (H1 : newDate 2025 9 26 <= newDate 2026 0 5)
    by (vm_compute; discriminate).
  assert (H2 : newDate 2026 0 5 <= newDate 2026 0 20)
    by (vm_compute; discriminate).
  assert (H3 : newDate 2026 0 20 <= newDate 2026 2 28)
    by (vm_compute; discriminate).
  split; [auto|].
  exact (alignToWholeRange_inside _ _ _ _ H1 H2 H3).
Defined.

Lemma addLeg_chain_witness :
  (lit "2025-06-15" <> []
   /\ App.parseDateLoose sampleHost (lit "2025-06-15") = Some (newDate 2025 5 15)
   /\ lit "東京" <> [] /\ lit "沖縄" <> [])
  /\ exists direct vias,
       Ui.addLeg sampleHost [outbound] (lit "2025-06-15") (lit "東京")
         (lit "沖縄") (lit "大阪") []
       = [outbound] ++ direct :: vias
       /\ Forall (fun l => Ui.date l = newDate 2025 5 15) (direct :: vias)
       /\ Ui.from direct = lit "東京" /\ Ui.to direct = lit "沖縄"
       /\ (lit "大阪" = [] /\ @nil N = [] -> vias = [])
       /\ (lit "大阪" <> [] \/ @nil N <> [] ->
           Behaviour.chain (lit "東京") (lit "沖縄") vias
           /\ List.map Ui.to vias
              = List.filter (fun v => negb (isEmpty v)) [lit "大阪"; []]
                ++ [lit "沖縄"]
           /\ List.length vias
              = S (List.length
                     (List.filter (fun v => negb (isEmpty v))
                        [lit "大阪"; []]))
           /\ Forall (fun l => Ui.tag l = Some (lit "via")) vias
           /\ Ui.tag direct = Some (lit "direct")).
Proof.
  assert (H1 : lit "2025-06-15" <> []) by (vm_compute; discriminate).
  assert (H2 : App.parseDateLoose sampleHost (lit "2025-06-15")
               = Some (newDate 2025 5 15)) by (vm_compute; reflexivity).
  assert (H3 : lit "東京" <> []) by (vm_compute; discriminate).
  assert (H4 : lit "沖縄" <> []) by (vm_compute; discriminate).
  split; [auto|].
  exact (addLeg_chain sampleHost [outbound] (lit "2025-06-15") (lit "東京")
           (lit "沖縄") (lit "大阪") [] (newDate 2025 5 15) H1 H2 H3 H4).
Defined.

Lemma legAct_reorders_witness :
  (1 < List.length [outbound; inbound])%nat
  /\ ((exists moved,
         Ui.legAct Ui.up 1 [outbound; inbound] = Some moved
         /\ moved ≡ₚ [outbound; inbound]
         /\ (1%nat = 0%nat -> moved = [outbound; inbound])
         /\ (0 < 1 ->
             Ui.legAct Ui.down (1 - 1) moved = Some [outbound; inbound])%nat)
      /\ (exists moved,
            Ui.legAct Ui.down 1 [outbound; inbound] = Some moved
            /\ moved ≡ₚ [outbound; inbound]
            /\ (1%nat = (List.length [outbound; inbound] - 1)%nat ->
                moved = [outbound; inbound]))).
Proof.
  assert (H : (1 < List.length [outbound; inbound])%nat) by (simpl; lia).
  split; [exact H|].
  exact (legAct_reorders [outbound; inbound] 1 H).
Defined.

Lemma parseItineraryLines_leg_witness :
  (1000 <= getFullYear (newDate 2025 5 15) <= 9999
   /\ Behaviour.plainName (lit "東京") /\ Behaviour.plainName (lit "沖縄")
   /\ Forall (fun c => c ∉ Behaviour.arrowUnits) (lit "東京")
   /\ Forall (fun c => c ∉ Behaviour.rewrittenUnits) (lit "沖縄"))
  /\ Ui.parseItineraryLines sampleHost
       (Ui.legText (newDate 2025 5 15) (lit "東京") (lit "沖縄") EmptyString)
     = {| Ui.legs :=
            [{| Ui.date := newDate 2025 5 15; Ui.from := lit "東京";
                Ui.to := lit "沖縄";
                Ui.raw :=
                  Ui.legText (newDate 2025 5 15) (lit "東京") (lit "沖縄")
                    EmptyString;
                Ui.tag := None |}];
          Ui.errors := [] |}.
Proof.
  assert (Hy : 1000 <= getFullYear (newDate 2025 5 15) <= 9999)
    by (vm_compute; split; discriminate).
  assert (Hplain : forall s : jsstring,
            s = lit "東京" \/ s = lit "沖縄" -> Behaviour.plainName s).
  { intros s [-> | ->]; (split; [vm_compute; discriminate|]);
      (split; [intros c Hc; vm_compute in Hc; injection Hc as <-; reflexivity|]);
      (split; [intros c Hc; vm_compute in Hc; injection Hc as <-; reflexivity|]);
      repeat constructor. }
  assert (Ha : Forall (fun c => c ∉ Behaviour.arrowUnits) (lit "東京"))
    by (repeat constructor; apply (bool_decide_unpack _); vm_compute; exact I).
  assert (Hb : Forall (fun c => c ∉ Behaviour.rewrittenUnits) (lit "沖縄"))
    by (repeat constructor; apply (bool_decide_unpack _); vm_compute; exact I).
  split; [auto 10|].
  exact (parseItineraryLines_leg sampleHost (newDate 2025 5 15) (lit "東京")
           (lit "沖縄") Hy (Hplain _ (or_introl eq_refl))
           (Hplain _ (or_intror eq_refl)) Ha Hb).
Defined.

Lemma records_within_window_witness :
  windowRecord
  ∈ App.faresRows (App.buildDBFromRows sampleHost [windowRow] sampleSource [] [])
  /\ exists r, r ∈ [windowRow] /\ Spec.producedBy sampleHost sampleSource r windowRecord
       /\ forall wf wt,
            App.parseDateLoose sampleHost
              (App.prop (App.normalizeRowKeys r) "wholeFrom") = Some wf ->
            App.parseDateLoose sampleHost
              (App.prop (App.normalizeRowKeys r) "wholeTo") = Some wt ->
            wf <= App.validFrom windowRecord
            /\ App.validFrom windowRecord <= App.validTo windowRecord
            /\ App.validTo windowRecord <= wt.
Proof.
  assert (Hin : windowRecord
    ∈ App.faresRows
        (App.buildDBFromRows sampleHost [windowRow] sampleSource [] []))
    by (apply list_elem_of_In; vm_compute; left; reflexivity).
  split; [exact Hin|].
  exact (records_within_window sampleHost [windowRow] sampleSource [] [] _ Hin).
Defined.

Lemma parseCSV_last_line_feed_witness :
  (Forall (fun cells : list jsstring => cells <> []) [sheetHeader]
   /\ sheetLine <> [])
  /\ App.parseCSV (removelast (Behaviour.csvText ([sheetHeader] ++ [sheetLine])))
     = App.parseCSV (Behaviour.csvText ([sheetHeader] ++ [sheetLine])).
Proof.
  assert (H1 : Forall (fun cells : list jsstring => cells <> []) [sheetHeader])
    by (repeat constructor; discriminate).
  assert (H2 : sheetLine <> []) by discriminate.
  split; [auto|].
  exact (parseCSV_last_line_feed [sheetHeader] sheetLine H1 H2).
Defined.
